(** * Days 15 and 16: the sensor rows and the valve network
       (day15.cpp, day16.cpp)

    A shallow embedding of the two programs, and the properties that hold of
    them: of day16.cpp the reading of the valves, the distance tables
    ([Valve::calculateDistanceToOtherValves]), the reward search ([State],
    [part1]) and [main]; of day15.cpp, in the module [Day15], the reading of
    the sensors, the ranges of a row ([SensorRange], [reduce], [getRanges]),
    [part1], [part2] and [main].

    Conventions of the embedding.
    - [size_t] is the 64-bit unsigned type of an LP64 platform: values are
      [N], and every addition, subtraction and multiplication of the source
      is followed by [wrap].  [int] has 32 bits and [long] 64: values are
      [Z], and an operation on [int]s whose result is no [int] is undefined
      behaviour, which is an outcome of its own ([Day15.Undefined]).
    - A [const Valve*] is represented by the key under which the network
      owns the valve.  [parse] stores every valve under its own label
      ([valves[valve->label] = std::move(valve)]), so keys, labels and
      pointers are in bijection.  [p->member] is [member (network !!! p)]:
      the code holds pointers to valves of the network only, and a key
      outside the network, which stands for no pointer of the code, reads
      as the default valve.
    - The order of pointers ([a < b] in [DistanceSorter]) and the iteration
      order of [std::unordered_map] are not fixed by the language.  They are
      parameters of the development ([ptr_lt], [hash_order]); everything
      proved below holds for each choice of them.
    - The programs read from text.  A file is the text it holds, and one
      that cannot be opened is the empty text.  For day 16, [read_valves] is
      the reading loop of [parse] (lines 79-106) and [parse] the loop that
      fills the tables (lines 108-111); [main] takes each file as what the
      reading loop has made of it, and [program] runs [main] on texts.
    - A [std::string] holds fewer than [npos] characters and a
      [std::vector] fewer than [2^64] elements.  The strings and lists of
      the embedding are not bounded, so what is proved of a line whose
      positions are computed, or of a vector whose indices are, says that
      it is shorter than that.
    - Line numbers are those of the files of the repository that hold the
      sources of the two days. *)

From stdpp Require Import gmap strings list fin_maps fin_sets sorting.
From Stdlib Require Import NArith ZArith Lia Ascii DecimalString DecimalN.
From Stdlib Require DecimalFacts.

Local Open Scope N_scope.

(** ** Machine integers *)

Definition SIZE_MODULUS : N := 2 ^ 64.
Definition UINT32_MAX : N := 4294967295.

Definition wrap (n : N) : N := n mod SIZE_MODULUS.

(** [a - b] on [size_t]. *)
Definition wrap_sub (a b : N) : N := (a + SIZE_MODULUS - b) mod SIZE_MODULUS.

(** ** Exceptions *)

(** [std::out_of_range] comes from [unordered_map::at]; its text is the
    one libstdc++ gives it. *)
Inductive exception :=
| runtime_error (what : string)
| out_of_range (what : string).

Definition what (e : exception) : string :=
  match e with
  | runtime_error w => w
  | out_of_range w => w
  end.

Inductive Result (A : Type) :=
| Ok (a : A)
| Throw (e : exception).
Arguments Ok {A} a.
Arguments Throw {A} e.

(** ** The data model *)

Record Valve := mkValve {
  flowRate : N;
  label : string;
  connections : list string;
  distances : gmap string N
}.

(** [Valve() = default]: flow rate 0, nothing else. *)
Global Instance Valve_inhabited : Inhabited Valve :=
  populate (mkValve 0 "" [] ∅).

Abbreviation ValveNetwork := (gmap string Valve).

(** [m[k]] of [std::unordered_map]: the value at [k], a value-initialised
    entry being inserted first when the key is absent. *)
Definition subscript (m : gmap string N) (k : string) : N * gmap string N :=
  match m !! k with
  | Some v => (v, m)
  | None => (0, <[k := 0]> m)
  end.

(** [m.at(k)] of [std::unordered_map]. *)
Definition map_at {A} (m : gmap string A) (k : string) : Result A :=
  match m !! k with
  | Some v => Ok v
  | None => Throw (out_of_range "unordered_map::at")
  end.

(** [std::min_element(first, last, comp)], for a comparison that may throw:
    [smallest] starts as the first element, and every later element [it]
    replaces it when [comp(it, smallest)]. *)
Definition min_element {A} (comp : A → A → Result bool) (l : list A)
    : Result (option A) :=
  match l with
  | [] => Ok None
  | x :: xs =>
      match fold_left (λ acc it,
                         match acc with
                         | Throw e => Throw e
                         | Ok smallest =>
                             match comp it smallest with
                             | Throw e => Throw e
                             | Ok less => Ok (if less then it else smallest)
                             end
                         end) xs (Ok x) with
      | Throw e => Throw e
      | Ok smallest => Ok (Some smallest)
      end
  end.

(** ** Strings *)

(** A number as a stream or a library message writes it. *)
Definition decimal (n : N) : string := NilZero.string_of_uint (N.to_uint n).

(** [std::string::npos]. *)
Definition npos : N := SIZE_MODULUS - 1.

Definition string_size (s : string) : N := N.of_nat (String.length s).

Fixpoint string_drop (n : nat) (s : string) : string :=
  match n, s with
  | S n', String _ s' => string_drop n' s'
  | _, _ => s
  end.

(** [s.substr(pos, n)]; the text of the exception is libstdc++'s. *)
Definition substr (s : string) (pos n : N) : Result string :=
  if string_size s <? pos
  then Throw (out_of_range ("basic_string::substr: __pos (which is " +:+ decimal pos
                              +:+ ") > this->size() (which is "
                              +:+ decimal (string_size s) +:+ ")"))
  else Ok (String.substring (N.to_nat pos)
             (N.to_nat (N.min n (string_size s - pos))) s).

(** The offset of the first place of [s] at which [needle] starts. *)
Fixpoint find_in (needle s : string) : option nat :=
  if String.prefix needle s then Some 0%nat
  else match s with
       | EmptyString => None
       | String _ s' => S <$> find_in needle s'
       end.

(** [s.find(needle, pos)]; a character is sought as the string that holds
    it alone. *)
Definition find (s needle : string) (pos : N) : N :=
  if string_size s <? pos then npos
  else match find_in needle (string_drop (N.to_nat pos) s) with
       | Some i => pos + N.of_nat i
       | None => npos
       end.

(** A [std::string_view] into a [std::string]: [data] holds the characters
    from [data()] to the end of the string, where the terminating null
    stands, and the view is the first [view_size] of them. *)
Record string_view := mk_string_view { data : string; view_size : N }.

(** [s.operator std::string_view()]. *)
Definition view_of (s : string) : string_view := mk_string_view s (string_size s).

(** [v.substr(pos, n)]. *)
Definition view_substr (v : string_view) (pos n : N) : Result string_view :=
  if view_size v <? pos
  then Throw (out_of_range ("basic_string_view::substr: __pos (which is "
                              +:+ decimal pos +:+ ") > __size (which is "
                              +:+ decimal (view_size v) +:+ ")"))
  else Ok (mk_string_view (string_drop (N.to_nat pos) (data v))
             (N.min n (view_size v - pos))).

(** The characters of a view, as [std::format] writes them for [{}]. *)
Definition view_text (v : string_view) : string :=
  String.substring 0 (N.to_nat (view_size v)) (data v).

(** [isspace] in the C locale. *)
Definition isspace (c : ascii) : bool :=
  let n := N_of_ascii c in (n =? 32) || ((9 <=? n) && (n <=? 13)).

Definition digit_value (c : ascii) : option N :=
  let n := N_of_ascii c in
  if (48 <=? n) && (n <=? 57) then Some (n - 48) else None.

Fixpoint skip_spaces (s : string) : string :=
  match s with
  | String c s' => if isspace c then skip_spaces s' else s
  | EmptyString => s
  end.

(** The value of the decimal digits with which [s] begins, after [acc]. *)
Fixpoint digits (acc : N) (s : string) : N :=
  match s with
  | String c s' =>
      match digit_value c with
      | Some d => digits (10 * acc + d) s'
      | None => acc
      end
  | EmptyString => acc
  end.

(** The subject sequence of [strtol] and [strtoull] in base 10: white space,
    an optional sign, decimal digits.  The result is the sign and the value
    of the digits; there is none when no digit stands there. *)
Definition subject (s : string) : option (bool * N) :=
  let s := skip_spaces s in
  let '(negative, s) :=
    match s with
    | String "-" s' => (true, s')
    | String "+" s' => (false, s')
    | _ => (false, s)
    end in
  match s with
  | String c _ =>
      match digit_value c with
      | Some _ => Some (negative, digits 0 s)
      | None => None
      end
  | EmptyString => None
  end.

Definition ULLONG_MAX : N := SIZE_MODULUS - 1.

(** [strtoull(s, &end, 10)]: [None] when nothing is converted ([end] is left
    at [s]); a value out of range is [ULLONG_MAX]; a minus sign negates in
    the unsigned type. *)
Definition strtoull (s : string) : option N :=
  match subject s with
  | None => None
  | Some (negative, m) =>
      Some (if ULLONG_MAX <? m then ULLONG_MAX
            else if negative then wrap_sub 0 m else m)
  end.

(** [std::getline] called until it fails: the lines of the input, ended by
    a newline or by the end of the input. *)
Fixpoint getlines (input : string) : list string :=
  match input with
  | EmptyString => []
  | String c input' =>
      if Ascii.eqb c "010" then EmptyString :: getlines input'
      else match getlines input' with
           | [] => [String c EmptyString]
           | line :: lines => String c line :: lines
           end
  end.

(** ** Reading the valves (lines 47-54 and 79-106) *)

(** [parseNumber]: [strtoull] starts at [str.data()] and reads on to the
    first character that is no digit, whatever the length of the view. *)
Definition parseNumber (str : string_view) : Result N :=
  match strtoull (data str) with
  | None => Throw (runtime_error ("Failed to parse string as number: '"
                                    +:+ view_text str +:+ "'"))
  | Some n => Ok n
  end.

(** The loop of lines 95-103.  [None] stands for a loop that does not end
    within the bound. *)
Fixpoint destinations_loop (fuel : nat) (line : string) (start next : N)
    (destinations : list string) : option (Result (list string)) :=
  if start =? npos then Some (Ok destinations)
  else match fuel with
       | O => None
       | S fuel' =>
           match substr line start (wrap_sub next start) with
           | Throw e => Some (Throw e)
           | Ok destination =>
               let destinations := destinations ++ [destination] in
               if next =? npos then Some (Ok destinations)
               else let start := wrap (next + 2) in
                    destinations_loop fuel' line start (find line ", " start)
                      destinations
           end
       end.

(** The body of the loop of line 81: one line of the text is made a valve
    and stored under its label. *)
Definition read_line (line : string) (valves : ValveNetwork)
    : option (Result ValveNetwork) :=
  match substr line 6 2 with
  | Throw e => Some (Throw e)
  | Ok name =>
      let semi := find line ";" 0 in
      match view_substr (view_of line) 23 (wrap_sub semi 23) with
      | Throw e => Some (Throw e)
      | Ok str =>
          match parseNumber str with
          | Throw e => Some (Throw e)
          | Ok flowRate =>
              let start := find line "to valves " semi in
              let start := if start =? npos
                           then wrap (find line "to valve " semi + 9)
                           else wrap (start + 10) in
              let next := find line ", " start in
              match destinations_loop (S (String.length line)) line start next [] with
              | None => None
              | Some (Throw e) => Some (Throw e)
              | Some (Ok destinations) =>
                  let valve := mkValve flowRate name destinations ∅ in
                  Some (Ok (<[label valve := valve]> valves))
              end
          end
      end
  end.

Fixpoint read_lines (lines : list string) (valves : ValveNetwork)
    : option (Result ValveNetwork) :=
  match lines with
  | [] => Some (Ok valves)
  | line :: lines' =>
      match read_line line valves with
      | None => None
      | Some (Throw e) => Some (Throw e)
      | Some (Ok valves) => read_lines lines' valves
      end
  end.

(** Lines 79-106: the valves read from a stream that holds [input].  A
    stream that could not be opened gives no line, as one that holds
    nothing. *)
Definition read_valves (input : string) : option (Result ValveNetwork) :=
  read_lines (getlines input) ∅.


(** ** The text of a valve, as the puzzle writes it *)

(** Whether the character [c] stands in [s]. *)
Fixpoint mentions (c : ascii) (s : string) : bool :=
  match s with
  | EmptyString => false
  | String c' s' => Ascii.eqb c c' || mentions c s'
  end.

Fixpoint join (sep : string) (l : list string) : string :=
  match l with
  | [] => EmptyString
  | [s] => s
  | s :: l' => s +:+ sep +:+ join sep l'
  end.

(** The line of the puzzle input for a valve: one tunnel is written in the
    singular, several in the plural. *)
Definition valve_line (label : string) (rate : N) (dests : list string) : string :=
  "Valve " +:+ label +:+ " has flow rate=" +:+ decimal rate +:+
  match dests with
  | [_] => "; tunnel leads to valve "
  | _ => "; tunnels lead to valves "
  end +:+ join ", " dests.

(** The characters at columns 6 and 7 of a line. *)
Definition name_of (line : string) : string := String.substring 6 2 line.

Definition no_digit_first (s : string) : Prop :=
  match s with
  | String c _ => digit_value c = None
  | EmptyString => True
  end.

(** The value of a numeral of the library after [acc], digit by digit. *)
Fixpoint horner (d : Decimal.uint) (acc : N) : N :=
  match d with
  | Decimal.Nil => acc
  | Decimal.D0 l => horner l (10 * acc)
  | Decimal.D1 l => horner l (10 * acc + 1)
  | Decimal.D2 l => horner l (10 * acc + 2)
  | Decimal.D3 l => horner l (10 * acc + 3)
  | Decimal.D4 l => horner l (10 * acc + 4)
  | Decimal.D5 l => horner l (10 * acc + 5)
  | Decimal.D6 l => horner l (10 * acc + 6)
  | Decimal.D7 l => horner l (10 * acc + 7)
  | Decimal.D8 l => horner l (10 * acc + 8)
  | Decimal.D9 l => horner l (10 * acc + 9)
  end.

(** ** What a program writes and how it ends *)

(** What is written to a stream: text, and numbers in decimal. *)
Inductive token :=
| text (s : string)
| number (n : N).

Definition endl : token := text "
".

(** The two streams of a program, and its exit status. *)
Record Outcome := mkOutcome {
  stdout : list token;
  stderr : list token;
  exit_status : N
}.

(** ** Numerals, character by character *)

Fixpoint all_digits (s : string) : bool :=
  match s with
  | EmptyString => true
  | String c s' =>
      match digit_value c with Some _ => all_digits s' | None => false end
  end.

(** The numeral of the library that the digits of [s] make. *)
Fixpoint uint_of (s : string) : Decimal.uint :=
  match s with
  | EmptyString => Decimal.Nil
  | String c s' =>
      match digit_value c with
      | Some 0 => Decimal.D0 (uint_of s')
      | Some 1 => Decimal.D1 (uint_of s')
      | Some 2 => Decimal.D2 (uint_of s')
      | Some 3 => Decimal.D3 (uint_of s')
      | Some 4 => Decimal.D4 (uint_of s')
      | Some 5 => Decimal.D5 (uint_of s')
      | Some 6 => Decimal.D6 (uint_of s')
      | Some 7 => Decimal.D7 (uint_of s')
      | Some 8 => Decimal.D8 (uint_of s')
      | Some 9 => Decimal.D9 (uint_of s')
      | _ => Decimal.Nil
      end
  end.

(** * Day 15: the sensor rows (day15.cpp) *)

Module Day15.

Local Open Scope Z_scope.

(** ** Outcomes *)

(** What running a piece of the program comes to: a value, an exception, or
    undefined behaviour of the language ([int] overflow, [std::abs] of
    [INT_MIN], [std::clamp] with bounds out of order, a vector read past
    its end).  [Unfinished] stands for a loop of the embedding that has used
    up its bound; the [settled] lemmas show that none does. *)
Inductive Run (A : Type) : Type :=
| Value (a : A)
| Throws (e : exception)
| Undefined
| Unfinished.
Arguments Value {A} a.
Arguments Throws {A} e.
Arguments Undefined {A}.
Arguments Unfinished {A}.

#[global] Instance Run_ret : MRet Run := @Value.
#[global] Instance Run_bind : MBind Run := λ A B f m,
  match m with
  | Value a => f a
  | Throws e => Throws e
  | Undefined => Undefined
  | Unfinished => Unfinished
  end.

Definition lift {A} (r : Result A) : Run A :=
  match r with
  | Ok a => Value a
  | Throw e => Throws e
  end.

(** ** The type [int] *)

Definition INT_MAX : Z := 2147483647.
Definition INT_MIN : Z := -2147483648.
Definition LONG_MAX : Z := 9223372036854775807.
Definition LONG_MIN : Z := -9223372036854775808.

(** The result of an operation on [int]s whose exact value is [z]. *)
Definition int (z : Z) : Run Z :=
  if (INT_MIN <=? z) && (z <=? INT_MAX) then Value z else Undefined.

(** [std::abs(int)]. *)
Definition abs (a : Z) : Run Z := int (Z.abs a).

(** An [int] as a stream and [std::format] with [{}] write it. *)
Definition to_string (z : Z) : string :=
  if z <? 0 then "-" +:+ decimal (Z.abs_N z) else decimal (Z.abs_N z).

Fixpoint zeros (n : nat) : string :=
  match n with
  | O => EmptyString
  | S n' => String "0" (zeros n')
  end.

(** [std::format] with [{:06}]: the sign, then zeros up to a width of 6,
    then the digits. *)
Definition format_06 (z : Z) : string :=
  let d := decimal (Z.abs_N z) in
  if z <? 0 then "-" +:+ zeros (5 - String.length d) +:+ d
  else zeros (6 - String.length d) +:+ d.

(** ** Lines 26-39 *)

Definition Point : Type := Z * Z.

Definition metric (a b : Point) : Run Z :=
  dx ← int (a.1 - b.1); adx ← abs dx;
  dy ← int (a.2 - b.2); ady ← abs dy;
  int (adx + ady).

(** [strtol(s, &end, 10)] with a 64-bit [long]: [None] when nothing is
    converted; a value out of range is [LONG_MAX] or [LONG_MIN]. *)
Definition strtol (s : string) : option Z :=
  match subject s with
  | None => None
  | Some (negative, m) =>
      let v := if negative : bool then - Z.of_N m else Z.of_N m in
      Some (Z.max LONG_MIN (Z.min LONG_MAX v))
  end.

(** The conversion of a [long] to [int] on [return n]: the value modulo
    [2^32] (C++20). *)
Definition to_int (n : Z) : Z := (n + 2147483648) mod 4294967296 - 2147483648.

(** [parseNumber]: every caller passes a view of a whole null-terminated
    string (a [std::string] temporary or an [argv] entry), so [strtol] reads
    the characters of the view. *)
Definition parseNumber (str : string) : Run Z :=
  match strtol str with
  | None => Throws (runtime_error ("Failed to parse string as number: '"
                                     +:+ str +:+ "'"))
  | Some n => Value (to_int n)
  end.

(** ** Lines 41-74 *)

Record Sensor := mkSensor { location : Point; beacon : Point; strength : Z }.

(** The body of the loop of line 52. *)
Definition parse_line (line : string) : Run Sensor :=
  let start := 12%N in
  let end_ := find line "," start in
  s ← lift (substr line start (wrap_sub end_ start)); sensorX ← parseNumber s;
  let start := wrap (end_ + 4) in
  let end_ := find line ":" start in
  s ← lift (substr line start (wrap_sub end_ start)); sensorY ← parseNumber s;
  let start := wrap (end_ + 25) in
  let end_ := find line "," start in
  s ← lift (substr line start (wrap_sub end_ start)); beaconX ← parseNumber s;
  let start := wrap (end_ + 4) in
  s ← lift (substr line start npos); beaconY ← parseNumber s;
  let sensor : Point := (sensorX, sensorY) in
  let beacon : Point := (beaconX, beaconY) in
  strength ← metric sensor beacon;
  Value (mkSensor sensor beacon strength).

Fixpoint parse_lines (lines : list string) (sensors : list Sensor)
    : Run (list Sensor) :=
  match lines with
  | [] => Value sensors
  | line :: lines' =>
      sensor ← parse_line line; parse_lines lines' (sensors ++ [sensor])
  end.

(** [parse], for a stream that holds [input]. *)
Definition parse (input : string) : Run (list Sensor) :=
  parse_lines (getlines input) [].

(** ** Lines 84-108 *)

Module SensorRange.

Record t := mk { start : Z; end_ : Z }.

Definition fromSensor (sensor : Sensor) (y : Z) : Run (option t) :=
  d ← int ((location sensor).2 - y); dy ← abs d;
  if strength sensor <? dy then Value None
  else reducedStrength ← int (strength sensor - dy);
       s ← int ((location sensor).1 - reducedStrength);
       e ← int ((location sensor).1 + reducedStrength);
       Value (Some (mk s e)).

(** [end + 1] is computed only when the first test fails. *)
Definition overlaps (a other : t) : Run bool :=
  if (start a <=? end_ other) && (start other <=? end_ a) then Value true
  else e ← int (end_ a + 1); Value (e =? start other).

Definition merge (a other : t) : t :=
  mk (Z.min (start a) (start other)) (Z.max (end_ a) (end_ other)).

End SensorRange.

(** ** Lines 110-141 *)

(** [std::clamp(v, lo, hi)]; bounds out of order are undefined behaviour. *)
Definition clamp (v lo hi : Z) : Run Z :=
  if hi <? lo then Undefined
  else Value (if v <? lo then lo else if hi <? v then hi else v).

(** The comparison given to [std::sort] at line 116. *)
Definition less (a b : SensorRange.t) : bool :=
  if SensorRange.start a =? SensorRange.start b
  then SensorRange.end_ a <? SensorRange.end_ b
  else SensorRange.start a <? SensorRange.start b.

Fixpoint sort_insert {A} (comp : A → A → bool) (x : A) (l : list A) : list A :=
  match l with
  | [] => [x]
  | y :: l' => if comp x y then x :: l else y :: sort_insert comp x l'
  end.

(** [std::sort(first, last, comp)]: the elements, put in an order in which
    no element comes before one that [comp] puts before it.  For [less],
    under which two ranges that are not ordered are equal, there is one such
    order only ([sort_unique]). *)
Definition sort {A} (comp : A → A → bool) (l : list A) : list A :=
  foldr (sort_insert comp) [] l.

(** [v[i]] of [std::vector]; an index past the end is undefined behaviour. *)
Definition subscript {A} (v : list A) (i : N) : Run A :=
  match v !! N.to_nat i with
  | Some a => Value a
  | None => Undefined
  end.

(** The loops of lines 123-128.  The [for] and the [while] test the same
    condition [i < ranges.size() - 1], in [size_t]: after a merge the
    [while] tests it again with [i] unchanged, and when the ranges do not
    overlap [i] is incremented and the [for] tests it. *)
Fixpoint merge_loop (fuel : nat) (ranges : list SensorRange.t) (i : N)
    : Run (list SensorRange.t) :=
  match fuel with
  | O => Unfinished
  | S fuel' =>
      if (i <? wrap_sub (N.of_nat (length ranges)) 1)%N
      then a ← subscript ranges i;
           b ← subscript ranges (wrap (i + 1));
           o ← SensorRange.overlaps a b;
           if o : bool
           then merge_loop fuel'
                  (delete (S (N.to_nat i))
                     (<[N.to_nat i := SensorRange.merge a b]> ranges)) i
           else merge_loop fuel' ranges (wrap (i + 1))
      else Value ranges
  end.

Definition reduce (ranges : list SensorRange.t) (minX maxX : Z)
    : Run (list SensorRange.t) :=
  ranges ← mapM (λ range,
                   s ← clamp (SensorRange.start range) minX maxX;
                   e ← clamp (SensorRange.end_ range) minX maxX;
                   Value (SensorRange.mk s e)) ranges;
  let ranges := sort less ranges in
  merge_loop (S (2 * length ranges)) ranges 0.

(** The loop of lines 133-138. *)
Fixpoint push_ranges (sensors : list Sensor) (y : Z) (ranges : list SensorRange.t)
    : Run (list SensorRange.t) :=
  match sensors with
  | [] => Value ranges
  | sensor :: sensors' =>
      range ← SensorRange.fromSensor sensor y;
      push_ranges sensors' y (match range with
                              | Some r => ranges ++ [r]
                              | None => ranges
                              end)
  end.

Definition getRanges (sensors : list Sensor) (minX maxX y : Z)
    : Run (list SensorRange.t) :=
  ranges ← push_ranges sensors y [];
  reduce ranges minX maxX.

(** ** Lines 143-167 *)

(** The loop of lines 147-151: [xMin], [xMax] and [strengthMax]. *)
Definition extent (sensors : list Sensor) : Z * Z * Z :=
  fold_left (λ '(xMin, xMax, strengthMax) sensor,
               (Z.min xMin (Z.min (location sensor).1 (beacon sensor).1),
                Z.max xMax (Z.max (location sensor).1 (beacon sensor).1),
                Z.max strengthMax (strength sensor)))
    sensors (INT_MAX, INT_MIN, 0).

(** [std::transform_reduce] of lines 153-155, from the left. *)
Fixpoint sum_widths (ranges : list SensorRange.t) (init : Z) : Run Z :=
  match ranges with
  | [] => Value init
  | range :: ranges' =>
      w ← int (SensorRange.end_ range - SensorRange.start range);
      acc ← int (init + w);
      sum_widths ranges' acc
  end.

Definition part1 (sensors : list Sensor) (row : Z) : Run Z :=
  let '(xMin, xMax, strengthMax) := extent sensors in
  minX ← int (xMin - strengthMax);
  maxX ← int (xMax + strengthMax);
  ranges ← getRanges sensors minX maxX row;
  sum_widths ranges 0.

(** [part2], from row [y] on: what it writes to [std::cout]. *)
Fixpoint part2_loop (fuel : nat) (sensors : list Sensor) (row y : Z)
    : Run (list token) :=
  limit ← int (2 * row);
  if y <=? limit
  then match fuel with
       | O => Unfinished
       | S fuel' =>
           ranges ← getRanges sensors 0 limit y;
           if (length ranges =? 2)%nat
           then r ← subscript ranges 0;
                x ← int (SensorRange.end_ r + 1);
                x4 ← int (4 * x);
                Value [text (to_string x4 +:+ format_06 y); endl]
           else y' ← int (y + 1); part2_loop fuel' sensors row y'
       end
  else Value [].

Definition part2 (sensors : list Sensor) (row : Z) : Run (list token) :=
  part2_loop (S (Z.to_nat (2 * row))) sensors row 0.

(** ** Lines 169-186 *)

(** The loop of [main] over [argv[1]], [argv[2]], ...: the arguments are
    taken two at a time, the text of a file and a row.  The result is what
    has been written to [std::cout] and how the loop ended. *)
Fixpoint main_loop (argv : list string) (cout : list token) : list token * Run () :=
  match argv with
  | file :: arg :: argv' =>
      match parseNumber arg with
      | Value row =>
          match parse file with
          | Value sensors =>
              let cout := cout ++ [text "Part 1: "] in
              match part1 sensors row with
              | Value answer =>
                  let cout := cout ++ [text (to_string answer); endl; text "Part 2: "] in
                  match part2 sensors row with
                  | Value out => main_loop argv' (cout ++ out ++ [endl])
                  | Throws e => (cout, Throws e)
                  | Undefined => (cout, Undefined)
                  | Unfinished => (cout, Unfinished)
                  end
              | Throws e => (cout, Throws e)
              | Undefined => (cout, Undefined)
              | Unfinished => (cout, Unfinished)
              end
          | Throws e => (cout, Throws e)
          | Undefined => (cout, Undefined)
          | Unfinished => (cout, Unfinished)
          end
      | Throws e => (cout, Throws e)
      | Undefined => (cout, Undefined)
      | Unfinished => (cout, Unfinished)
      end
  | _ => (cout, Value ())
  end.

(** [main]: the function-try-block around the loop. *)
Definition main (argv : list string) : Run Outcome :=
  match main_loop argv [] with
  | (cout, Value _) => Value (mkOutcome cout [] 0)
  | (cout, Throws ex) =>
      Value (mkOutcome cout [text "ERROR: "; text (what ex); endl] 1)
  | (_, Undefined) => Undefined
  | (_, Unfinished) => Unfinished
  end.

(** ** The rows, against which the ranges are judged *)

Definition is_int (z : Z) : Prop := INT_MIN ≤ z ≤ INT_MAX.

(** Neither an exception nor a loop out of steps. *)
Definition settled {A} (m : Run A) : Prop := (∃ a, m = Value a) ∨ m = Undefined.

Definition covers (r : SensorRange.t) (x : Z) : Prop :=
  SensorRange.start r ≤ x ≤ SensorRange.end_ r.

(** Ranges in ascending order, none empty, with a position or more
    between one and the next. *)
Fixpoint separated (l : list SensorRange.t) : Prop :=
  match l with
  | [] => True
  | a :: l' =>
      SensorRange.start a ≤ SensorRange.end_ a ∧
      match l' with
      | [] => True
      | b :: _ => SensorRange.end_ a + 1 < SensorRange.start b
      end ∧
      separated l'
  end.

Definition clamped (v lo hi : Z) : Z := Z.max lo (Z.min hi v).

Definition clamp_range (minX maxX : Z) (r : SensorRange.t) : SensorRange.t :=
  SensorRange.mk (clamped (SensorRange.start r) minX maxX)
    (clamped (SensorRange.end_ r) minX maxX).

(** [overlaps], when nothing overflows. *)
Definition touches (a b : SensorRange.t) : bool :=
  ((SensorRange.start a <=? SensorRange.end_ b)
   && (SensorRange.start b <=? SensorRange.end_ a))
  || (SensorRange.end_ a + 1 =? SensorRange.start b).

(** What the loops of lines 123-128 make of [cur :: rest]. *)
Fixpoint coalesce (cur : SensorRange.t) (rest : list SensorRange.t)
    : list SensorRange.t :=
  match rest with
  | [] => [cur]
  | nxt :: rest' =>
      if touches cur nxt then coalesce (SensorRange.merge cur nxt) rest'
      else cur :: coalesce nxt rest'
  end.

Definition ints (r : SensorRange.t) : Prop :=
  is_int (SensorRange.start r) ∧ is_int (SensorRange.end_ r) ∧
  SensorRange.start r ≤ SensorRange.end_ r.

Definition starts_sorted (l : list SensorRange.t) : Prop :=
  StronglySorted (λ a b, SensorRange.start a ≤ SensorRange.start b) l.

Definition not_after (a b : SensorRange.t) : Prop := less b a = false.

(** The position [x] of row [y] is within the distance [strength] of the
    sensor. *)
Definition in_reach (sensor : Sensor) (y x : Z) : Prop :=
  Z.abs (x - (location sensor).1) + Z.abs (y - (location sensor).2) ≤ strength sensor.

(** The sensor reaches some position of row [y]. *)
Definition reaches (sensor : Sensor) (y : Z) : Prop :=
  Z.abs (y - (location sensor).2) ≤ strength sensor.

#[global] Instance reaches_dec sensor y : Decision (reaches sensor y) :=
  decide (Z.abs (y - (location sensor).2) ≤ strength sensor).

(** The positions of row [y] within reach of the sensor. *)
Definition row_range (sensor : Sensor) (y : Z) : SensorRange.t :=
  let reduced := strength sensor - Z.abs ((location sensor).2 - y) in
  SensorRange.mk ((location sensor).1 - reduced) ((location sensor).1 + reduced).

Definition row_ranges (sensors : list Sensor) (y : Z) : list SensorRange.t :=
  omap (λ s, if decide (reaches s y) then Some (row_range s y) else None) sensors.

(** [x] is an end of the window and the range of the sensor lies wholly
    beyond that end: [std::clamp] moves the range onto [x]. *)
Definition stray (sensor : Sensor) (minX maxX y x : Z) : Prop :=
  (x = minX ∧ SensorRange.end_ (row_range sensor y) < minX) ∨
  (x = maxX ∧ maxX < SensorRange.start (row_range sensor y)).



(** Row [y] is merged without undefined behaviour, into a number of ranges
    other than two. *)
Definition not_two (sensors : list Sensor) (row y : Z) : Prop :=
  ∃ runs, getRanges sensors 0 (2 * row) y = Value runs ∧ length runs ≠ 2%nat.

(** The line of the puzzle input for a sensor. *)
Definition sensor_line (sx sy bx by_ : Z) : string :=
  "Sensor at x=" +:+ to_string sx +:+ ", y=" +:+ to_string sy +:+
  ": closest beacon is at x=" +:+ to_string bx +:+ ", y=" +:+ to_string by_.

(** Two sensors, and their text. *)
Definition pair_of_sensors : list Sensor :=
  [mkSensor (0, 2) (2, 2) 2; mkSensor (5, 2) (7, 2) 2].

Definition pair_text : string :=
"Sensor at x=0, y=2: closest beacon is at x=2, y=2
Sensor at x=5, y=2: closest beacon is at x=7, y=2
".

End Day15.

(** * Day 16: the valve network (day16.cpp) *)

Section Day16.

(** The order of [const Valve*] values. *)
Variable ptr_lt : string → string → bool.

(** The order in which an [std::unordered_map] is iterated. *)
Variable hash_order : ∀ A : Type, list (string * A) → list (string * A).
Hypothesis hash_order_perm : ∀ A (l : list (string * A)), hash_order A l ≡ₚ l.

Definition iterate {A} (m : gmap string A) : list (string * A) :=
  hash_order A (map_to_list m).

(** ** All-pairs shortest distances *)

(** [DistanceSorter::operator()]. *)
Definition DistanceSorter (distances : gmap string N) (a b : string) : Result bool :=
  match map_at distances a with
  | Throw e => Throw e
  | Ok da =>
      match map_at distances b with
      | Throw e => Throw e
      | Ok db => Ok (if da =? db then ptr_lt a b else da <? db)
      end
  end.

(** Lines 133-139: every valve gets the sentinel and joins [Q]. *)
Fixpoint init_distances (entries : list (string * Valve))
    (distances : gmap string N) (Q : gset string)
    : gmap string N * gset string * option exception :=
  match entries with
  | [] => (distances, Q, None)
  | (l, v) :: entries' =>
      let distances := <[l := UINT32_MAX]> distances in
      if decide (l ∈ Q)
      then (distances, Q,
            Some (runtime_error ("Failed to insert " +:+ l +:+ " into distance map")))
      else init_distances entries' distances ({[l]} ∪ Q)
  end.

(** Lines 152-162: the neighbours of the dequeued valve. *)
Fixpoint relax (network : ValveNetwork) (Q : gset string) (distance : N)
    (neighbours : list string) (distances : gmap string N)
    : gmap string N * option exception :=
  match neighbours with
  | [] => (distances, None)
  | neighbour :: rest =>
      match map_at network neighbour with
      | Throw e => (distances, Some e)
      | Ok _ =>
          let u := neighbour in
          if decide (u ∈ Q) then
            let alt := wrap (distance + 1) in
            let '(neighbourDistance, distances) := subscript distances u in
            if alt <? neighbourDistance
            then relax network Q distance rest (<[u := alt]> distances)
            else relax network Q distance rest distances
          else relax network Q distance rest distances
      end
  end.

(** Lines 142-163.  Each iteration erases one element of [Q], so the loop
    makes [size Q] iterations unless it throws; [fuel] counts them.
    [std::set] is traversed in the order of the pointers; for a strict total
    [ptr_lt] the sorter has one least element of [Q], which [min_element]
    returns whatever the traversal, and [elements Q] is one. *)
Fixpoint relax_loop (fuel : nat) (network : ValveNetwork)
    (distances : gmap string N) (Q : gset string)
    : gmap string N * option exception :=
  match fuel with
  | O => (distances, None)
  | S fuel' =>
      match min_element (DistanceSorter distances) (elements Q) with
      | Throw e => (distances, Some e)
      | Ok None => (distances, None)
      | Ok (Some valve) =>
          let Q := Q ∖ {[valve]} in
          let '(distance, distances) := subscript distances valve in
          if distance =? UINT32_MAX
          then (distances,
                Some (runtime_error ("Processing node " +:+ label (network !!! valve)
                                       +:+ " which has infinite distance")))
          else
            match relax network Q distance (connections (network !!! valve)) distances with
            | (distances, Some e) => (distances, Some e)
            | (distances, None) => relax_loop fuel' network distances Q
            end
      end
  end.

(** [Valve::calculateDistanceToOtherValves], called on the valve stored
    under [this] whose [distances] member holds [distances].  The result is
    the member as the call leaves it, and the exception if one escapes. *)
Definition calculateDistanceToOtherValves (network : ValveNetwork)
    (this : string) (distances : gmap string N)
    : gmap string N * option exception :=
  match init_distances (iterate network) distances ∅ with
  | (distances, Q, Some e) => (distances, Some e)
  | (distances, Q, None) =>
      let distances := <[this := 0]> distances in
      relax_loop (size Q) network distances Q
  end.

(** The valve with its [distances] member replaced. *)
Definition set_distances (valve : Valve) (d : gmap string N) : Valve :=
  mkValve (flowRate valve) (label valve) (connections valve) d.

(** [parse], lines 108-111: every valve of the network computes its table,
    in the order in which the network is iterated; the first exception ends
    the loop.  The argument is the network as the reading loop of lines
    79-106 has built it from the text. *)
Fixpoint parse_loop (entries : list (string * Valve)) (valves : ValveNetwork)
    : Result ValveNetwork :=
  match entries with
  | [] => Ok valves
  | (l, _) :: entries' =>
      let valve := valves !!! l in
      match calculateDistanceToOtherValves valves l (distances valve) with
      | (_, Some e) => Throw e
      | (d, None) => parse_loop entries' (<[l := set_distances valve d]> valves)
      end
  end.

Definition parse (valves : ValveNetwork) : Result ValveNetwork :=
  parse_loop (iterate valves) valves.

(** ** The reward search *)

Record State := mkState {
  current : string;
  openedValves : gmap string N;
  elapsedTime : N
}.

Definition currentPressurePerMinute (network : ValveNetwork) (state : State) : N :=
  fold_left (λ acc kv, wrap (acc + flowRate (network !!! kv.1)))
    (iterate (openedValves state)) 0.

(** The lambda of [State::totalPressureRelieved]. *)
Definition pressure_term (network : ValveNetwork) (timeLimit : N) (kv : string * N) : N :=
  if timeLimit <=? kv.2 then 0
  else wrap (flowRate (network !!! kv.1) * wrap_sub timeLimit kv.2).

Definition totalPressureRelieved (network : ValveNetwork) (state : State)
    (timeLimit : N) : N :=
  fold_left (λ acc kv, wrap (acc + pressure_term network timeLimit kv))
    (iterate (openedValves state)) 0.

(** Lines 210-221: the states pushed for one dequeued state. *)
Definition next_states (network : ValveNetwork) (timeLimit : N) (state : State)
    : list State :=
  omap (λ '(target, distance),
          if bool_decide (openedValves state !! target = None)
             && (0 <? flowRate (network !!! target))
             && (elapsedTime state <? timeLimit)
          then
            let newOpenedValves :=
              <[target := wrap (elapsedTime state + distance + 1)]> (openedValves state) in
            Some (mkState target newOpenedValves (wrap (elapsedTime state + distance + 1)))
          else None)
       (iterate (distances (network !!! current state))).

(** The variables of the loop of [part1]. *)
Record Search := mkSearch {
  states : list State;
  max : N;
  maxState : State
}.

(** One iteration of lines 203-230; [None] when [states] is empty. *)
Definition part1_step (network : ValveNetwork) (timeLimit : N) (s : Search)
    : option Search :=
  match states s with
  | [] => None
  | state :: rest =>
      let pushed := next_states network timeLimit state in
      let addedAnyStates := negb (bool_decide (pushed = [])) in
      if addedAnyStates then Some (mkSearch (rest ++ pushed) (max s) (maxState s))
      else
        let finalPressure := totalPressureRelieved network state timeLimit in
        if max s <? finalPressure
        then Some (mkSearch (rest ++ pushed) finalPressure state)
        else Some (mkSearch (rest ++ pushed) (max s) (maxState s))
  end.

(** The loop variables after [n] iterations (or at the end of the loop, if
    it ends sooner). *)
Fixpoint part1_trace (n : nat) (network : ValveNetwork) (timeLimit : N) (s : Search)
    : Search :=
  match n with
  | O => s
  | S n' =>
      match part1_step network timeLimit s with
      | None => s
      | Some s' => part1_trace n' network timeLimit s'
      end
  end.

(** The loop run to its end; [None] when [fuel] iterations do not reach it. *)
Fixpoint part1_loop (fuel : nat) (network : ValveNetwork) (timeLimit : N) (s : Search)
    : option Search :=
  match fuel with
  | O => None
  | S fuel' =>
      match part1_step network timeLimit s with
      | None => Some s
      | Some s' => part1_loop fuel' network timeLimit s'
      end
  end.

(** The number of states of a search in which [n] valves can still be
    opened: an upper bound on the iterations of the loop. *)
Fixpoint search_size (n : nat) : nat :=
  match n with
  | O => 1
  | S n' => 1 + n * search_size n'
  end.

(** Lines 232-237. *)
Definition part1_report (network : ValveNetwork) (s : Search) : list token :=
  [text "Final state is at time "; number (elapsedTime (maxState s)); text " with valves"; endl]
  ++ flat_map (λ kv, [text " * "; text (label (network !!! kv.1));
                      text " opened at minute "; number kv.2; endl])
       (iterate (openedValves (maxState s)))
  ++ [text "releasing "; number (currentPressurePerMinute network (maxState s));
      text " pressure per minute for a total of "; number (max s); endl].

Definition initial_search (start : string) : Search :=
  let maxState := mkState start ∅ 0 in
  mkSearch [maxState] 0 maxState.

(** [part1]: what it writes to [std::cout] and what it returns.  [None]
    stands for a loop that does not end within the bound; [part1_spec] shows
    that it does. *)
Definition part1 (network : ValveNetwork) (timeLimit : N)
    : option (Result (list token * N)) :=
  match map_at network "AA" with
  | Throw e => Some (Throw e)
  | Ok _ =>
      let start := "AA" in
      match part1_loop (S (search_size (size network))) network timeLimit
              (initial_search start) with
      | None => None
      | Some s => Some (Ok (part1_report network s, max s))
      end
  end.

(** ** The program *)

(** The loop of [main] over [argv].  Each element stands for one file: what
    the reading loop of [parse] makes of it, a network or an exception. *)
Fixpoint main_loop (argv : list (Result ValveNetwork)) (cout : list token)
    : option (list token * option exception) :=
  match argv with
  | [] => Some (cout, None)
  | input :: argv' =>
      match input with
      | Throw e => Some (cout, Some e)
      | Ok valves =>
          match parse valves with
          | Throw e => Some (cout, Some e)
          | Ok network =>
              let cout := cout ++ [text "Part 1: "] in
              match part1 network 30 with
              | None => None
              | Some (Throw e) => Some (cout, Some e)
              | Some (Ok (report, answer)) =>
                  main_loop argv' (cout ++ report ++ [number answer; endl])
              end
          end
      end
  end.

(** [main]: the function-try-block around the loop. *)
Definition main (argv : list (Result ValveNetwork)) : option Outcome :=
  match main_loop argv [] with
  | None => None
  | Some (cout, None) => Some (mkOutcome cout [] 0)
  | Some (cout, Some ex) =>
      Some (mkOutcome cout [text "ERROR: "; text (what ex); endl] 1)
  end.

(** The program run on files that hold the texts [argv]. *)
Definition program (argv : list string) : option Outcome :=
  mapM read_valves argv ≫= main.

(** ** Walks of the network, against which the tables are judged *)

Definition edge (network : ValveNetwork) (u v : string) : Prop :=
  ∃ valve, network !! u = Some valve ∧ v ∈ connections valve.

(** [hops network a b n]: [n] tunnels lead from [a] to [b]. *)
Inductive hops (network : ValveNetwork) (a : string) : string → N → Prop :=
| hops_here : hops network a a 0
| hops_step b c n : hops network a b n → edge network b c → hops network a c (n + 1).

Definition reachable (network : ValveNetwork) (a b : string) : Prop :=
  ∃ n, hops network a b n.

Definition min_hops (network : ValveNetwork) (a b : string) (n : N) : Prop :=
  hops network a b n ∧ ∀ m, hops network a b m → n ≤ m.

(** Every tunnel leads to a valve of the network. *)
Definition closed_network (network : ValveNetwork) : Prop :=
  ∀ u v, edge network u v → v ∈ dom network.

(** Every tunnel can be walked both ways. *)
Definition undirected (network : ValveNetwork) : Prop :=
  ∀ u v, edge network u v → edge network v u.

(** ** The search, as the claims speak of it *)

(** Sums of unbounded naturals. *)
Definition sumN (l : list N) : N := foldr N.add 0 l.

(** What a valve opened at minute [kv.2] is worth at the end of a budget of
    [timeLimit] minutes, computed without the limits of [size_t]. *)
Definition reward (network : ValveNetwork) (timeLimit : N) (kv : string * N) : N :=
  if timeLimit <=? kv.2 then 0
  else flowRate (network !!! kv.1) * (timeLimit - kv.2).

Definition total_reward (network : ValveNetwork) (timeLimit : N)
    (opened : gmap string N) : N :=
  sumN (reward network timeLimit <$> map_to_list opened).

(** The sum of all flow rates of the network. *)
Definition total_rate (network : ValveNetwork) : N :=
  sumN ((λ kv : string * Valve, flowRate kv.2) <$> map_to_list network).

(** The state the search starts from. *)
Definition initial_state : State := mkState "AA" ∅ 0.

(** [descends network timeLimit s t]: the search that has [s] in its queue
    pushes [t] sooner or later. *)
Inductive descends (network : ValveNetwork) (timeLimit : N) : State → State → Prop :=
| descends_here s : descends network timeLimit s s
| descends_push s s' t :
    s' ∈ next_states network timeLimit s →
    descends network timeLimit s' t →
    descends network timeLimit s t.

(** A state for which nothing is pushed is scored. *)
Definition terminal (network : ValveNetwork) (timeLimit : N) (s : State) : Prop :=
  next_states network timeLimit s = [].

(** The number of valves of the network that a state has not opened. *)
Definition remaining (network : ValveNetwork) (s : State) : nat :=
  size (dom network ∖ dom (openedValves s)).

(** The iterations that a queue can still cause. *)
Definition weight (network : ValveNetwork) (queue : list State) : nat :=
  sum_list_with (search_size ∘ remaining network) queue.

(** ** The invariant of the relaxation loop *)

Record dijkstra_inv (network : ValveNetwork) (this : string)
    (d : gmap string N) (Q : gset string) : Prop := {
  inv_Q : Q ⊆ dom network;
  inv_this_dom : this ∈ dom network;
  inv_present : ∀ v, v ∈ dom network → is_Some (d !! v);
  inv_this : d !! this = Some 0;
  inv_bound : ∀ v n, v ∈ dom network → d !! v = Some n → n ≤ UINT32_MAX;
  inv_walk : ∀ v n, v ∈ dom network → d !! v = Some n → n < UINT32_MAX →
    hops network this v n;
  inv_settled : ∀ v n, v ∈ dom network → v ∉ Q → d !! v = Some n →
    n < UINT32_MAX ∧ ∀ m, hops network this v m → n ≤ m;
  inv_relaxed : ∀ u v du, u ∈ dom network → u ∉ Q → edge network u v →
    d !! u = Some du → v ∈ dom network ∧ ∃ dv, d !! v = Some dv ∧ dv ≤ du + 1
}.

(** What the loop leaves behind: the invariant with an empty [Q], or an
    exception together with its cause. *)
Definition dijkstra_post (network : ValveNetwork) (this : string)
    (d' : gmap string N) (r : option exception) : Prop :=
  match r with
  | None => dijkstra_inv network this d' ∅
  | Some e =>
      (∃ b, b ∈ dom network ∧
            e = runtime_error ("Processing node " +:+ label (network !!! b)
                                 +:+ " which has infinite distance") ∧
            d' !! b = Some UINT32_MAX ∧
            (∀ m, hops network this b m → UINT32_MAX ≤ m) ∧
            ∃ Q, dijkstra_inv network this d' Q) ∨
      (e = out_of_range "unordered_map::at" ∧
       ∃ u v, u ∈ dom network ∧ edge network u v ∧ v ∉ dom network)
  end.

(** Two networks with the same valves, labels and tunnels; the tables of
    the valves may differ. *)
Definition same_graph (n1 n2 : ValveNetwork) : Prop :=
  ∀ l, match n1 !! l, n2 !! l with
       | Some v1, Some v2 => label v1 = label v2 ∧ connections v1 = connections v2
       | None, None => True
       | _, _ => False
       end.

(** What [parse] makes of the valve stored under [l]: the same valve, its
    table filled by a completed computation. *)
Definition parsed (valves : ValveNetwork) (l : string) (o : option Valve) : Prop :=
  match valves !! l with
  | None => o = None
  | Some v =>
      ∃ d, o = Some (set_distances v d) ∧
           calculateDistanceToOtherValves valves l (distances v) = (d, None)
  end.

(** ** Networks to try the code on *)

(** A valve as the reading loop of [parse] builds it: no table yet. *)
Definition valve (flowRate : N) (label : string) (connections : list string) : Valve :=
  mkValve flowRate label connections ∅.

(** Three valves joined pairwise; the scenario of the specification. *)
Definition triangle : ValveNetwork :=
  list_to_map [("AA", valve 0 "AA" ["BB"; "CC"]);
               ("BB", valve 10 "BB" ["AA"; "CC"]);
               ("CC", valve 20 "CC" ["AA"; "BB"])].

Definition triangle_parsed : ValveNetwork :=
  list_to_map
    [("AA", mkValve 0 "AA" ["BB"; "CC"] (list_to_map [("AA", 0); ("BB", 1); ("CC", 1)]));
     ("BB", mkValve 10 "BB" ["AA"; "CC"] (list_to_map [("AA", 1); ("BB", 0); ("CC", 1)]));
     ("CC", mkValve 20 "CC" ["AA"; "BB"] (list_to_map [("AA", 1); ("BB", 1); ("CC", 0)]))].

(** One-way tunnels round a ring. *)
Definition ring : ValveNetwork :=
  list_to_map [("AA", valve 0 "AA" ["BB"]);
               ("BB", valve 13 "BB" ["CC"]);
               ("CC", valve 2 "CC" ["AA"])].

Definition ring_parsed : ValveNetwork :=
  list_to_map
    [("AA", mkValve 0 "AA" ["BB"] (list_to_map [("AA", 0); ("BB", 1); ("CC", 2)]));
     ("BB", mkValve 13 "BB" ["CC"] (list_to_map [("AA", 2); ("BB", 0); ("CC", 1)]));
     ("CC", mkValve 2 "CC" ["AA"] (list_to_map [("AA", 1); ("BB", 2); ("CC", 0)]))].

(** Two pairs of valves with no tunnel between the pairs. *)
Definition stranded : ValveNetwork :=
  list_to_map [("AA", valve 0 "AA" ["BB"]);
               ("BB", valve 13 "BB" ["AA"]);
               ("CC", valve 2 "CC" ["DD"]);
               ("DD", valve 7 "DD" ["CC"])].

(** A valve with a flow rate of 2^63 next to the start. *)
Definition torrent : ValveNetwork :=
  list_to_map [("AA", valve 0 "AA" ["BB"]);
               ("BB", valve 9223372036854775808 "BB" ["AA"])].

Definition torrent_parsed : ValveNetwork :=
  list_to_map
    [("AA", mkValve 0 "AA" ["BB"] (list_to_map [("AA", 0); ("BB", 1)]));
     ("BB", mkValve 9223372036854775808 "BB" ["AA"] (list_to_map [("AA", 1); ("BB", 0)]))].

(** Two valves without flow. *)
Definition dry_parsed : ValveNetwork :=
  list_to_map
    [("AA", mkValve 0 "AA" ["BB"] (list_to_map [("AA", 0); ("BB", 1)]));
     ("BB", mkValve 0 "BB" ["AA"] (list_to_map [("AA", 1); ("BB", 0)]))].

(** Two valves without flow, neither of them "AA". *)
Definition dry_no_start : ValveNetwork :=
  list_to_map [("BB", valve 0 "BB" ["CC"]);
               ("CC", valve 0 "CC" ["BB"])].

Definition dry_no_start_parsed : ValveNetwork :=
  list_to_map
    [("BB", mkValve 0 "BB" ["CC"] (list_to_map [("BB", 0); ("CC", 1)]));
     ("CC", mkValve 0 "CC" ["BB"] (list_to_map [("BB", 1); ("CC", 0)]))].

(** A network without the valve "AA". *)
Definition no_start : ValveNetwork :=
  list_to_map [("BB", valve 5 "BB" ["CC"]);
               ("CC", valve 0 "CC" ["BB"])].

Definition no_start_parsed : ValveNetwork :=
  list_to_map
    [("BB", mkValve 5 "BB" ["CC"] (list_to_map [("BB", 0); ("CC", 1)]));
     ("CC", mkValve 0 "CC" ["BB"] (list_to_map [("BB", 1); ("CC", 0)]))].

(** The state pushed first for [triangle]: from "AA" to "BB", opened at 2. *)
Definition first_move : State := mkState "BB" {["BB" := 2]} 2.

(** The state pushed first for [torrent]: "BB" opened at 2. *)
Definition torrent_open : State := mkState "BB" {["BB" := 2]} 2.

(** The state that scores best for [triangle] in 4 minutes. *)
Definition best_of_four : State :=
  mkState "BB" (list_to_map [("CC", 2); ("BB", 4)]) 4.

(** What [main] prints for [triangle]. *)
Definition triangle_output : list token :=
  [text "Part 1: "; text "Final state is at time "; number 4; text " with valves"; endl;
   text " * "; text "CC"; text " opened at minute "; number 2; endl;
   text " * "; text "BB"; text " opened at minute "; number 4; endl;
   text "releasing "; number 30; text " pressure per minute for a total of ";
   number 820; endl; number 820; endl].

(** The text of [triangle], and a text without a valve "AA". *)
Definition triangle_text : string :=
"Valve AA has flow rate=0; tunnels lead to valves BB, CC
Valve BB has flow rate=10; tunnels lead to valves AA, CC
Valve CC has flow rate=20; tunnels lead to valves AA, BB
".

Definition no_start_text : string :=
"Valve BB has flow rate=5; tunnel leads to valve CC
Valve CC has flow rate=0; tunnel leads to valve BB
".

(** An iteration order of [std::unordered_map] to run the code with: the
    order in which the map lists its entries. *)
Definition listed_order (A : Type) (l : list (string * A)) : list (string * A) := l.

(** Another one: the entries from last to first. *)
Definition reversed_order (A : Type) (l : list (string * A)) : list (string * A) :=
  reverse l.

(** * Properties *)

(** ** [min_element] and [subscript] *)

Lemma fold_smallest_spec (d : gmap string N) xs x0 :
  (∀ y, y ∈ x0 :: xs → is_Some (d !! y)) →
  ∃ r,
    fold_left (λ acc it,
                 match acc with
                 | Throw e => Throw e
                 | Ok smallest =>
                     match DistanceSorter d it smallest with
                     | Throw e => Throw e
                     | Ok less => Ok (if less then it else smallest)
                     end
                 end) xs (Ok x0) = Ok r ∧
    r ∈ x0 :: xs ∧ d !!! r ≤ d !!! x0 ∧ ∀ y, y ∈ xs → d !!! r ≤ d !!! y.
Proof.
  revert x0. induction xs as [|x xs IH]; intros x0 Hpresent; simpl.
  - exists x0. split; [done|]. split; [apply list_elem_of_here|].
    split; [lia|]. intros y Hy. inversion Hy.
  - destruct (Hpresent x0) as [n0 Hn0]; [left|].
    destruct (Hpresent x) as [n Hn]; [right; left|].
    unfold DistanceSorter at 2, map_at. rewrite Hn, Hn0.
    set (x1 := if (if n =? n0 then ptr_lt x x0 else n <? n0) then x else x0).
    destruct (IH x1) as (r & Hr & Hin & Hle & Hall).
    { intros y Hy. apply Hpresent.
      apply elem_of_cons in Hy as [->|Hy].
      - subst x1. destruct (if n =? n0 then _ else _); [right; left|left].
      - right. by right. }
    assert (Hx1 : (x1 = x0 ∨ x1 = x) ∧ d !!! x1 ≤ d !!! x0 ∧ d !!! x1 ≤ d !!! x).
    { rewrite (lookup_total_correct d x0 n0 Hn0), (lookup_total_correct d x n Hn).
      subst x1. destruct (N.eqb_spec n n0) as [He|Hne].
      - destruct (ptr_lt x x0).
        + rewrite (lookup_total_correct d x n Hn). split; [auto|lia].
        + rewrite (lookup_total_correct d x0 n0 Hn0). split; [auto|lia].
      - destruct (N.ltb_spec n n0).
        + rewrite (lookup_total_correct d x n Hn). split; [auto|lia].
        + rewrite (lookup_total_correct d x0 n0 Hn0). split; [auto|lia]. }
    destruct Hx1 as (Hx1in & Hx1a & Hx1b).
    exists r. split; [done|]. split; [|split; [lia|]].
    + apply elem_of_cons in Hin as [Hin|Hin].
      * rewrite Hin. destruct Hx1in as [->| ->]; rewrite !elem_of_cons; auto.
      * rewrite !elem_of_cons; auto.
    + intros y Hy. apply elem_of_cons in Hy as [->|Hy]; [lia|by apply Hall].
Qed.

(** With an entry for every element, the sorter does not throw, and
    [min_element] returns an element of least distance. *)
Lemma min_element_sorter (d : gmap string N) l :
  (∀ y, y ∈ l → is_Some (d !! y)) →
  (l = [] ∧ min_element (DistanceSorter d) l = Ok None) ∨
  ∃ valve, min_element (DistanceSorter d) l = Ok (Some valve) ∧
           valve ∈ l ∧ ∀ y, y ∈ l → d !!! valve ≤ d !!! y.
Proof.
  intros Hpresent. destruct l as [|x xs]; [by left|]. right.
  destruct (fold_smallest_spec d xs x Hpresent) as (r & Hr & Hin & Hle & Hall).
  exists r. simpl. rewrite Hr. split; [done|]. split; [done|].
  intros y Hy. apply elem_of_cons in Hy as [->|Hy]; auto.
Qed.

Lemma subscript_Some (m : gmap string N) k v :
  m !! k = Some v → subscript m k = (v, m).
Proof. unfold subscript. by intros ->. Qed.

Lemma lookup_total_Some (m : gmap string N) k v :
  m !! k = Some v → m !!! k = v.
Proof. intros H. by rewrite lookup_total_alt, H. Qed.

Lemma wrap_small n : n < SIZE_MODULUS → wrap n = n.
Proof. apply N.mod_small. Qed.

Lemma UINT32_MAX_small : UINT32_MAX + 1 < SIZE_MODULUS.
Proof. reflexivity. Qed.

(** ** The relaxation of one valve's neighbours *)

Lemma relax_spec network Q distance conns (d d' : gmap string N) r :
  (∀ v, v ∈ Q → is_Some (d !! v)) →
  distance + 1 < SIZE_MODULUS →
  relax network Q distance conns d = (d', r) →
  (∀ v, d' !! v = d !! v ∨
        (v ∈ Q ∧ v ∈ conns ∧ d' !! v = Some (distance + 1) ∧
         ∃ old, d !! v = Some old ∧ distance + 1 < old)) ∧
  (r = None → ∀ c, c ∈ conns →
     c ∈ dom network ∧ (c ∈ Q → ∃ dv, d' !! c = Some dv ∧ dv ≤ distance + 1)) ∧
  (∀ e, r = Some e →
     e = out_of_range "unordered_map::at" ∧ ∃ c, c ∈ conns ∧ network !! c = None).
Proof.
  intros HQ Hsmall. revert d HQ.
  induction conns as [|u rest IH]; intros d HQ; simpl.
  - intros [= <- <-]. split; [auto|]. split; [|done].
    intros _ c Hc. inversion Hc.
  - unfold map_at. destruct (network !! u) as [vu|] eqn:Hu.
    2:{ intros [= <- <-]. split; [auto|]. split; [done|].
        intros e [= <-]. split; [done|]. exists u. split; [left|done]. }
    assert (Hudom : u ∈ dom network) by (apply elem_of_dom; eauto).
    destruct (decide (u ∈ Q)) as [HuQ|HuQ].
    + destruct (HQ u HuQ) as [old Hold].
      rewrite (subscript_Some _ _ _ Hold), (wrap_small _ Hsmall).
      destruct (N.ltb_spec (distance + 1) old) as [Hlt|Hge].
      * intros Hrest. apply IH in Hrest as (H1 & H2 & H3).
        2:{ intros v Hv. destruct (decide (v = u)) as [->|Hne].
            - rewrite lookup_insert_eq. eauto.
            - rewrite lookup_insert_ne by done. auto. }
        split; [|split].
        -- intros v. destruct (H1 v) as [Hsame|(HvQ & Hvin & Hv' & old' & Hold' & Hlt')].
           ++ destruct (decide (v = u)) as [->|Hne].
              ** right. rewrite Hsame, lookup_insert_eq.
                 split; [done|]. split; [left|]. split; [done|]. eauto.
              ** left. by rewrite Hsame, lookup_insert_ne.
           ++ destruct (decide (v = u)) as [->|Hne].
              ** rewrite lookup_insert_eq in Hold'. injection Hold' as <-. lia.
              ** rewrite lookup_insert_ne in Hold' by done.
                 right. split; [done|]. split; [by right|]. split; [done|]. eauto.
        -- intros Hr c Hc. apply elem_of_cons in Hc as [->|Hc]; [|by apply H2].
           split; [done|]. intros _.
           destruct (H1 u) as [Hsame|(_ & _ & Hv' & _)].
           ++ rewrite Hsame, lookup_insert_eq. eexists; split; [done|lia].
           ++ rewrite Hv'. eexists; split; [done|lia].
        -- intros e He. destruct (H3 e He) as (-> & c & Hc & Hnone).
           split; [done|]. exists c. split; [by right|done].
      * intros Hrest. apply IH in Hrest as (H1 & H2 & H3); [|done].
        split; [|split].
        -- intros v. destruct (H1 v) as [Hsame|(HvQ & Hvin & Hv' & old' & Hold' & Hlt')].
           ++ by left.
           ++ right. split; [done|]. split; [by right|]. split; [done|]. eauto.
        -- intros Hr c Hc. apply elem_of_cons in Hc as [->|Hc]; [|by apply H2].
           split; [done|]. intros _.
           destruct (H1 u) as [Hsame|(_ & _ & Hv' & _)].
           ++ rewrite Hsame, Hold. eexists; split; [done|lia].
           ++ rewrite Hv'. eexists; split; [done|lia].
        -- intros e He. destruct (H3 e He) as (-> & c & Hc & Hnone).
           split; [done|]. exists c. split; [by right|done].
    + intros Hrest. apply IH in Hrest as (H1 & H2 & H3); [|done].
      split; [|split].
      * intros v. destruct (H1 v) as [Hsame|(HvQ & Hvin & Hv' & old' & Hold' & Hlt')].
        -- by left.
        -- right. split; [done|]. split; [by right|]. split; [done|]. eauto.
      * intros Hr c Hc. apply elem_of_cons in Hc as [->|Hc]; [|by apply H2].
        split; [done|]. intros HuQ'. done.
      * intros e He. destruct (H3 e He) as (-> & c & Hc & Hnone).
        split; [done|]. exists c. split; [by right|done].
Qed.

(** ** The invariant is kept *)

(** A walk from [this] ends at a settled valve, or some valve still in
    [Q] is labelled with at most the length of the walk. *)
Lemma frontier network this d Q w k :
  dijkstra_inv network this d Q →
  hops network this w k →
  (w ∈ dom network ∧ w ∉ Q) ∨ ∃ y dy, y ∈ Q ∧ d !! y = Some dy ∧ dy ≤ k.
Proof.
  intros Hinv Hw. induction Hw as [|b c n Hb IH Hbc].
  - destruct (decide (this ∈ Q)) as [HQ|HQ].
    + right. exists this, 0. split; [done|].
      split; [apply (inv_this _ _ _ _ Hinv)|lia].
    + left. split; [apply (inv_this_dom _ _ _ _ Hinv)|done].
  - destruct IH as [[Hbdom HbQ]|(y & dy & HyQ & Hy & Hle)].
    + destruct (inv_present _ _ _ _ Hinv b Hbdom) as [db Hdb].
      destruct (inv_settled _ _ _ _ Hinv b db Hbdom HbQ Hdb) as [_ Hmin].
      destruct (inv_relaxed _ _ _ _ Hinv b c db Hbdom HbQ Hbc Hdb)
        as (Hcdom & dv & Hdv & Hle).
      specialize (Hmin n Hb).
      destruct (decide (c ∈ Q)) as [HcQ|HcQ].
      * right. exists c, dv. split; [done|]. split; [done|lia].
      * left. done.
    + right. exists y, dy. split; [done|]. split; [done|lia].
Qed.

Lemma relax_loop_step_inv network this d Q valve distance d' :
  dijkstra_inv network this d Q →
  valve ∈ Q →
  (∀ y, y ∈ Q → d !!! valve ≤ d !!! y) →
  d !! valve = Some distance →
  distance ≠ UINT32_MAX →
  relax network (Q ∖ {[valve]}) distance (connections (network !!! valve)) d = (d', None) →
  dijkstra_inv network this d' (Q ∖ {[valve]}).
Proof.
  intros Hinv HvQ Hmin Hdist Hne Hrelax.
  assert (Hvdom : valve ∈ dom network) by (by apply (inv_Q _ _ _ _ Hinv)).
  assert (Hdlt : distance < UINT32_MAX).
  { pose proof (inv_bound _ _ _ _ Hinv valve distance Hvdom Hdist). lia. }
  assert (Hsmall : distance + 1 < SIZE_MODULUS).
  { pose proof UINT32_MAX_small. lia. }
  assert (Hwalk : hops network this valve distance)
    by (by apply (inv_walk _ _ _ _ Hinv)).
  destruct (proj1 (elem_of_dom network valve) Hvdom) as [vv Hvv].
  assert (Hderef : network !!! valve = vv) by (by rewrite lookup_total_alt, Hvv).
  rewrite Hderef in Hrelax.
  apply relax_spec in Hrelax as (Hchg & Hdone & _); [|  |done].
  2:{ intros v Hv. apply (inv_present _ _ _ _ Hinv).
      apply (inv_Q _ _ _ _ Hinv).
      by apply elem_of_difference in Hv as [Hv _]. }
  specialize (Hdone eq_refl).
  assert (Hdecr : ∀ v n, d !! v = Some n → ∃ n', d' !! v = Some n' ∧ n' ≤ n).
  { intros v n Hv. destruct (Hchg v) as [Hsame|(_ & _ & Hv' & old & Hold & Hlt)].
    - exists n. rewrite Hsame. split; [done|lia].
    - exists (distance + 1). split; [done|]. rewrite Hv in Hold. injection Hold as <-. lia. }
  assert (Hkeep : ∀ v, v ∉ Q ∖ {[valve]} → d' !! v = d !! v).
  { intros v Hv. destruct (Hchg v) as [Hsame|(HvQ' & _)]; done. }
  assert (Hedge : ∀ c, c ∈ connections vv → edge network valve c).
  { intros c Hc. exists vv. done. }
  assert (Hvalve_min : ∀ m, hops network this valve m → distance ≤ m).
  { intros m Hm. destruct (frontier _ _ _ _ _ _ Hinv Hm) as [[_ Hn]|(y & dy & HyQ & Hy & Hle)].
    - done.
    - specialize (Hmin y HyQ).
      rewrite (lookup_total_Some _ _ _ Hdist), (lookup_total_Some _ _ _ Hy) in Hmin. lia. }
  assert (Hsettled' : ∀ v n, v ∈ dom network → v ∉ Q ∖ {[valve]} → d' !! v = Some n →
            n < UINT32_MAX ∧ ∀ m, hops network this v m → n ≤ m).
  { intros v n Hvd HvQ' Hv. rewrite (Hkeep v HvQ') in Hv.
    destruct (decide (v = valve)) as [->|Hvne].
    - rewrite Hdist in Hv. injection Hv as <-. done.
    - apply (inv_settled _ _ _ _ Hinv v n Hvd); [|done].
      intros Hin. apply HvQ', elem_of_difference. split; [done|].
      by intros ->%elem_of_singleton. }
  assert (Hwalk' : ∀ v n, v ∈ dom network → d' !! v = Some n → n < UINT32_MAX →
            hops network this v n).
  { intros v n Hvd Hv Hn.
    destruct (Hchg v) as [Hsame|(_ & Hvin & Hv' & _)].
    - rewrite Hsame in Hv. by apply (inv_walk _ _ _ _ Hinv).
    - rewrite Hv' in Hv. injection Hv as <-.
      apply hops_step with valve; [done|by apply Hedge]. }
  split.
  - intros y [Hy _]%elem_of_difference. by apply (inv_Q _ _ _ _ Hinv).
  - apply (inv_this_dom _ _ _ _ Hinv).
  - intros v Hv. destruct (inv_present _ _ _ _ Hinv v Hv) as [n Hn].
    destruct (Hdecr v n Hn) as (n' & Hn' & _). eauto.
  - destruct (Hchg this) as [Hsame|(_ & _ & _ & old & Hold & Hlt)].
    + rewrite Hsame. apply (inv_this _ _ _ _ Hinv).
    + rewrite (inv_this _ _ _ _ Hinv) in Hold. injection Hold as <-. lia.
  - intros v n Hvd Hv.
    destruct (Hchg v) as [Hsame|(_ & _ & Hv' & _)].
    + rewrite Hsame in Hv. by apply (inv_bound _ _ _ _ Hinv v).
    + rewrite Hv' in Hv. injection Hv as <-. lia.
  - done.
  - done.
  - intros u v du Hud HuQ' Huv Hu.
    destruct (decide (u = valve)) as [->|Hune].
    + destruct Huv as (vv' & Hvv' & Hvin). rewrite Hvv in Hvv'. injection Hvv' as <-.
      rewrite (Hkeep valve HuQ'), Hdist in Hu. injection Hu as <-.
      destruct (Hdone v Hvin) as [Hvdom' HvQ'].
      split; [done|].
      destruct (decide (v ∈ Q ∖ {[valve]})) as [Hin|Hnin]; [by apply HvQ'|].
      destruct (inv_present _ _ _ _ Hinv v Hvdom') as [n Hn].
      destruct (Hdecr v n Hn) as (n' & Hn' & _).
      exists n'. split; [done|].
      apply (Hsettled' v n' Hvdom' Hnin Hn').
      apply hops_step with valve; [done|by apply Hedge].
    + assert (HuQ : u ∉ Q).
      { intros Hin. apply HuQ', elem_of_difference. split; [done|].
        by intros ->%elem_of_singleton. }
      rewrite (Hkeep u HuQ') in Hu.
      destruct (inv_relaxed _ _ _ _ Hinv u v du Hud HuQ Huv Hu) as (Hvd & dv & Hdv & Hle).
      split; [done|].
      destruct (Hdecr v dv Hdv) as (n' & Hn' & Hle').
      exists n'. split; [done|lia].
Qed.

Lemma relax_loop_spec fuel network this d Q d' r :
  dijkstra_inv network this d Q →
  (size Q ≤ fuel)%nat →
  relax_loop fuel network d Q = (d', r) →
  dijkstra_post network this d' r.
Proof.
  revert d Q. induction fuel as [|fuel IH]; intros d Q Hinv Hsize; simpl.
  - intros [= <- <-]. simpl.
    assert (Q = ∅) as <-; [|done].
    apply leibniz_equiv, size_empty_inv. lia.
  - destruct (min_element_sorter d (elements Q))
      as [[Hnil ->]|(valve & -> & HvQ & Hmin)].
    { intros y Hy. apply (inv_present _ _ _ _ Hinv), (inv_Q _ _ _ _ Hinv).
      by apply elem_of_elements. }
    { intros [= <- <-]. simpl.
      assert (Q = ∅) as <-; [|done].
      by apply leibniz_equiv, elements_empty_inv. }
    apply elem_of_elements in HvQ.
    assert (Hmin' : ∀ y, y ∈ Q → d !!! valve ≤ d !!! y).
    { intros y Hy. apply Hmin. by apply elem_of_elements. }
    assert (Hvdom : valve ∈ dom network) by (by apply (inv_Q _ _ _ _ Hinv)).
    destruct (inv_present _ _ _ _ Hinv valve Hvdom) as [distance Hdist].
    rewrite (subscript_Some _ _ _ Hdist).
    destruct (N.eqb_spec distance UINT32_MAX) as [->|Hne].
    + intros [= <- <-]. simpl. left. exists valve.
      split; [done|]. split; [done|]. split; [done|].
      split; [|by exists Q].
      intros m Hm.
      destruct (frontier _ _ _ _ _ _ Hinv Hm) as [[_ Hn]|(y & dy & HyQ & Hy & Hle)];
        [done|].
      specialize (Hmin' y HyQ).
      rewrite (lookup_total_Some _ _ _ Hdist), (lookup_total_Some _ _ _ Hy) in Hmin'. lia.
    + destruct (relax network (Q ∖ {[valve]}) distance
                  (connections (network !!! valve)) d) as [d1 [e|]] eqn:Hrelax.
      * intros [= <- <-]. simpl. right.
        assert (Hsmall : distance + 1 < SIZE_MODULUS).
        { pose proof (inv_bound _ _ _ _ Hinv valve distance Hvdom Hdist).
          pose proof UINT32_MAX_small. lia. }
        apply relax_spec in Hrelax as (_ & _ & Hthrow); [| |done].
        2:{ intros v Hv. apply (inv_present _ _ _ _ Hinv).
            apply (inv_Q _ _ _ _ Hinv).
      by apply elem_of_difference in Hv as [Hv _]. }
        destruct (Hthrow e eq_refl) as (-> & c & Hc & Hnone).
        split; [done|]. exists valve, c. split; [done|]. split.
        -- destruct (proj1 (elem_of_dom network valve) Hvdom) as [vv Hvv].
           exists vv. split; [done|].
           by rewrite lookup_total_alt, Hvv in Hc.
        -- by apply not_elem_of_dom.
      * intros Hloop. apply IH in Hloop; [done| |].
        -- by apply (relax_loop_step_inv _ _ d Q valve distance).
        -- rewrite size_difference by (by apply singleton_subseteq_l).
           rewrite size_singleton. lia.
Qed.

(** ** The initialisation *)

Lemma init_distances_spec entries (d : gmap string N) Q :
  NoDup entries.*1 →
  (∀ l, l ∈ entries.*1 → l ∉ Q) →
  ∃ d', init_distances entries d Q = (d', list_to_set entries.*1 ∪ Q, None) ∧
        ∀ k, d' !! k = if decide (k ∈ entries.*1) then Some UINT32_MAX else d !! k.
Proof.
  revert d Q. induction entries as [|[l v] entries IH]; intros d Q Hnd Hfresh; simpl.
  - exists d. split; [by rewrite union_empty_l_L|].
    intros k. destruct (decide (k ∈ [])) as [Hk|]; [inversion Hk|done].
  - apply NoDup_cons in Hnd as [Hl Hnd].
    destruct (decide (l ∈ Q)) as [HlQ|HlQ].
    { exfalso. apply (Hfresh l); [left|done]. }
    destruct (IH (<[l:=UINT32_MAX]> d) ({[l]} ∪ Q) Hnd) as (d' & Heq & Hd').
    { intros k Hk. specialize (Hfresh k (list_elem_of_further _ _ _ Hk)).
      intros [->%elem_of_singleton|HkQ]%elem_of_union; done. }
    exists d'. split.
    + rewrite Heq. f_equal. f_equal.
      apply set_eq. intros x. rewrite !elem_of_union. tauto.
    + intros k. rewrite Hd'.
      destruct (decide (k ∈ entries.*1)) as [Hk|Hk].
      * rewrite decide_True; [done|by right].
      * destruct (decide (k = l)) as [->|Hne].
        -- rewrite decide_True by left. by rewrite lookup_insert_eq.
        -- rewrite decide_False; [by rewrite lookup_insert_ne|].
           intros Hin. apply elem_of_cons in Hin as [?|?]; done.
Qed.

Lemma iterate_keys {A} (m : gmap string A) k :
  k ∈ (iterate m).*1 ↔ k ∈ dom m.
Proof.
  unfold iterate. rewrite (hash_order_perm A (map_to_list m)).
  rewrite list_elem_of_fmap, elem_of_dom. split.
  - intros ([k' x] & -> & Hin). apply elem_of_map_to_list in Hin. eauto.
  - intros [x Hx]. exists (k, x). split; [done|]. by apply elem_of_map_to_list.
Qed.

Lemma iterate_NoDup {A} (m : gmap string A) : NoDup (iterate m).*1.
Proof.
  unfold iterate. rewrite (hash_order_perm A (map_to_list m)).
  apply NoDup_fst_map_to_list.
Qed.

Lemma iterate_elem {A} (m : gmap string A) k x :
  (k, x) ∈ iterate m ↔ m !! k = Some x.
Proof.
  unfold iterate. rewrite (hash_order_perm A (map_to_list m)).
  apply elem_of_map_to_list.
Qed.

Lemma init_distances_network (network : ValveNetwork) (d : gmap string N) :
  ∃ d', init_distances (iterate network) d ∅ = (d', dom network, None) ∧
        ∀ k, d' !! k = if decide (k ∈ dom network) then Some UINT32_MAX else d !! k.
Proof.
  destruct (init_distances_spec (iterate network) d ∅) as (d' & Heq & Hd').
  { apply iterate_NoDup. }
  { intros l _. apply not_elem_of_empty. }
  exists d'. split.
  - rewrite Heq. f_equal. f_equal. apply set_eq. intros k.
    rewrite elem_of_union, elem_of_list_to_set, iterate_keys.
    split; [intros [?|Hk]; [done|by apply not_elem_of_empty in Hk]|auto].
  - intros k. rewrite Hd'.
    destruct (decide (k ∈ (iterate network).*1)) as [Hk|Hk];
      destruct (decide (k ∈ dom network)) as [Hk'|Hk']; try done;
      apply iterate_keys in Hk || (exfalso; apply Hk; by apply iterate_keys); done.
Qed.

(** ** The table of one valve *)

Lemma initial_inv network this (d1 : gmap string N) :
  this ∈ dom network →
  (∀ k, k ∈ dom network → d1 !! k = Some UINT32_MAX) →
  dijkstra_inv network this (<[this := 0]> d1) (dom network).
Proof.
  intros Hthis Hd1.
  assert (Hlook : ∀ v n, v ∈ dom network → <[this := 0]> d1 !! v = Some n →
            (v = this ∧ n = 0) ∨ n = UINT32_MAX).
  { intros v n Hv. destruct (decide (v = this)) as [->|Hne].
    - rewrite lookup_insert_eq. intros [= <-]. by left.
    - rewrite lookup_insert_ne, (Hd1 v Hv) by done. intros [= <-]. by right. }
  split.
  - done.
  - done.
  - intros v Hv. destruct (decide (v = this)) as [->|Hne].
    + rewrite lookup_insert_eq. eauto.
    + rewrite lookup_insert_ne, (Hd1 v Hv) by done. eauto.
  - apply lookup_insert_eq.
  - intros v n Hv Hn. destruct (Hlook v n Hv Hn) as [[_ ->]| ->]; [done|lia].
  - intros v n Hv Hn Hlt. destruct (Hlook v n Hv Hn) as [[-> ->]| ->]; [constructor|lia].
  - intros v n Hv HvQ. done.
  - intros u v du Hu HuQ. done.
Qed.

Lemma calculateDistance_spec network this d0 d' r :
  this ∈ dom network →
  calculateDistanceToOtherValves network this d0 = (d', r) →
  dijkstra_post network this d' r.
Proof.
  intros Hthis. unfold calculateDistanceToOtherValves.
  destruct (init_distances_network network d0) as (d1 & -> & Hd1).
  apply relax_loop_spec; [|done].
  apply initial_inv; [done|].
  intros k Hk. rewrite Hd1. by rewrite decide_True.
Qed.

(** The entry of the source is never overwritten. *)
Lemma relax_zero network Q distance conns (d : gmap string N) k :
  d !! k = Some 0 → (relax network Q distance conns d).1 !! k = Some 0.
Proof.
  revert d. induction conns as [|u rest IH]; intros d Hk; simpl; [done|].
  destruct (map_at network u); [|done].
  destruct (decide (u ∈ Q)); [|by apply IH].
  unfold subscript. destruct (d !! u) as [old|] eqn:Hu.
  - destruct (N.ltb_spec (wrap (distance + 1)) old) as [Hlt|Hge]; [|by apply IH].
    apply IH. rewrite lookup_insert_ne; [done|].
    intros ->. rewrite Hk in Hu. injection Hu as <-. lia.
  - destruct (N.ltb_spec (wrap (distance + 1)) 0) as [Hlt|Hge]; [lia|].
    apply IH. rewrite lookup_insert_ne; [done|]. intros ->. congruence.
Qed.

Lemma relax_loop_zero fuel network (d : gmap string N) Q k :
  d !! k = Some 0 → (relax_loop fuel network d Q).1 !! k = Some 0.
Proof.
  revert d Q. induction fuel as [|fuel IH]; intros d Q Hk; simpl; [done|].
  destruct (min_element _ _) as [[valve|]|e]; [|done|done].
  assert (Hsub : (subscript d valve).2 !! k = Some 0).
  { unfold subscript. destruct (d !! valve) eqn:Hv; simpl; [done|].
    rewrite lookup_insert_ne; [done|]. intros ->. congruence. }
  destruct (subscript d valve) as [distance d1]. simpl in Hsub.
  destruct (distance =? UINT32_MAX); [done|].
  pose proof (relax_zero network (Q ∖ {[valve]}) distance
                (connections (network !!! valve)) d1 k Hsub) as Hrel.
  destruct (relax _ _ _ _ _) as [d2 [e|]]; simpl in Hrel; [done|].
  by apply IH.
Qed.

Lemma calculateDistance_self network this d0 :
  (calculateDistanceToOtherValves network this d0).1 !! this = Some 0.
Proof.
  unfold calculateDistanceToOtherValves.
  destruct (init_distances_network network d0) as (d1 & -> & _).
  apply relax_loop_zero, lookup_insert_eq.
Qed.

(** A table that was completed holds the minimal number of hops. *)
Lemma calculateDistance_min_hops network this d0 d' b :
  this ∈ dom network →
  calculateDistanceToOtherValves network this d0 = (d', None) →
  b ∈ dom network →
  ∃ n, d' !! b = Some n ∧ n < UINT32_MAX ∧ min_hops network this b n.
Proof.
  intros Hthis Hcalc Hb.
  apply calculateDistance_spec in Hcalc; [|done]. simpl in Hcalc.
  destruct (inv_present _ _ _ _ Hcalc b Hb) as [n Hn].
  destruct (inv_settled _ _ _ _ Hcalc b n Hb (not_elem_of_empty b) Hn) as [Hlt Hmin].
  exists n. split; [done|]. split; [done|]. split; [|done].
  by apply (inv_walk _ _ _ _ Hcalc).
Qed.

(** ** Walks *)

Lemma hops_prepend network a b c n :
  edge network a b → hops network b c n → hops network a c (n + 1).
Proof.
  intros Hab Hbc. induction Hbc as [|c c' n Hbc IH Hcc'].
  - change (0 + 1) with (0 + 1). apply hops_step with a; [constructor|done].
  - by apply hops_step with c.
Qed.

Lemma hops_reverse network a b n :
  undirected network → hops network a b n → hops network b a n.
Proof.
  intros Hsym Hab. induction Hab as [|b c n Hab IH Hbc]; [constructor|].
  apply hops_prepend with b; [by apply Hsym|done].
Qed.

Lemma min_hops_unique network a b n m :
  min_hops network a b n → min_hops network a b m → n = m.
Proof. intros [H1 H2] [H3 H4]. specialize (H2 m H3). specialize (H4 n H1). lia. Qed.

(** ** The tables that [parse] fills *)

Lemma same_graph_lookup n1 n2 l :
  same_graph n1 n2 →
  label (n1 !!! l) = label (n2 !!! l) ∧
  connections (n1 !!! l) = connections (n2 !!! l) ∧
  (is_Some (n1 !! l) ↔ is_Some (n2 !! l)).
Proof.
  intros Hsame. specialize (Hsame l). rewrite !lookup_total_alt.
  destruct (n1 !! l), (n2 !! l); simpl; try done.
  destruct Hsame. split; [done|]. split; [done|]. split; eauto.
Qed.

Lemma relax_same_graph n1 n2 Q distance conns (d : gmap string N) :
  same_graph n1 n2 →
  relax n1 Q distance conns d = relax n2 Q distance conns d.
Proof.
  intros Hsame. revert d. induction conns as [|u rest IH]; intros d; simpl; [done|].
  pose proof (Hsame u) as Hu. unfold map_at.
  destruct (n1 !! u), (n2 !! u); try done.
  destruct (decide (u ∈ Q)); [|apply IH].
  destruct (subscript d u) as [nd d1].
  destruct (wrap (distance + 1) <? nd); apply IH.
Qed.

Lemma relax_loop_same_graph fuel n1 n2 (d : gmap string N) Q :
  same_graph n1 n2 →
  relax_loop fuel n1 d Q = relax_loop fuel n2 d Q.
Proof.
  intros Hsame. revert d Q. induction fuel as [|fuel IH]; intros d Q; simpl; [done|].
  destruct (min_element _ _) as [[valve|]|e]; [|done|done].
  destruct (same_graph_lookup n1 n2 valve Hsame) as (-> & -> & _).
  destruct (subscript d valve) as [distance d1].
  destruct (distance =? UINT32_MAX); [done|].
  rewrite (relax_same_graph n1 n2) by done.
  destruct (relax n2 _ _ _ _) as [d2 [e|]]; [done|]. apply IH.
Qed.

Lemma same_graph_dom n1 n2 : same_graph n1 n2 → dom n1 = dom n2.
Proof.
  intros Hsame. apply set_eq. intros l. rewrite !elem_of_dom.
  apply (same_graph_lookup n1 n2 l Hsame).
Qed.

Lemma calculateDistance_same_graph n1 n2 this d0 :
  same_graph n1 n2 →
  calculateDistanceToOtherValves n1 this d0 = calculateDistanceToOtherValves n2 this d0.
Proof.
  intros Hsame. unfold calculateDistanceToOtherValves.
  destruct (init_distances_network n1 d0) as (d1 & -> & Hd1).
  destruct (init_distances_network n2 d0) as (d2 & -> & Hd2).
  rewrite (same_graph_dom n1 n2 Hsame) in *.
  assert (d1 = d2) as ->.
  { apply map_eq. intros k. by rewrite Hd1, Hd2. }
  by apply relax_loop_same_graph.
Qed.

Lemma parse_loop_spec valves entries cur :
  NoDup entries.*1 →
  same_graph valves cur →
  (∀ l, l ∈ entries.*1 → cur !! l = valves !! l ∧ is_Some (valves !! l)) →
  (∀ l, l ∉ entries.*1 → parsed valves l (cur !! l)) →
  match parse_loop entries cur with
  | Ok network => ∀ l, parsed valves l (network !! l)
  | Throw e =>
      ∃ l v, valves !! l = Some v ∧
             (calculateDistanceToOtherValves valves l (distances v)).2 = Some e
  end.
Proof.
  revert cur. induction entries as [|[l0 x] entries IH];
    intros cur Hnd Hsame Htodo Hdone; simpl.
  - intros l. apply Hdone. apply not_elem_of_nil.
  - apply NoDup_cons in Hnd as [Hl0 Hnd].
    destruct (Htodo l0 (list_elem_of_here _ _)) as [Hcur [v0 Hv0]].
    rewrite Hv0 in Hcur. rewrite (lookup_total_correct cur l0 v0 Hcur).
    rewrite <- (calculateDistance_same_graph valves cur) by done.
    destruct (calculateDistanceToOtherValves valves l0 (distances v0))
      as [d [e|]] eqn:Hcalc.
    { exists l0, v0. by rewrite Hcalc. }
    apply IH; [done| | |].
    + intros l. specialize (Hsame l).
      destruct (decide (l = l0)) as [->|Hne].
      * rewrite lookup_insert_eq, Hv0. done.
      * by rewrite lookup_insert_ne.
    + intros l Hl. assert (l ≠ l0) by (by intros ->).
      rewrite lookup_insert_ne by done. apply Htodo. by right.
    + intros l Hl. destruct (decide (l = l0)) as [->|Hne].
      * unfold parsed. rewrite Hv0, lookup_insert_eq. eauto.
      * rewrite lookup_insert_ne by done. apply Hdone.
        intros [?|?]%elem_of_cons; done.
Qed.

Lemma same_graph_refl n : same_graph n n.
Proof. intros l. by destruct (n !! l). Qed.

Lemma parse_spec valves :
  match parse valves with
  | Ok network => ∀ l, parsed valves l (network !! l)
  | Throw e =>
      ∃ l v, valves !! l = Some v ∧
             (calculateDistanceToOtherValves valves l (distances v)).2 = Some e
  end.
Proof.
  unfold parse. apply parse_loop_spec.
  - apply iterate_NoDup.
  - apply same_graph_refl.
  - intros l Hl. split; [done|]. apply elem_of_dom. by apply iterate_keys.
  - intros l Hl. unfold parsed.
    destruct (valves !! l) as [v|] eqn:Hv; [|done].
    exfalso. apply Hl, iterate_keys, elem_of_dom. eauto.
Qed.

Lemma parse_Ok_lookup valves network a valve :
  parse valves = Ok network →
  network !! a = Some valve →
  ∃ v, valves !! a = Some v ∧
       calculateDistanceToOtherValves valves a (distances v) = (distances valve, None).
Proof.
  intros Hparse Ha. pose proof (parse_spec valves) as Hspec.
  rewrite Hparse in Hspec. specialize (Hspec a). unfold parsed in Hspec.
  destruct (valves !! a) as [v|]; [|congruence].
  destruct Hspec as (d & Heq & Hcalc). rewrite Ha in Heq. injection Heq as ->.
  exists v. done.
Qed.

(** ** The claims about the distance tables *)

(** C4, as the code has it.  A valve of the network that cannot be reached
    from the source makes the computation throw: no table without it comes
    back, and its entry still holds the [UINT32_MAX] sentinel.  A computation
    that completes has an entry for every valve of the network, holding the
    minimal number of hops; and it does complete when the tunnels lead to
    valves of the network and every valve is within reach.  So [parse]
    returns tables that are complete, or throws. *)
Theorem distance_table_complete_or_throws :
  (∀ network this d0,
     this ∈ dom network →
     let d' := (calculateDistanceToOtherValves network this d0).1 in
     let r := (calculateDistanceToOtherValves network this d0).2 in
     (∀ b, b ∈ dom network → ¬ reachable network this b →
        ∃ e, r = Some e ∧ (closed_network network → d' !! b = Some UINT32_MAX)) ∧
     (r = None → ∀ b, b ∈ dom network →
        ∃ n, d' !! b = Some n ∧ min_hops network this b n) ∧
     (closed_network network →
      (∀ b, b ∈ dom network → ∃ n, n < UINT32_MAX ∧ hops network this b n) →
      r = None)) ∧
  (∀ valves a b,
     a ∈ dom valves → b ∈ dom valves → ¬ reachable valves a b →
     ∃ e, parse valves = Throw e) ∧
  (∀ valves network a valve b,
     parse valves = Ok network → network !! a = Some valve → b ∈ dom valves →
     ∃ n, distances valve !! b = Some n ∧ min_hops valves a b n).
Proof.
  split; [|split].
  - intros network this d0 Hthis d' r.
    destruct (calculateDistanceToOtherValves network this d0) as [d1 r1] eqn:Hcalc.
    subst d' r. simpl.
    pose proof (calculateDistance_spec _ _ _ _ _ Hthis Hcalc) as Hpost.
    split; [|split].
    + intros b Hb Hunreach. destruct r1 as [e|].
      * exists e. split; [done|]. intros Hclosed.
        destruct Hpost as [(b0 & _ & _ & _ & _ & Q & Hinv)|(_ & u & v & _ & Huv & Hv)].
        -- destruct (inv_present _ _ _ _ Hinv b Hb) as [n Hn].
           pose proof (inv_bound _ _ _ _ Hinv b n Hb Hn) as Hle.
           destruct (decide (n = UINT32_MAX)) as [->|Hne]; [done|].
           exfalso. apply Hunreach. exists n.
           apply (inv_walk _ _ _ _ Hinv b n Hb Hn). lia.
        -- exfalso. apply Hv. by apply (Hclosed u v).
      * exfalso. apply Hunreach.
        destruct (calculateDistance_min_hops _ _ _ _ b Hthis Hcalc Hb)
          as (n & _ & _ & Hn & _).
        by exists n.
    + intros -> b Hb.
      destruct (calculateDistance_min_hops _ _ _ _ b Hthis Hcalc Hb)
        as (n & Hn & _ & Hmin).
      eauto.
    + intros Hclosed Hall. destruct r1 as [e|]; [exfalso|done].
      destruct Hpost as [(b & Hb & _ & _ & Hfar & _)|(_ & u & v & _ & Huv & Hv)].
      * destruct (Hall b Hb) as (n & Hlt & Hn). specialize (Hfar n Hn). lia.
      * apply Hv. by apply (Hclosed u v).
  - intros valves a b Ha Hb Hunreach.
    destruct (parse valves) as [network|e] eqn:Hparse; [exfalso|by exists e].
    pose proof (parse_spec valves) as Hspec. rewrite Hparse in Hspec.
    specialize (Hspec a). unfold parsed in Hspec.
    apply elem_of_dom in Ha as Ha'. destruct Ha' as [v Hv]. rewrite Hv in Hspec.
    destruct Hspec as (d & _ & Hcalc).
    destruct (calculateDistance_min_hops _ _ _ _ b Ha Hcalc Hb) as (n & _ & _ & Hn & _).
    apply Hunreach. by exists n.
  - intros valves network a valve b Hparse Ha Hb.
    destruct (parse_Ok_lookup _ _ _ _ Hparse Ha) as (v & Hv & Hcalc).
    assert (Hadom : a ∈ dom valves) by (apply elem_of_dom; eauto).
    destruct (calculateDistance_min_hops _ _ _ _ b Hadom Hcalc Hb) as (n & Hn & _ & Hmin).
    eauto.
Qed.

(** C5.  When the relaxation loop dequeues a valve whose distance is still
    the [UINT32_MAX] it was initialised with, the loop stops there with a
    [runtime_error] naming the valve: nothing more is dequeued and the table
    is left as it is.  So a network one of whose valves is out of reach of
    the source ends the computation with that exception. *)
Theorem unset_distance_is_fatal :
  (∀ fuel network (d : gmap string N) Q valve,
     min_element (DistanceSorter d) (elements Q) = Ok (Some valve) →
     d !! valve = Some UINT32_MAX →
     relax_loop (S fuel) network d Q =
       (d, Some (runtime_error ("Processing node " +:+ label (network !!! valve)
                                  +:+ " which has infinite distance")))) ∧
  (∀ network this d0 b,
     closed_network network → this ∈ dom network →
     b ∈ dom network → ¬ reachable network this b →
     ∃ valve, valve ∈ dom network ∧
       (∀ m, hops network this valve m → UINT32_MAX ≤ m) ∧
       (calculateDistanceToOtherValves network this d0).2 =
         Some (runtime_error ("Processing node " +:+ label (network !!! valve)
                                +:+ " which has infinite distance"))).
Proof.
  split.
  - intros fuel network d Q valve Hmin Hd. simpl.
    rewrite Hmin, (subscript_Some _ _ _ Hd). by rewrite N.eqb_refl.
  - intros network this d0 b Hclosed Hthis Hb Hunreach.
    destruct (calculateDistanceToOtherValves network this d0) as [d1 r1] eqn:Hcalc.
    pose proof (calculateDistance_spec _ _ _ _ _ Hthis Hcalc) as Hpost. simpl.
    destruct r1 as [e|].
    + destruct Hpost as [(b0 & Hb0 & -> & _ & Hfar & _)|(_ & u & v & _ & Huv & Hv)].
      * exists b0. done.
      * exfalso. apply Hv. by apply (Hclosed u v).
    + exfalso. apply Hunreach.
      destruct (calculateDistance_min_hops _ _ _ _ b Hthis Hcalc Hb)
        as (n & _ & _ & Hn & _).
      by exists n.
Qed.

(** C6.  Whatever the network and whichever valve computes its table, the
    table maps the valve itself to 0, also when the computation ends with an
    exception; so does every table of a network that [parse] returns. *)
Theorem distance_to_self_is_zero :
  (∀ network this d0,
     (calculateDistanceToOtherValves network this d0).1 !! this = Some 0) ∧
  (∀ valves network a valve,
     parse valves = Ok network → network !! a = Some valve →
     distances valve !! a = Some 0).
Proof.
  split; [apply calculateDistance_self|].
  intros valves network a valve Hparse Ha.
  destruct (parse_Ok_lookup _ _ _ _ Hparse Ha) as (v & Hv & Hcalc).
  pose proof (calculateDistance_self valves a (distances v)) as Hself.
  by rewrite Hcalc in Hself.
Qed.

(** C7, as the code has it.  In a network whose tunnels can all be walked
    both ways, the completed tables of two valves agree on the distance
    between them; so do the tables of such a network that [parse] returns. *)
Theorem distance_symmetric_when_undirected :
  (∀ network a b da0 db0 da db,
     undirected network →
     a ∈ dom network → b ∈ dom network →
     calculateDistanceToOtherValves network a da0 = (da, None) →
     calculateDistanceToOtherValves network b db0 = (db, None) →
     is_Some (da !! b) ∧ da !! b = db !! a) ∧
  (∀ valves network a b va vb,
     undirected valves →
     parse valves = Ok network →
     network !! a = Some va → network !! b = Some vb →
     is_Some (distances va !! b) ∧ distances va !! b = distances vb !! a).
Proof.
  assert (Hcalc : ∀ network a b da0 db0 da db,
     undirected network →
     a ∈ dom network → b ∈ dom network →
     calculateDistanceToOtherValves network a da0 = (da, None) →
     calculateDistanceToOtherValves network b db0 = (db, None) →
     is_Some (da !! b) ∧ da !! b = db !! a).
  { intros network a b da0 db0 da db Hsym Ha Hb Hca Hcb.
    destruct (calculateDistance_min_hops _ _ _ _ b Ha Hca Hb) as (n & Hn & _ & Hmin).
    destruct (calculateDistance_min_hops _ _ _ _ a Hb Hcb Ha) as (m & Hm & _ & Hmin').
    rewrite Hn, Hm. split; [eauto|]. f_equal.
    apply (min_hops_unique network a b); [done|].
    destruct Hmin' as [Hw Hleast]. split.
    - by apply hops_reverse.
    - intros k Hk. apply Hleast. by apply hops_reverse. }
  split; [done|].
  intros valves network a b va vb Hsym Hparse Ha Hb.
  destruct (parse_Ok_lookup _ _ _ _ Hparse Ha) as (v1 & Hv1 & Hc1).
  destruct (parse_Ok_lookup _ _ _ _ Hparse Hb) as (v2 & Hv2 & Hc2).
  apply (Hcalc valves a b (distances v1) (distances v2)); try done.
  - apply elem_of_dom; eauto.
  - apply elem_of_dom; eauto.
Qed.

Lemma hops_trans network a b c n m :
  hops network a b n → hops network b c m → hops network a c (n + m).
Proof.
  intros Hab Hbc. induction Hbc as [|c c' m Hbc IH Hcc'].
  - by rewrite N.add_0_r.
  - rewrite N.add_assoc. by apply hops_step with c.
Qed.

(** X2.  The tables that [parse] returns obey the triangle inequality: the
    distance from [a] to [c] is at most the distance from [a] to [b] plus the
    distance from [b] to [c]. *)
Theorem distance_triangle_inequality valves network a b c va vb dab dbc dac :
  parse valves = Ok network →
  network !! a = Some va → network !! b = Some vb → c ∈ dom valves →
  distances va !! b = Some dab →
  distances vb !! c = Some dbc →
  distances va !! c = Some dac →
  dac ≤ dab + dbc.
Proof.
  intros Hparse Ha Hb Hc Hab Hbc Hac.
  destruct (parse_Ok_lookup _ _ _ _ Hparse Ha) as (v1 & Hv1 & Hc1).
  destruct (parse_Ok_lookup _ _ _ _ Hparse Hb) as (v2 & Hv2 & Hc2).
  assert (Hadom : a ∈ dom valves) by (apply elem_of_dom; eauto).
  assert (Hbdom : b ∈ dom valves) by (apply elem_of_dom; eauto).
  destruct (calculateDistance_min_hops _ _ _ _ b Hadom Hc1 Hbdom) as (n1 & Hn1 & _ & Hw1 & _).
  destruct (calculateDistance_min_hops _ _ _ _ c Hbdom Hc2 Hc) as (n2 & Hn2 & _ & Hw2 & _).
  destruct (calculateDistance_min_hops _ _ _ _ c Hadom Hc1 Hc) as (n3 & Hn3 & _ & _ & Hmin).
  rewrite Hab in Hn1. rewrite Hbc in Hn2. rewrite Hac in Hn3.
  injection Hn1 as <-. injection Hn2 as <-. injection Hn3 as <-.
  apply Hmin. by apply hops_trans with b.
Qed.

(** ** Sums *)

Lemma sumN_cons x l : sumN (x :: l) = x + sumN l.
Proof. done. Qed.

Ltac sum_cons := rewrite ?fmap_cons, ?sumN_cons in *.

Lemma sumN_perm l1 l2 : l1 ≡ₚ l2 → sumN l1 = sumN l2.
Proof. induction 1; sum_cons; lia. Qed.

Lemma sumN_fmap_submseteq {A} (f g : A → N) l1 l2 :
  (∀ x, f x ≤ g x) → l1 ⊆+ l2 → sumN (f <$> l1) ≤ sumN (g <$> l2).
Proof.
  intros Hfg Hsub.
  assert (Hmono : ∀ l, sumN (f <$> l) ≤ sumN (g <$> l)).
  { induction l as [|x l IH]; [done|]. sum_cons. specialize (Hfg x). lia. }
  assert (Hg : sumN (g <$> l1) ≤ sumN (g <$> l2)).
  { clear Hmono. induction Hsub; sum_cons; lia. }
  specialize (Hmono l1). lia.
Qed.

Lemma sumN_fmap_ext {A} (f g : A → N) l :
  (∀ x, x ∈ l → f x = g x) → sumN (f <$> l) = sumN (g <$> l).
Proof.
  induction l as [|x l IH]; intros Hfg; [done|]. sum_cons.
  rewrite (Hfg x) by left. rewrite IH; [done|].
  intros y Hy. apply Hfg. by right.
Qed.

Lemma sumN_fmap_scale {A} (f : A → N) c l :
  sumN ((λ x, c * f x) <$> l) = c * sumN (f <$> l).
Proof. induction l as [|x l IH]; [simpl; lia|]. sum_cons. rewrite IH. lia. Qed.

(** ** Arithmetic of [size_t] *)

Lemma wrap_le n : wrap n ≤ n.
Proof. unfold wrap. apply N.Div0.mod_le. Qed.

Lemma wrap_add_r a b : wrap (a + wrap b) = wrap (a + b).
Proof. unfold wrap. apply N.Div0.add_mod_idemp_r. Qed.

Lemma wrap_add_l a b : wrap (wrap a + b) = wrap (a + b).
Proof. unfold wrap. apply N.Div0.add_mod_idemp_l. Qed.

Lemma wrap_mul_sub rate a b :
  b < a → wrap (rate * wrap_sub a b) = wrap (rate * (a - b)).
Proof.
  intros Hlt. unfold wrap, wrap_sub.
  rewrite N.Div0.mul_mod_idemp_r.
  replace (rate * (a + SIZE_MODULUS - b)) with (rate * (a - b) + rate * SIZE_MODULUS) by lia.
  apply N.Div0.mod_add.
Qed.

Lemma pressure_term_reward network timeLimit kv :
  pressure_term network timeLimit kv = wrap (reward network timeLimit kv).
Proof.
  unfold pressure_term, reward.
  destruct (N.leb_spec timeLimit kv.2) as [Hle|Hlt]; [done|].
  by apply wrap_mul_sub.
Qed.

(** ** The score of a state *)

Lemma fold_pressure_sum network timeLimit l a :
  fold_left (λ acc kv, wrap (acc + pressure_term network timeLimit kv)) l (wrap a)
  = wrap (a + sumN (reward network timeLimit <$> l)).
Proof.
  revert a. induction l as [|x l IH]; intros a.
  - simpl. f_equal. lia.
  - sum_cons. simpl.
    rewrite pressure_term_reward, wrap_add_r, wrap_add_l, IH. f_equal. lia.
Qed.

Lemma totalPressureRelieved_wrap network state timeLimit :
  totalPressureRelieved network state timeLimit
  = wrap (total_reward network timeLimit (openedValves state)).
Proof.
  unfold totalPressureRelieved, total_reward.
  change 0 with (wrap 0) at 1. rewrite fold_pressure_sum, N.add_0_l.
  f_equal. apply sumN_perm, fmap_Permutation, hash_order_perm.
Qed.

(** C2, as the code has it.  The score of a state is the sum, over the
    valves it has opened, of the flow rate times the minutes left after the
    opening, a valve opened at or after the limit counting for nothing; the
    sum is the one of [size_t], taken modulo 2^64, and the exact one when
    that fits. *)
Theorem totalPressureRelieved_is_sum_of_rewards network state timeLimit :
  totalPressureRelieved network state timeLimit
    = wrap (total_reward network timeLimit (openedValves state)) ∧
  (total_reward network timeLimit (openedValves state) < SIZE_MODULUS →
   totalPressureRelieved network state timeLimit
     = total_reward network timeLimit (openedValves state)) ∧
  (∀ target openedAt, timeLimit ≤ openedAt →
     reward network timeLimit (target, openedAt) = 0) ∧
  (∀ target openedAt, openedAt < timeLimit →
     reward network timeLimit (target, openedAt)
       = flowRate (network !!! target) * (timeLimit - openedAt)).
Proof.
  split; [apply totalPressureRelieved_wrap|]. split; [|split].
  - intros Hfits. rewrite totalPressureRelieved_wrap. by apply wrap_small.
  - intros target openedAt Hle. unfold reward. simpl.
    by destruct (N.leb_spec timeLimit openedAt); [|lia].
  - intros target openedAt Hlt. unfold reward. simpl.
    by destruct (N.leb_spec timeLimit openedAt); [lia|].
Qed.

(** ** The states pushed for a state *)

Lemma elem_of_next_states network timeLimit state s' :
  s' ∈ next_states network timeLimit state ↔
  ∃ target distance,
    distances (network !!! current state) !! target = Some distance ∧
    openedValves state !! target = None ∧
    0 < flowRate (network !!! target) ∧
    elapsedTime state < timeLimit ∧
    s' = mkState target
           (<[target := wrap (elapsedTime state + distance + 1)]> (openedValves state))
           (wrap (elapsedTime state + distance + 1)).
Proof.
  unfold next_states. rewrite list_elem_of_omap. split.
  - intros ([target distance] & Hin & Hsome).
    apply iterate_elem in Hin.
    destruct (bool_decide (openedValves state !! target = None)) eqn:Hopen;
      [|done].
    destruct (N.ltb_spec 0 (flowRate (network !!! target))); [|done].
    destruct (N.ltb_spec (elapsedTime state) timeLimit); [|done].
    simpl in Hsome. injection Hsome as <-.
    apply bool_decide_eq_true in Hopen.
    exists target, distance. done.
  - intros (target & distance & Hd & Hopen & Hrate & Htime & ->).
    exists (target, distance). split; [by apply iterate_elem|].
    rewrite bool_decide_true by done.
    destruct (N.ltb_spec 0 (flowRate (network !!! target))); [|lia].
    destruct (N.ltb_spec (elapsedTime state) timeLimit); [|lia].
    done.
Qed.

Lemma positive_rate_in_network (network : ValveNetwork) target :
  0 < flowRate (network !!! target) → target ∈ dom network.
Proof.
  rewrite lookup_total_alt, elem_of_dom.
  destruct (network !! target); [eauto|]. simpl. lia.
Qed.

(** The targets of the pushed states: distinct, in the network, not opened. *)
Lemma next_states_targets network timeLimit state :
  NoDup (current <$> next_states network timeLimit state) ∧
  ∀ target, target ∈ current <$> next_states network timeLimit state →
            target ∈ dom network ∖ dom (openedValves state).
Proof.
  split.
  - apply (sublist_NoDup _ (iterate (distances (network !!! current state))).*1);
      [by apply iterate_NoDup|].
    unfold next_states.
    induction (iterate (distances (network !!! current state))) as [|[t d] l IH];
      simpl; [constructor|].
    destruct (_ && _); simpl; [by constructor|by constructor].
  - intros target Hin. apply list_elem_of_fmap in Hin as (s' & -> & Hs').
    apply elem_of_next_states in Hs' as (t & d & _ & Hopen & Hrate & _ & ->). simpl.
    apply elem_of_difference. split; [by apply positive_rate_in_network|].
    by apply not_elem_of_dom.
Qed.

Lemma next_states_length network timeLimit state :
  (length (next_states network timeLimit state) ≤ remaining network state)%nat.
Proof.
  destruct (next_states_targets network timeLimit state) as [Hnd Hin].
  unfold remaining.
  rewrite <- (length_fmap current), <- (size_list_to_set (C := gset string)) by done.
  apply subseteq_size. intros target Ht. apply elem_of_list_to_set in Ht. auto.
Qed.

Lemma next_states_remaining network timeLimit state s' :
  s' ∈ next_states network timeLimit state →
  (remaining network s' < remaining network state)%nat.
Proof.
  intros Hs'. apply elem_of_next_states in Hs' as (t & d & _ & Hopen & Hrate & _ & ->).
  unfold remaining. simpl. apply subset_size.
  apply positive_rate_in_network in Hrate. apply not_elem_of_dom in Hopen.
  rewrite dom_insert_L. split.
  - intros x [Hx Hn]%elem_of_difference. apply elem_of_difference.
    split; [done|]. intros Hin. apply Hn, elem_of_union. by right.
  - intros Hsub.
    assert (Ht : t ∈ dom network ∖ ({[t]} ∪ dom (openedValves state))).
    { apply Hsub, elem_of_difference. done. }
    apply elem_of_difference in Ht as [_ Hn].
    apply Hn, elem_of_union. left. by apply elem_of_singleton.
Qed.

Lemma next_states_opened network timeLimit state s' :
  s' ∈ next_states network timeLimit state →
  openedValves state ⊆ openedValves s'.
Proof.
  intros Hs'. apply elem_of_next_states in Hs' as (t & d & _ & Hopen & _ & _ & ->).
  simpl. by apply insert_subseteq.
Qed.

Lemma next_states_mono network T1 T2 state s' :
  T1 ≤ T2 →
  s' ∈ next_states network T1 state → s' ∈ next_states network T2 state.
Proof.
  intros HT. rewrite !elem_of_next_states.
  intros (t & d & Hd & Hopen & Hrate & Htime & ->).
  exists t, d. repeat split; try done. lia.
Qed.

(** ** The loop of the search ends *)

Lemma search_size_mono n m : (n ≤ m → search_size n ≤ search_size m)%nat.
Proof.
  induction 1 as [|m Hle IH]; [done|].
  change (search_size (S m)) with (1 + S m * search_size m)%nat. nia.
Qed.

Lemma sum_list_bound {A} (f : A → nat) c l :
  (∀ x, x ∈ l → (f x ≤ c)%nat) → (sum_list_with f l ≤ length l * c)%nat.
Proof.
  induction l as [|x l IH]; intros Hf; [simpl; lia|].
  change (f x + sum_list_with f l ≤ c + length l * c)%nat.
  pose proof (Hf x (list_elem_of_here _ _)).
  assert (sum_list_with f l ≤ length l * c)%nat; [|lia].
  apply IH. intros y Hy. apply Hf. by right.
Qed.

Lemma weight_app network q1 q2 :
  weight network (q1 ++ q2) = (weight network q1 + weight network q2)%nat.
Proof. unfold weight. apply sum_list_with_app. Qed.

Lemma weight_next_states network timeLimit state :
  (weight network (next_states network timeLimit state)
   < search_size (remaining network state))%nat.
Proof.
  pose proof (next_states_length network timeLimit state) as Hlen.
  destruct (remaining network state) as [|r] eqn:Hr.
  - destruct (next_states network timeLimit state); simpl in *; [lia|lia].
  - assert (weight network (next_states network timeLimit state)
            ≤ length (next_states network timeLimit state) * search_size r)%nat.
    { apply sum_list_bound. intros s' Hs'. simpl.
      apply search_size_mono.
      apply next_states_remaining in Hs'. lia. }
    change (search_size (S r)) with (1 + S r * search_size r)%nat. nia.
Qed.

Lemma part1_step_spec network timeLimit s s' :
  part1_step network timeLimit s = Some s' →
  ∃ state rest,
    states s = state :: rest ∧
    states s' = rest ++ next_states network timeLimit state ∧
    ((next_states network timeLimit state ≠ [] ∧ max s' = max s) ∨
     (next_states network timeLimit state = [] ∧
      max s' = N.max (max s) (totalPressureRelieved network state timeLimit))).
Proof.
  unfold part1_step. destruct (states s) as [|state rest]; [done|].
  intros Hstep. exists state, rest. split; [done|].
  destruct (decide (next_states network timeLimit state = [])) as [Hnil|Hcons].
  - rewrite bool_decide_true in Hstep by done. simpl in Hstep.
    destruct (N.ltb_spec (max s) (totalPressureRelieved network state timeLimit));
      injection Hstep as <-; simpl; (split; [done|]); right; (split; [done|]); lia.
  - rewrite bool_decide_false in Hstep by done. simpl in Hstep.
    injection Hstep as <-. simpl. split; [done|]. by left.
Qed.

Lemma part1_step_None network timeLimit s :
  part1_step network timeLimit s = None ↔ states s = [].
Proof.
  unfold part1_step. destruct (states s); [done|].
  split; [|done]. by repeat case_match.
Qed.

Lemma part1_step_weight network timeLimit s s' :
  part1_step network timeLimit s = Some s' →
  (weight network (states s') < weight network (states s))%nat.
Proof.
  intros (state & rest & -> & -> & _)%part1_step_spec.
  rewrite weight_app.
  pose proof (weight_next_states network timeLimit state).
  unfold weight at 3. simpl. fold (weight network rest). lia.
Qed.

Lemma part1_loop_terminates fuel network timeLimit s :
  (weight network (states s) < fuel)%nat →
  is_Some (part1_loop fuel network timeLimit s).
Proof.
  revert s. induction fuel as [|fuel IH]; intros s Hw; [lia|]. simpl.
  destruct (part1_step network timeLimit s) as [s'|] eqn:Hstep; [|eauto].
  apply IH. apply part1_step_weight in Hstep. lia.
Qed.

(** ** What the loop of the search returns *)

Lemma descends_trans network timeLimit s t u :
  descends network timeLimit s t → descends network timeLimit t u →
  descends network timeLimit s u.
Proof.
  induction 1 as [|s s' t Hs' Hst IH]; [done|].
  intros Htu. apply descends_push with s'; auto.
Qed.

Lemma descends_mono network T1 T2 s t :
  T1 ≤ T2 → descends network T1 s t → descends network T2 s t.
Proof.
  intros HT. induction 1 as [|s s' t Hs' Hst IH]; [constructor|].
  apply descends_push with s'; [by apply (next_states_mono _ T1)|done].
Qed.

Lemma descends_opened network timeLimit s t :
  descends network timeLimit s t → openedValves s ⊆ openedValves t.
Proof.
  induction 1 as [|s s' t Hs' Hst IH]; [done|].
  etrans; [by eapply next_states_opened|done].
Qed.

Lemma part1_loop_spec fuel network timeLimit s s' :
  part1_loop fuel network timeLimit s = Some s' →
  max s ≤ max s' ∧
  (∀ q t, q ∈ states s → descends network timeLimit q t →
          terminal network timeLimit t →
          totalPressureRelieved network t timeLimit ≤ max s') ∧
  (max s' = max s ∨
   ∃ q t, q ∈ states s ∧ descends network timeLimit q t ∧
          terminal network timeLimit t ∧
          max s' = totalPressureRelieved network t timeLimit).
Proof.
  revert s. induction fuel as [|fuel IH]; intros s; simpl; [done|].
  destruct (part1_step network timeLimit s) as [s1|] eqn:Hstep.
  2:{ intros [= <-]. apply part1_step_None in Hstep.
      split; [lia|]. split; [|by left].
      intros q t Hq. rewrite Hstep in Hq. inversion Hq. }
  intros Hloop. apply IH in Hloop as (Hmax & Hall & Hsome).
  apply part1_step_spec in Hstep
    as (state & rest & Hs & Hs1 & [[Hpushed Hmax1]|[Hpushed Hmax1]]).
  - split; [lia|]. split.
    + intros q t Hq Hqt Ht. rewrite Hs in Hq.
      apply elem_of_cons in Hq as [->|Hq].
      * destruct Hqt as [q|q q' t Hq' Hq't]; [done|].
        apply (Hall q' t); [|done|done].
        rewrite Hs1. apply elem_of_app. by right.
      * apply (Hall q t); [|done|done].
        rewrite Hs1. apply elem_of_app. by left.
    + destruct Hsome as [Heq|(q & t & Hq & Hqt & Ht & Heq)]; [left; lia|].
      right. rewrite Hs1 in Hq. apply elem_of_app in Hq as [Hq|Hq].
      * exists q, t. rewrite Hs. split; [by right|done].
      * exists state, t. rewrite Hs. split; [left|].
        split; [by apply descends_push with q|done].
  - rewrite Hpushed, app_nil_r in Hs1.
    split; [lia|]. split.
    + intros q t Hq Hqt Ht. rewrite Hs in Hq.
      apply elem_of_cons in Hq as [->|Hq].
      * destruct Hqt as [q|q q' t Hq' Hq't]; [lia|].
        rewrite Hpushed in Hq'. inversion Hq'.
      * apply (Hall q t); [|done|done]. by rewrite Hs1.
    + destruct Hsome as [Heq|(q & t & Hq & Hqt & Ht & Heq)].
      * destruct (N.max_spec (max s) (totalPressureRelieved network state timeLimit))
          as [[_ Hm]|[_ Hm]].
        -- right. exists state, state. rewrite Hs.
           split; [left|]. split; [constructor|]. split; [done|]. lia.
        -- left. lia.
      * right. exists q, t. rewrite Hs. rewrite Hs1 in Hq. split; [by right|done].
Qed.

(** From every state the search gets to a state that is scored. *)
Lemma terminal_descendant network timeLimit s :
  ∃ t, descends network timeLimit s t ∧ terminal network timeLimit t.
Proof.
  remember (remaining network s) as r eqn:Hr.
  revert s Hr. induction r as [r IH] using lt_wf_ind. intros s ->.
  destruct (next_states network timeLimit s) as [|s' rest] eqn:Hnext.
  - exists s. split; [constructor|done].
  - assert (Hs' : s' ∈ next_states network timeLimit s) by (rewrite Hnext; left).
    destruct (IH (remaining network s') (next_states_remaining _ _ _ _ Hs') s' eq_refl)
      as (t & Hst & Ht).
    exists t. split; [by apply descends_push with s'|done].
Qed.

Lemma initial_weight (network : ValveNetwork) :
  weight network (states (initial_search "AA")) = search_size (size network).
Proof.
  unfold weight, remaining. simpl.
  rewrite dom_empty_L, difference_empty_L, size_dom. lia.
Qed.

(** The search ends, and returns the best score of the states it scores
    (or 0 when all of them score 0). *)
Lemma part1_spec (network : ValveNetwork) timeLimit :
  is_Some (network !! "AA") →
  ∃ s, part1 network timeLimit = Some (Ok (part1_report network s, max s)) ∧
       (∀ t, descends network timeLimit initial_state t →
             terminal network timeLimit t →
             totalPressureRelieved network t timeLimit ≤ max s) ∧
       (max s = 0 ∨
        ∃ t, descends network timeLimit initial_state t ∧
             terminal network timeLimit t ∧
             max s = totalPressureRelieved network t timeLimit).
Proof.
  intros [v Hv]. unfold part1, map_at. rewrite Hv.
  destruct (part1_loop_terminates (S (search_size (size network))) network timeLimit
              (initial_search "AA")) as [s Hs].
  { rewrite initial_weight. lia. }
  rewrite Hs. exists s. split; [done|].
  apply part1_loop_spec in Hs as (_ & Hall & Hsome). split.
  - intros t Hdesc Ht. apply (Hall initial_state t); [left|done|done].
  - destruct Hsome as [Heq|(q & t & Hq & Hqt & Ht & Heq)]; [by left|].
    right. exists t. apply list_elem_of_singleton in Hq as ->. done.
Qed.

(** ** Scores grow with the opened valves and with the budget *)

Lemma reward_mono network T1 T2 kv :
  T1 ≤ T2 → reward network T1 kv ≤ reward network T2 kv.
Proof.
  intros HT. unfold reward.
  destruct (N.leb_spec T1 kv.2), (N.leb_spec T2 kv.2);
    [lia|apply N.le_0_l|lia|].
  apply N.mul_le_mono_l. lia.
Qed.

Lemma total_reward_mono network T1 T2 (opened1 opened2 : gmap string N) :
  T1 ≤ T2 → opened1 ⊆ opened2 →
  total_reward network T1 opened1 ≤ total_reward network T2 opened2.
Proof.
  intros HT Hsub. unfold total_reward.
  apply sumN_fmap_submseteq; [|by apply map_to_list_submseteq].
  intros kv. by apply reward_mono.
Qed.

Lemma reward_le_rate network timeLimit kv :
  reward network timeLimit kv ≤ timeLimit * flowRate (network !!! kv.1).
Proof.
  unfold reward. destruct (N.leb_spec timeLimit kv.2); [apply N.le_0_l|].
  rewrite (N.mul_comm timeLimit). apply N.mul_le_mono_l. lia.
Qed.

Lemma opened_rate_bound (opened : gmap string N) :
  ∀ network : ValveNetwork,
    sumN ((λ kv : string * N, flowRate (network !!! kv.1)) <$> map_to_list opened)
    ≤ total_rate network.
Proof.
  induction opened as [|i x m Hm IH] using map_ind; intros network.
  - rewrite map_to_list_empty. simpl. lia.
  - rewrite (sumN_perm _ _ (fmap_Permutation _ _ _ (map_to_list_insert m i x Hm))).
    sum_cons. simpl.
    destruct (network !! i) as [v|] eqn:Hi.
    + unfold total_rate.
      rewrite <- (sumN_perm _ _ (fmap_Permutation _ _ _ (map_to_list_delete network i v Hi))).
      sum_cons. simpl.
      rewrite (lookup_total_correct network i v Hi).
      apply N.add_le_mono_l.
      etrans; [|apply (IH (delete i network))].
      apply N.eq_le_incl, sumN_fmap_ext.
      intros [k t] Hk. simpl. apply elem_of_map_to_list in Hk.
      rewrite lookup_total_delete_ne; [done|]. intros ->. congruence.
    + rewrite (lookup_total_alt network i), Hi. simpl.
      apply (IH network).
Qed.

Lemma total_reward_bound network timeLimit (opened : gmap string N) :
  total_reward network timeLimit opened ≤ timeLimit * total_rate network.
Proof.
  unfold total_reward.
  etrans; [|apply N.mul_le_mono_l, (opened_rate_bound opened network)].
  rewrite <- sumN_fmap_scale.
  apply sumN_fmap_submseteq; [|done].
  intros kv. apply reward_le_rate.
Qed.

(** ** The claims about the search *)

Lemma part1_trace_S n network timeLimit s :
  part1_trace (S n) network timeLimit s =
  match part1_step network timeLimit (part1_trace n network timeLimit s) with
  | None => part1_trace n network timeLimit s
  | Some s' => s'
  end.
Proof.
  revert s. induction n as [|n IH]; intros s.
  - simpl. by destruct (part1_step network timeLimit s).
  - change (part1_trace (S (S n)) network timeLimit s) with
      (match part1_step network timeLimit s with
       | None => s
       | Some s' => part1_trace (S n) network timeLimit s'
       end).
    change (part1_trace (S n) network timeLimit s) with
      (match part1_step network timeLimit s with
       | None => s
       | Some s' => part1_trace n network timeLimit s'
       end).
    destruct (part1_step network timeLimit s) as [s'|] eqn:Hstep.
    + apply IH.
    + by rewrite Hstep.
Qed.

(** C1, as the code has it.  A state is pushed only for a dequeued state
    whose own elapsed time is below the limit; its elapsed time is that time
    plus the distance plus 1, and nothing keeps the sum below the limit: it
    is at most the limit plus the distance just travelled. *)
Theorem pushed_states_leave_before_the_limit network timeLimit n state :
  state ∈ states (part1_trace n network timeLimit (initial_search "AA")) →
  state = initial_state ∨
  ∃ m parent distance,
    (m < n)%nat ∧
    parent ∈ states (part1_trace m network timeLimit (initial_search "AA")) ∧
    elapsedTime parent < timeLimit ∧
    distances (network !!! current parent) !! current state = Some distance ∧
    openedValves parent !! current state = None ∧
    0 < flowRate (network !!! current state) ∧
    elapsedTime state = wrap (elapsedTime parent + distance + 1) ∧
    openedValves state = <[current state := elapsedTime state]> (openedValves parent) ∧
    (elapsedTime parent + distance + 1 < SIZE_MODULUS →
     elapsedTime state ≤ timeLimit + distance).
Proof.
  revert state. induction n as [|n IH]; intros state.
  - simpl. intros ->%list_elem_of_singleton. by left.
  - rewrite part1_trace_S.
    assert (Hold : state ∈ states (part1_trace n network timeLimit (initial_search "AA")) →
              state = initial_state ∨
              ∃ m parent distance,
                (m < S n)%nat ∧
                parent ∈ states (part1_trace m network timeLimit (initial_search "AA")) ∧
                elapsedTime parent < timeLimit ∧
                distances (network !!! current parent) !! current state = Some distance ∧
                openedValves parent !! current state = None ∧
                0 < flowRate (network !!! current state) ∧
                elapsedTime state = wrap (elapsedTime parent + distance + 1) ∧
                openedValves state
                  = <[current state := elapsedTime state]> (openedValves parent) ∧
                (elapsedTime parent + distance + 1 < SIZE_MODULUS →
                 elapsedTime state ≤ timeLimit + distance)).
    { intros Hin. destruct (IH state Hin) as [?|(m & parent & distance & Hm & Hrest)];
        [by left|].
      right. exists m, parent, distance. split; [lia|done]. }
    destruct (part1_step network timeLimit
                (part1_trace n network timeLimit (initial_search "AA")))
      as [s'|] eqn:Hstep; [|done].
    apply part1_step_spec in Hstep as (parent & rest & Hs & -> & _).
    intros [Hin|Hin]%elem_of_app.
    + apply Hold. rewrite Hs. by right.
    + apply elem_of_next_states in Hin
        as (target & distance & Hd & Hopen & Hrate & Htime & ->).
      right. exists n, parent, distance. simpl.
      split; [lia|]. split; [rewrite Hs; left|].
      repeat (split; [done|]).
      intros Hsmall. rewrite wrap_small by done. lia.
Qed.

(** C3, as the code has it.  For a network that holds the start valve and
    whose flow rates, summed and multiplied by the larger budget, fit
    [size_t], the search returns for the larger budget at least what it
    returns for the smaller one. *)
Theorem part1_monotone_when_rewards_fit (network : ValveNetwork) T1 T2 :
  is_Some (network !! "AA") →
  T1 ≤ T2 →
  T2 * total_rate network < SIZE_MODULUS →
  ∃ report1 answer1 report2 answer2,
    part1 network T1 = Some (Ok (report1, answer1)) ∧
    part1 network T2 = Some (Ok (report2, answer2)) ∧
    answer1 ≤ answer2.
Proof.
  intros HAA HT Hfit.
  destruct (part1_spec network T1 HAA) as (s1 & Hp1 & _ & Hsome1).
  destruct (part1_spec network T2 HAA) as (s2 & Hp2 & Hall2 & _).
  exists (part1_report network s1), (max s1), (part1_report network s2), (max s2).
  split; [done|]. split; [done|].
  destruct Hsome1 as [->|(t1 & Hdesc1 & _ & ->)]; [apply N.le_0_l|].
  destruct (terminal_descendant network T2 t1) as (t2 & Hdesc2 & Hterm2).
  etrans; [|apply (Hall2 t2); [|done]].
  2:{ apply descends_trans with t1; [by apply (descends_mono _ T1)|done]. }
  rewrite !totalPressureRelieved_wrap.
  rewrite (wrap_small (total_reward network T2 (openedValves t2))).
  2:{ pose proof (total_reward_bound network T2 (openedValves t2)). lia. }
  etrans; [apply wrap_le|].
  apply total_reward_mono; [done|]. by apply (descends_opened network T2).
Qed.

Lemma total_rate_zero (network : ValveNetwork) :
  (∀ l valve, network !! l = Some valve → flowRate valve = 0) →
  total_rate network = 0.
Proof.
  intros Hzero. unfold total_rate.
  rewrite (sumN_fmap_ext _ (λ kv, 0 * flowRate kv.2)).
  - rewrite sumN_fmap_scale. lia.
  - intros [l valve] Hin. apply elem_of_map_to_list in Hin. simpl.
    rewrite (Hzero l valve Hin). lia.
Qed.

(** C8, as the code has it.  For a network that holds the start valve and
    none of whose valves has a flow rate above 0, the search returns 0
    whatever the budget. *)
Theorem part1_zero_without_rewards (network : ValveNetwork) timeLimit :
  is_Some (network !! "AA") →
  (∀ l valve, network !! l = Some valve → flowRate valve = 0) →
  ∃ report, part1 network timeLimit = Some (Ok (report, 0)).
Proof.
  intros HAA Hzero.
  destruct (part1_spec network timeLimit HAA) as (s & Hp & _ & Hsome).
  exists (part1_report network s). rewrite Hp. do 3 f_equal.
  destruct Hsome as [->|(t & _ & _ & ->)]; [done|].
  rewrite totalPressureRelieved_wrap.
  pose proof (total_reward_bound network timeLimit (openedValves t)) as Hle.
  rewrite (total_rate_zero network Hzero), N.mul_0_r in Hle.
  assert (total_reward network timeLimit (openedValves t) = 0) as -> by lia.
  done.
Qed.

Lemma total_reward_empty network timeLimit :
  total_reward network timeLimit ∅ = 0.
Proof. unfold total_reward. by rewrite map_to_list_empty. Qed.

Lemma total_reward_singleton network timeLimit target openedAt :
  total_reward network timeLimit {[target := openedAt]}
  = reward network timeLimit (target, openedAt).
Proof.
  unfold total_reward. rewrite map_to_list_singleton. simpl. lia.
Qed.

(** X4.  When no valve with a positive flow rate can be reached and opened
    from the start within the budget (the budget is smaller than its
    distance plus 1), the search returns 0. *)
Theorem part1_zero_when_nothing_is_in_reach (network : ValveNetwork) timeLimit :
  is_Some (network !! "AA") →
  (∀ target distance,
     distances (network !!! "AA") !! target = Some distance →
     0 < flowRate (network !!! target) →
     timeLimit < distance + 1 ∧ distance + 1 < SIZE_MODULUS) →
  ∃ report, part1 network timeLimit = Some (Ok (report, 0)).
Proof.
  intros HAA Hfar.
  destruct (part1_spec network timeLimit HAA) as (s & Hp & _ & Hsome).
  exists (part1_report network s). rewrite Hp. do 3 f_equal.
  destruct Hsome as [->|(t & Hdesc & _ & ->)]; [done|].
  rewrite totalPressureRelieved_wrap.
  assert (total_reward network timeLimit (openedValves t) = 0) as ->; [|done].
  inversion Hdesc as [|s0 s' t0 Hs' Hrest]; subst.
  - apply total_reward_empty.
  - apply elem_of_next_states in Hs'
      as (target & distance & Hd & _ & Hrate & _ & ->).
    destruct (Hfar target distance Hd Hrate) as [Hlate Hsmall].
    simpl in Hlate, Hsmall.
    assert (Helapsed : wrap (0 + distance + 1) = distance + 1).
    { rewrite N.add_0_l. by apply wrap_small. }
    inversion Hrest as [|s0 s'' t0 Hs'' Hrest']; subst.
    + simpl. rewrite Helapsed, insert_empty, total_reward_singleton.
      unfold reward. simpl. destruct (N.leb_spec timeLimit (distance + 1)); [done|lia].
    + apply elem_of_next_states in Hs'' as (_ & _ & _ & _ & _ & Htime & _).
      simpl in Htime. rewrite Helapsed in Htime. lia.
Qed.

(** ** The claim about the program *)

Lemma main_loop_app l1 l2 c0 c1 :
  main_loop l1 c0 = Some (c1, None) →
  main_loop (l1 ++ l2) c0 = main_loop l2 c1.
Proof.
  revert c0. induction l1 as [|input l1 IH]; intros c0; simpl.
  - by intros [= ->].
  - destruct input as [valves|e]; [|done].
    destruct (parse valves) as [network|e]; [|done].
    destruct (part1 network 30) as [[[report answer]|e]|]; [|done|done].
    apply IH.
Qed.

Lemma main_loop_throw failing after c0 c1 ex :
  main_loop [failing] c0 = Some (c1, Some ex) →
  main_loop (failing :: after) c0 = Some (c1, Some ex).
Proof.
  simpl. destruct failing as [valves|e]; [|done].
  destruct (parse valves) as [network|e]; [|done].
  destruct (part1 network 30) as [[[report answer]|e]|]; done.
Qed.

(** C9, as the code has it.  The [try] block is around the whole loop: the
    first file whose processing throws ends the program.  What was written
    until then stays on the standard output, the error goes to the standard
    error, the exit status is 1, and the files after it are not looked at. *)
Theorem main_stops_at_the_first_error before failing after cout cout' ex :
  main_loop before [] = Some (cout, None) →
  main_loop [failing] cout = Some (cout', Some ex) →
  main (before ++ failing :: after)
  = Some (mkOutcome cout' [text "ERROR: "; text (what ex); endl] 1).
Proof.
  intros Hbefore Hfailing. unfold main.
  rewrite (main_loop_app _ _ _ _ Hbefore).
  by rewrite (main_loop_throw _ after _ _ _ Hfailing).
Qed.

(** C10.  Without a valve stored under "AA", [part1] throws the
    [out_of_range] of [network.at("AA")]: no state is created, nothing is
    printed, no score is returned.  A file whose network has no such valve
    therefore ends the program, after the label of the answer and before any
    answer. *)
Theorem part1_without_start_valve_throws :
  (∀ (network : ValveNetwork) timeLimit,
     network !! "AA" = None →
     part1 network timeLimit = Some (Throw (out_of_range "unordered_map::at"))) ∧
  (∀ (valves network : ValveNetwork) rest,
     parse valves = Ok network →
     valves !! "AA" = None →
     network !! "AA" = None ∧
     main (Ok valves :: rest)
     = Some (mkOutcome [text "Part 1: "]
               [text "ERROR: "; text "unordered_map::at"; endl] 1)).
Proof.
  assert (Hthrow : ∀ (network : ValveNetwork) timeLimit,
     network !! "AA" = None →
     part1 network timeLimit = Some (Throw (out_of_range "unordered_map::at"))).
  { intros network timeLimit HAA. unfold part1, map_at. by rewrite HAA. }
  split; [done|].
  intros valves network rest Hparse HAA.
  assert (HAA' : network !! "AA" = None).
  { pose proof (parse_spec valves) as Hspec. rewrite Hparse in Hspec.
    specialize (Hspec "AA"). unfold parsed in Hspec. by rewrite HAA in Hspec. }
  split; [done|].
  unfold main. simpl. by rewrite Hparse, (Hthrow network 30 HAA').
Qed.

End Day16.

(** ** The score does not depend on the order of iteration *)

Lemma next_states_any_order ho1 ho2 network timeLimit state s' :
  (∀ A l, ho1 A l ≡ₚ l) → (∀ A l, ho2 A l ≡ₚ l) →
  s' ∈ next_states ho1 network timeLimit state →
  s' ∈ next_states ho2 network timeLimit state.
Proof.
  intros H1 H2 Hs'.
  apply (elem_of_next_states ho2 H2).
  by apply (elem_of_next_states ho1 H1).
Qed.

Lemma descends_any_order ho1 ho2 network timeLimit s t :
  (∀ A l, ho1 A l ≡ₚ l) → (∀ A l, ho2 A l ≡ₚ l) →
  descends ho1 network timeLimit s t → descends ho2 network timeLimit s t.
Proof.
  intros H1 H2. induction 1 as [|s s' t Hs' Hst IH]; [constructor|].
  apply descends_push with s'; [by apply (next_states_any_order ho1)|done].
Qed.

Lemma terminal_any_order ho1 ho2 network timeLimit s :
  (∀ A l, ho1 A l ≡ₚ l) → (∀ A l, ho2 A l ≡ₚ l) →
  terminal ho1 network timeLimit s → terminal ho2 network timeLimit s.
Proof.
  intros H1 H2 Hterm. unfold terminal in *.
  destruct (next_states ho2 network timeLimit s) as [|s' rest] eqn:Hnext; [done|].
  assert (Hs' : s' ∈ next_states ho1 network timeLimit s).
  { apply (next_states_any_order ho2); [done|done|]. rewrite Hnext. left. }
  rewrite Hterm in Hs'. inversion Hs'.
Qed.

Lemma part1_answer_le ho1 ho2 (network : ValveNetwork) timeLimit r1 a1 r2 a2 :
  (∀ A l, ho1 A l ≡ₚ l) → (∀ A l, ho2 A l ≡ₚ l) →
  part1 ho1 network timeLimit = Some (Ok (r1, a1)) →
  part1 ho2 network timeLimit = Some (Ok (r2, a2)) →
  a1 ≤ a2.
Proof.
  intros H1 H2 Hp1 Hp2.
  assert (HAA : is_Some (network !! "AA")).
  { unfold part1, map_at in Hp1. destruct (network !! "AA"); [eauto|done]. }
  destruct (part1_spec ho1 H1 network timeLimit HAA) as (s1 & Hs1 & _ & Hsome).
  destruct (part1_spec ho2 H2 network timeLimit HAA) as (s2 & Hs2 & Hall & _).
  rewrite Hp1 in Hs1. rewrite Hp2 in Hs2.
  injection Hs1 as _ ->. injection Hs2 as _ ->.
  destruct Hsome as [->|(t & Hdesc & Hterm & ->)]; [apply N.le_0_l|].
  rewrite (totalPressureRelieved_wrap ho1 H1),
    <- (totalPressureRelieved_wrap ho2 H2).
  apply Hall.
  - by apply (descends_any_order ho1).
  - by apply (terminal_any_order ho1).
Qed.

Lemma part1_answer_unique ho1 ho2 (network : ValveNetwork) timeLimit r1 a1 r2 a2 :
  (∀ A l, ho1 A l ≡ₚ l) → (∀ A l, ho2 A l ≡ₚ l) →
  part1 ho1 network timeLimit = Some (Ok (r1, a1)) →
  part1 ho2 network timeLimit = Some (Ok (r2, a2)) →
  a1 = a2.
Proof.
  intros H1 H2 Hp1 Hp2.
  pose proof (part1_answer_le ho1 ho2 network timeLimit r1 a1 r2 a2 H1 H2 Hp1 Hp2).
  pose proof (part1_answer_le ho2 ho1 network timeLimit r2 a2 r1 a1 H2 H1 Hp2 Hp1).
  lia.
Qed.

(** X1.  For a network that holds the start valve, the score that [part1]
    returns is one and the same for every order in which the maps are
    iterated (the state it reports may differ). *)
Theorem part1_answer_independent_of_order (network : ValveNetwork) timeLimit :
  is_Some (network !! "AA") →
  ∃ answer, ∀ ho, (∀ A l, ho A l ≡ₚ l) →
    ∃ report, part1 ho network timeLimit = Some (Ok (report, answer)).
Proof.
  intros HAA.
  destruct (part1_spec listed_order (λ A l, reflexivity l) network timeLimit HAA)
    as (s0 & Hs0 & _).
  exists (max s0). intros ho Hperm.
  destruct (part1_spec ho Hperm network timeLimit HAA) as (s & Hs & _).
  exists (part1_report ho network s). rewrite Hs. do 3 f_equal.
  exact (part1_answer_unique ho listed_order network timeLimit _ _ _ _
           Hperm (λ A l, reflexivity l) Hs Hs0).
Qed.

(** * The text that is read *)

Lemma string_app_cons c a b : String c a +:+ b = String c (a +:+ b).
Proof. reflexivity. Qed.

Lemma string_app_nil_r a : a +:+ "" = a.
Proof. induction a as [|c a IH]; [done|]. by rewrite string_app_cons, IH. Qed.

Lemma string_app_length a b : String.length (a +:+ b) = (String.length a + String.length b)%nat.
Proof. induction a as [|c a IH]; [done|]. rewrite string_app_cons. simpl. by rewrite IH. Qed.

Lemma string_app_assoc a b c : (a +:+ b) +:+ c = a +:+ (b +:+ c).
Proof. induction a as [|x a IH]; [done|]. by rewrite !string_app_cons, IH. Qed.

Lemma size_app a b : string_size (a +:+ b) = string_size a + string_size b.
Proof. unfold string_size. rewrite string_app_length. lia. Qed.

Lemma drop_app a b : string_drop (String.length a) (a +:+ b) = b.
Proof. induction a as [|c a IH]; [by destruct b|]. by rewrite string_app_cons. Qed.

Lemma substring_app a b n :
  String.substring (String.length a) n (a +:+ b) = String.substring 0 n b.
Proof. induction a as [|c a IH]; [done|]. rewrite string_app_cons. simpl. apply IH. Qed.

Lemma substring_0_app a b :
  String.substring 0 (String.length a) (a +:+ b) = a.
Proof.
  induction a as [|c a IH]; [by destruct b|]. rewrite string_app_cons. simpl. by rewrite IH.
Qed.

Lemma substring_0_all a n :
  (String.length a <= n)%nat → String.substring 0 n a = a.
Proof.
  revert n. induction a as [|c a IH]; intros n Hn; [by destruct n|].
  destruct n as [|n]; simpl in *; [lia|]. rewrite IH; [done|lia].
Qed.

Lemma prefix_app needle rest : String.prefix needle (needle +:+ rest) = true.
Proof.
  induction needle as [|c needle IH]; [by destruct rest|].
  rewrite string_app_cons. simpl. by destruct (ascii_dec c c).
Qed.

Lemma prefix_inv needle s :
  String.prefix needle s = true → ∃ rest, s = needle +:+ rest.
Proof.
  revert s. induction needle as [|c needle IH]; intros s; [by exists s|].
  destruct s as [|c' s]; simpl; [done|].
  destruct (ascii_dec c c') as [<-|]; [|done].
  intros [rest ->]%IH. by exists rest.
Qed.

Lemma prefix_length needle s :
  String.prefix needle s = true → (String.length needle <= String.length s)%nat.
Proof. intros [rest ->]%prefix_inv. rewrite string_app_length. lia. Qed.

Lemma prefix_app_false needle a b :
  String.prefix needle a = false →
  (String.length needle <= String.length a)%nat →
  String.prefix needle (a +:+ b) = false.
Proof.
  revert a. induction needle as [|c needle IH]; intros a; [by destruct a|].
  destruct a as [|c' a]; [simpl; lia|]. rewrite string_app_cons. simpl.
  destruct (ascii_dec c c'); [|done]. intros H1 H2. apply IH; [done|lia].
Qed.

Lemma find_in_nil needle :
  find_in needle "" = if String.prefix needle "" then Some 0%nat else None.
Proof. done. Qed.

Lemma find_in_cons needle c s :
  find_in needle (String c s) =
  if String.prefix needle (String c s) then Some 0%nat else S <$> find_in needle s.
Proof. done. Qed.

Lemma find_in_bound needle s i :
  find_in needle s = Some i → (i + String.length needle <= String.length s)%nat.
Proof.
  revert i. induction s as [|c s IH]; intros i.
  - rewrite find_in_nil. destruct (String.prefix needle "") eqn:Hp; [|done].
    intros [= <-]. by apply prefix_length in Hp.
  - rewrite find_in_cons. destruct (String.prefix needle (String c s)) eqn:Hp.
    + intros [= <-]. by apply prefix_length in Hp.
    + destruct (find_in needle s) as [j|]; [|done]. intros [= <-].
      specialize (IH j eq_refl). simpl. lia.
Qed.

Lemma find_in_app_l needle a b i :
  find_in needle a = Some i → find_in needle (a +:+ b) = Some i.
Proof.
  revert i. induction a as [|c a IH]; intros i.
  - rewrite find_in_nil. destruct (String.prefix needle "") eqn:Hp; [|done]. intros [= <-].
    destruct needle; [|done]. by destruct b.
  - rewrite string_app_cons, !find_in_cons.
    destruct (String.prefix needle (String c a)) eqn:Hp.
    + intros [= <-]. apply prefix_inv in Hp as [rest Hp].
      rewrite <- string_app_cons, Hp, string_app_assoc, prefix_app. done.
    + destruct (find_in needle a) as [j|] eqn:Hj; [|done]. intros [= <-].
      rewrite <- string_app_cons, prefix_app_false; [|done|].
      * by rewrite (IH j).
      * apply find_in_bound in Hj. simpl. lia.
Qed.

Lemma find_in_here needle rest : find_in needle (needle +:+ rest) = Some 0%nat.
Proof.
  destruct (needle +:+ rest) eqn:E.
  - rewrite find_in_nil, <- E, prefix_app. done.
  - rewrite find_in_cons, <- E, prefix_app. done.
Qed.

Lemma prefix_cons_ne c needle c' s :
  c ≠ c' → String.prefix (String c needle) (String c' s) = false.
Proof. intros Hne. simpl. by destruct (ascii_dec c c'). Qed.

Lemma find_in_absent c needle s :
  mentions c s = false → find_in (String c needle) s = None.
Proof.
  induction s as [|c' s IH]; [done|]. simpl mentions.
  intros [Hc Hs]%orb_false_iff. apply Ascii.eqb_neq in Hc.
  by rewrite find_in_cons, prefix_cons_ne, IH.
Qed.

Lemma find_in_skip c needle a rest :
  mentions c a = false →
  find_in (String c needle) (a +:+ String c needle +:+ rest) = Some (String.length a).
Proof.
  induction a as [|c' a IH].
  - intros _. exact (find_in_here (String c needle) rest).
  - simpl mentions. intros [Hc Hs]%orb_false_iff. apply Ascii.eqb_neq in Hc.
    by rewrite string_app_cons, find_in_cons, prefix_cons_ne, IH.
Qed.

Lemma mentions_app c a b : mentions c (a +:+ b) = mentions c a || mentions c b.
Proof.
  induction a as [|c' a IH]; [done|]. rewrite string_app_cons. simpl.
  by rewrite IH, orb_assoc.
Qed.

Lemma find_at a rest needle :
  find (a +:+ rest) needle (string_size a) =
  match find_in needle rest with
  | Some i => string_size a + N.of_nat i
  | None => npos
  end.
Proof.
  unfold find. rewrite size_app.
  destruct (N.ltb_spec (string_size a + string_size rest) (string_size a)); [lia|].
  unfold string_size at 1. by rewrite Nat2N.id, drop_app.
Qed.

Lemma find_0 s needle :
  find s needle 0 =
  match find_in needle s with Some i => N.of_nat i | None => npos end.
Proof. apply (find_at "" s needle). Qed.

Lemma drop_length n s :
  (n <= String.length s)%nat →
  String.length (string_drop n s) = (String.length s - n)%nat.
Proof.
  revert s. induction n as [|n IH]; intros s Hn; simpl; [lia|].
  destruct s as [|c s]; simpl in *; [lia|]. apply IH. lia.
Qed.

Lemma find_bounds s needle pos :
  find s needle pos = npos ∨
  (pos <= find s needle pos ∧ find s needle pos + string_size needle <= string_size s).
Proof.
  unfold find. destruct (N.ltb_spec (string_size s) pos); [by left|].
  destruct (find_in _ _) as [i|] eqn:Hi; [|by left]. right.
  apply find_in_bound in Hi. rewrite drop_length in Hi by (unfold string_size in *; lia).
  unfold string_size in *. lia.
Qed.

Lemma substr_mid a b c n :
  n = string_size b → substr (a +:+ b +:+ c) (string_size a) n = Ok b.
Proof.
  intros ->. unfold substr. rewrite !size_app.
  destruct (N.ltb_spec (string_size a + (string_size b + string_size c)) (string_size a));
    [lia|].
  f_equal. rewrite N.min_l by lia. unfold string_size.
  by rewrite !Nat2N.id, substring_app, substring_0_app.
Qed.

Lemma substr_end a b n :
  string_size b <= n → substr (a +:+ b) (string_size a) n = Ok b.
Proof.
  intros Hn. unfold substr. rewrite !size_app.
  destruct (N.ltb_spec (string_size a + string_size b) (string_size a)); [lia|].
  f_equal. rewrite N.min_r by lia. unfold string_size.
  rewrite !Nat2N.id, substring_app. apply substring_0_all. lia.
Qed.

Lemma digits_uint d acc rest :
  no_digit_first rest →
  digits acc (NilEmpty.string_of_uint d +:+ rest) = horner d acc.
Proof.
  intros Hrest. revert acc.
  induction d as [|d IH|d IH|d IH|d IH|d IH|d IH|d IH|d IH|d IH|d IH]; intros acc;
    simpl NilEmpty.string_of_uint; rewrite ?string_app_cons; simpl;
    try (rewrite IH; f_equal; lia).
  destruct rest as [|c rest]; [done|]. simpl in *. by rewrite Hrest.
Qed.

Lemma horner_pos d acc : horner d (N.pos acc) = N.pos (Pos.of_uint_acc d acc).
Proof.
  revert acc.
  induction d as [|d IH|d IH|d IH|d IH|d IH|d IH|d IH|d IH|d IH|d IH]; intros acc;
    simpl; [done|..]; rewrite <- IH; f_equal; lia.
Qed.

Lemma horner_0 d : horner d 0 = N.of_uint d.
Proof.
  unfold N.of_uint.
  induction d as [|d IH|d IH|d IH|d IH|d IH|d IH|d IH|d IH|d IH|d IH];
    simpl; [done|done|..]; apply horner_pos.
Qed.

Lemma to_uint_not_nil n : N.to_uint n ≠ Decimal.Nil.
Proof.
  destruct n as [|p]; [done|]. simpl.
  apply (DecimalPos.Unsigned.to_uint_nonnil p).
Qed.

Lemma decimal_digits n rest :
  no_digit_first rest → digits 0 (decimal n +:+ rest) = n.
Proof.
  intros Hrest. unfold decimal, NilZero.string_of_uint.
  pose proof (to_uint_not_nil n) as Hnil.
  destruct (N.to_uint n) eqn:E; [done|..];
    rewrite <- E at 1; rewrite digits_uint, horner_0 ; try done; apply Unsigned.of_to.
Qed.

Lemma npos_eq : npos = 18446744073709551615.
Proof. reflexivity. Qed.

Lemma SIZE_MODULUS_eq : SIZE_MODULUS = 18446744073709551616.
Proof. reflexivity. Qed.

Lemma substr_Ok s pos n :
  pos <= string_size s →
  substr s pos n = Ok (String.substring (N.to_nat pos)
                         (N.to_nat (N.min n (string_size s - pos))) s).
Proof. intros H. unfold substr. by destruct (N.ltb_spec (string_size s) pos); [lia|]. Qed.

Lemma destinations_loop_total line fuel start next done :
  string_size line < npos →
  start <= string_size line →
  next = find line ", " start →
  (N.to_nat (string_size line - start) < fuel)%nat →
  ∃ ds, ds ≠ [] ∧ destinations_loop fuel line start next done = Some (Ok (done ++ ds)).
Proof.
  intros Hsize. revert start next done.
  induction fuel as [|fuel IH]; intros start next done Hstart -> Hfuel; [lia|].
  simpl. destruct (N.eqb_spec start npos) as [->|_]; [lia|].
  rewrite substr_Ok by done.
  destruct (N.eqb_spec (find line ", " start) npos) as [Hn|Hn].
  { eexists [_]. split; [done|]. reflexivity. }
  destruct (find_bounds line ", " start) as [?|[Hle Hfit]]; [done|].
  change (string_size ", ") with 2 in Hfit.
  assert (Hw : wrap (find line ", " start + 2) = find line ", " start + 2).
  { unfold wrap. apply N.mod_small. rewrite SIZE_MODULUS_eq. rewrite npos_eq in Hsize. lia. }
  rewrite Hw.
  destruct (IH (find line ", " start + 2) _ (done ++ [String.substring (N.to_nat start)
             (N.to_nat (N.min (wrap_sub (find line ", " start) start)
                          (string_size line - start))) line]) Hfit eq_refl)
    as (ds & _ & ->); [lia|].
  eexists (_ :: ds). split; [done|]. by rewrite <- List.app_assoc.
Qed.

Lemma initial_start_le line semi :
  string_size line < npos →
  23 <= string_size line →
  (if find line "to valves " semi =? npos
   then wrap (find line "to valve " semi + 9)
   else wrap (find line "to valves " semi + 10)) <= string_size line.
Proof.
  intros Hsize H23. rewrite npos_eq in Hsize.
  destruct (N.eqb_spec (find line "to valves " semi) npos) as [_|Hn].
  - destruct (find_bounds line "to valve " semi) as [->|[_ Hfit]].
    + vm_compute wrap. lia.
    + change (string_size "to valve ") with 9 in Hfit.
      unfold wrap. rewrite N.mod_small; [done|]. rewrite SIZE_MODULUS_eq. lia.
  - destruct (find_bounds line "to valves " semi) as [?|[_ Hfit]]; [done|].
    change (string_size "to valves ") with 10 in Hfit.
    unfold wrap. rewrite N.mod_small; [done|]. rewrite SIZE_MODULUS_eq. lia.
Qed.

(** X5.  Reading a line fails in two ways only.  A line of fewer than 23
    characters, the empty line among them, throws [std::out_of_range]; a
    longer line at whose column 23 no number stands throws the
    [runtime_error] of [parseNumber].  Every other line is taken, whatever
    else it holds: a valve is stored under the characters at columns 6 and
    7, with the number at column 23 as its flow rate and with at least one
    connection; the loop that collects the connections ends within its
    bound and throws nothing. *)
Theorem read_line_fails_only_on_short_or_numberless_lines line valves :
  string_size line < npos →
  (string_size line < 23 →
   ∃ w, read_line line valves = Some (Throw (out_of_range w))) ∧
  (23 <= string_size line → strtoull (string_drop 23 line) = None →
   ∃ w, read_line line valves
        = Some (Throw (runtime_error ("Failed to parse string as number: '"
                                        +:+ w +:+ "'")))) ∧
  (∀ n, 23 <= string_size line → strtoull (string_drop 23 line) = Some n →
   ∃ ds, ds ≠ [] ∧
         read_line line valves
         = Some (Ok (<[name_of line := mkValve n (name_of line) ds ∅]> valves))).
Proof.
  intros Hsize. unfold read_line, view_substr, view_of, parseNumber.
  cbn [data view_size]. split; [|split].
  - intros Hshort. unfold substr.
    destruct (N.ltb_spec (string_size line) 6); [by eexists|].
    destruct (N.ltb_spec (string_size line) 23); [by eexists|lia].
  - intros Hlong Hnum. rewrite substr_Ok by lia.
    destruct (N.ltb_spec (string_size line) 23); [lia|].
    cbn [data view_size]. change (N.to_nat 23) with 23%nat. rewrite Hnum. by eexists.
  - intros n Hlong Hnum. rewrite substr_Ok by lia.
    destruct (N.ltb_spec (string_size line) 23); [lia|].
    cbn [data view_size]. change (N.to_nat 23) with 23%nat. rewrite Hnum.
    edestruct (destinations_loop_total line (S (String.length line))) as (ds & Hds & ->);
      [done|by apply (initial_start_le line (find line ";" 0))|reflexivity| |].
    { unfold string_size. lia. }
    exists ds. split; [done|]. cbn [label]. unfold name_of.
    replace (N.to_nat (N.min 2 (string_size line - 6))) with 2%nat by lia.
    done.
Qed.


Lemma string_app_nil_l b : "" +:+ b = b.
Proof. reflexivity. Qed.

Ltac expose := rewrite ?string_app_cons, ?string_app_nil_l.

Lemma find_in_Some needle s i :
  find_in needle s = Some i →
  ∃ pre post, s = pre +:+ needle +:+ post ∧ String.length pre = i.
Proof.
  revert i. induction s as [|c s IH]; intros i.
  - rewrite find_in_nil. destruct (String.prefix needle "") eqn:Hp; [|done].
    intros [= <-]. apply prefix_inv in Hp as [rest Hp]. by exists "", rest.
  - rewrite find_in_cons. destruct (String.prefix needle (String c s)) eqn:Hp.
    + intros [= <-]. apply prefix_inv in Hp as [rest Hp]. by exists "", rest.
    + destruct (find_in needle s) as [j|]; [|done]. intros [= <-].
      destruct (IH j eq_refl) as (pre & post & -> & <-).
      by exists (String c pre), post.
Qed.

Lemma find_in_lacks c needle s :
  mentions c needle = true → mentions c s = false → find_in needle s = None.
Proof.
  intros Hneedle Hs. destruct (find_in needle s) as [i|] eqn:Hi; [|done].
  apply find_in_Some in Hi as (pre & post & -> & _).
  rewrite !mentions_app, Hneedle in Hs. by destruct (mentions c pre).
Qed.

Lemma uint_digits c d :
  digit_value c = None → mentions c (NilEmpty.string_of_uint d) = false.
Proof.
  intros Hc.
  induction d as [|d IH|d IH|d IH|d IH|d IH|d IH|d IH|d IH|d IH|d IH];
    simpl; [done|..]; rewrite IH, orb_false_r; apply Ascii.eqb_neq; by intros ->.
Qed.

Lemma decimal_digits_only c n :
  digit_value c = None → mentions c (decimal n) = false.
Proof.
  intros Hc. unfold decimal, NilZero.string_of_uint.
  pose proof (to_uint_not_nil n) as Hnil.
  destruct (N.to_uint n) eqn:E; [done|..]; rewrite <- E; by apply uint_digits.
Qed.

Lemma decimal_head n :
  ∃ c s d, decimal n = String c s ∧ digit_value c = Some d.
Proof.
  unfold decimal, NilZero.string_of_uint.
  pose proof (to_uint_not_nil n) as Hnil.
  destruct (N.to_uint n); [done|..]; simpl; by eexists _, _, _.
Qed.

Lemma digit_plain c d :
  digit_value c = Some d → isspace c = false ∧ c ≠ "-"%char ∧ c ≠ "+"%char.
Proof.
  unfold digit_value, isspace. intros H. split; [|split; intros ->; done].
  destruct (N.leb_spec 48 (N_of_ascii c)); [|done].
  destruct (N.leb_spec (N_of_ascii c) 57); [|done].
  destruct (N.eqb_spec (N_of_ascii c) 32); [lia|].
  destruct (N.leb_spec (N_of_ascii c) 13); [lia|]. by rewrite andb_false_r.
Qed.

Lemma strtoull_decimal n rest :
  no_digit_first rest →
  strtoull (decimal n +:+ rest) = Some (N.min n ULLONG_MAX).
Proof.
  intros Hrest. unfold strtoull, subject.
  pose proof (decimal_digits n rest Hrest) as Hdigits.
  destruct (decimal_head n) as (c & s & d & Hdec & Hc).
  destruct (digit_plain c d Hc) as (Hsp & Hm & Hp).
  rewrite Hdec in *. rewrite string_app_cons in *. simpl skip_spaces. rewrite Hsp.
  assert (Hsign : (match String c (s +:+ rest) with
                   | String "-" s' => (true, s')
                   | String "+" s' => (false, s')
                   | _ => (false, String c (s +:+ rest))
                   end) = (false, String c (s +:+ rest))).
  { destruct c as [[] [] [] [] [] [] [] []]; done. }
  rewrite Hsign, Hc, Hdigits. f_equal.
  destruct (N.ltb_spec ULLONG_MAX n); lia.
Qed.

Lemma wrap_sub_small a b : b <= a → a < SIZE_MODULUS → wrap_sub a b = a - b.
Proof.
  intros Hle Hlt. unfold wrap_sub.
  replace (a + SIZE_MODULUS - b) with ((a - b) + 1 * SIZE_MODULUS) by lia.
  rewrite N.Div0.mod_add. apply N.mod_small. lia.
Qed.

Lemma join_cons sep d d' ds :
  join sep (d :: d' :: ds) = d +:+ sep +:+ join sep (d' :: ds).
Proof. reflexivity. Qed.

Lemma loop_join dests : ∀ pre acc fuel line,
  line = pre +:+ join ", " dests →
  string_size line < npos →
  dests ≠ [] →
  Forall (λ d, mentions "," d = false) dests →
  (N.to_nat (string_size line - string_size pre) < fuel)%nat →
  destinations_loop fuel line (string_size pre) (find line ", " (string_size pre)) acc
  = Some (Ok (acc ++ dests)).
Proof.
  induction dests as [|d dests IH]; intros pre acc fuel line -> Hsize Hne Hplain Hfuel;
    [done|].
  apply Forall_cons in Hplain as [Hd Hplain].
  pose proof Hsize as Hsize'. rewrite npos_eq in Hsize'.
  destruct fuel as [|fuel]; [lia|]. simpl destinations_loop.
  destruct (N.eqb_spec (string_size pre) npos) as [E|_].
  { rewrite size_app, E in Hsize. lia. }
  destruct dests as [|d' dests].
  - simpl join in *. rewrite find_at, (find_in_absent "," " " d Hd).
    rewrite size_app in Hsize'.
    rewrite substr_end; [done|].
    rewrite wrap_sub_small; rewrite ?npos_eq, ?SIZE_MODULUS_eq; lia.
  - rewrite join_cons in *. rewrite find_at.
    rewrite (find_in_skip "," " " d _ Hd).
    rewrite !size_app in Hsize'. change (string_size ", ") with 2 in Hsize'.
    rewrite substr_mid.
    2:{ rewrite wrap_sub_small; unfold string_size in *; rewrite ?SIZE_MODULUS_eq; lia. }
    destruct (N.eqb_spec (string_size pre + N.of_nat (String.length d)) npos) as [E|_].
    { rewrite npos_eq in E. unfold string_size in *. lia. }
    assert (Hw : wrap (string_size pre + N.of_nat (String.length d) + 2)
                 = string_size ((pre +:+ d) +:+ ", ")).
    { rewrite !size_app. change (string_size ", ") with 2.
      unfold wrap. rewrite N.mod_small; unfold string_size in *;
        rewrite ?SIZE_MODULUS_eq; lia. }
    rewrite Hw.
    rewrite (IH ((pre +:+ d) +:+ ", ") (acc ++ [d]) fuel).
    + by rewrite <- List.app_assoc.
    + by rewrite !string_app_assoc.
    + by rewrite <- !string_app_assoc in Hsize |- *.
    + done.
    + done.
    + rewrite !size_app in *. change (string_size ", ") with 2 in *. lia.
Qed.

Lemma plural_find rest :
  find_in "to valves " ("; tunnels lead to valves " +:+ rest) = Some 15%nat.
Proof. by apply find_in_app_l. Qed.

Lemma singular_find d :
  mentions " " d = false →
  find_in "to valves " ("; tunnel leads to valve " +:+ d) = None ∧
  find_in "to valve " ("; tunnel leads to valve " +:+ d) = Some 15%nat.
Proof.
  intros Hd. split; [|by apply find_in_app_l].
  expose.
  do 24 (rewrite find_in_cons; match goal with |- context [String.prefix ?a ?b] =>
           change (String.prefix a b) with false end; cbv iota).
  by rewrite (find_in_lacks " " "to valves " d).
Qed.

(** X6.  A line in the format of the puzzle is read back as the valve it
    describes: for a label of two characters, a flow rate written in
    decimal and one or more destinations that hold neither comma nor space,
    the valve stored under the label has that label, those destinations in
    their order, an empty table, and the flow rate, which is [ULLONG_MAX]
    when the number does not fit 64 bits. *)
Theorem read_line_reads_back_a_valve_line label rate dests valves :
  String.length label = 2%nat →
  mentions ";" label = false →
  dests ≠ [] →
  Forall (λ d, mentions "," d = false ∧ mentions " " d = false) dests →
  string_size (valve_line label rate dests) < npos →
  read_line (valve_line label rate dests) valves
  = Some (Ok (<[label := mkValve (N.min rate ULLONG_MAX) label dests ∅]> valves)).
Proof.
  intros Hlabel Hsemi Hne Hplain Hsize.
  destruct label as [|l1 [|l2 [|]]]; try done. clear Hlabel.
  set (label := String l1 (String l2 "")) in *.
  set (T := match dests with
            | [_] => "; tunnel leads to valve "
            | _ => "; tunnels lead to valves "
            end).
  set (J := join ", " dests).
  set (A := "Valve " +:+ label +:+ " has flow rate=" +:+ decimal rate).
  assert (Hline : valve_line label rate dests = A +:+ T +:+ J).
  { unfold valve_line, A. fold T J. by rewrite !string_app_assoc. }
  assert (HT : ∃ T', T = String ";" T' ∧ (String.length T' = 23 ∨ String.length T' = 24)%nat).
  { unfold T. destruct dests as [|? [|]]; eexists; (split; [reflexivity|]); simpl; lia. }
  destruct HT as (T' & HT & HT').
  assert (HA : string_size A = 23 + string_size (decimal rate)).
  { unfold A. rewrite !size_app. unfold label, string_size. simpl String.length. lia. }
  assert (Hdrop : string_drop 23 (A +:+ T +:+ J) = decimal rate +:+ T +:+ J).
  { unfold A, label. by rewrite !string_app_assoc. }
  assert (HAsemi : mentions ";" A = false).
  { unfold A. rewrite !mentions_app, Hsemi, decimal_digits_only; done. }
  assert (Hname : substr (A +:+ T +:+ J) 6 2 = Ok label).
  { unfold A. rewrite !string_app_assoc.
    apply (substr_mid "Valve " label). done. }
  assert (Hfind : find (A +:+ T +:+ J) ";" 0 = string_size A).
  { rewrite find_0, HT. change (String ";" T' +:+ J) with (";" +:+ T' +:+ J).
    by rewrite (find_in_skip ";" "" A (T' +:+ J) HAsemi). }
  rewrite Hline in *. clearbody A.
  rewrite !size_app in Hsize. rewrite npos_eq in Hsize.
  unfold read_line. rewrite Hname, Hfind.
  unfold view_substr, view_of. cbn [view_size data].
  destruct (N.ltb_spec (string_size (A +:+ T +:+ J)) 23) as [Hlt|_].
  { rewrite size_app in Hlt. lia. }
  change (N.to_nat 23) with 23%nat. rewrite Hdrop.
  unfold parseNumber. cbn [data]. rewrite strtoull_decimal.
  2:{ rewrite HT. done. }
  rewrite !find_at.
  assert (Hstart :
    (if match find_in "to valves " (T +:+ J) with
        | Some i => string_size A + N.of_nat i
        | None => npos
        end =? npos
     then wrap (match find_in "to valve " (T +:+ J) with
                | Some i => string_size A + N.of_nat i
                | None => npos
                end + 9)
     else wrap (match find_in "to valves " (T +:+ J) with
                | Some i => string_size A + N.of_nat i
                | None => npos
                end + 10)) = string_size (A +:+ T)).
  { rewrite size_app. unfold T, J.
    destruct dests as [|d [|d' dests]]; [done|..].
    - apply Forall_cons in Hplain as [[_ Hd] _]. simpl join.
      destruct (singular_find d Hd) as [-> ->]. rewrite N.eqb_refl.
      rewrite wrap_small; [change (string_size "; tunnel leads to valve ") with 24; lia|].
      unfold T in Hsize. change (string_size "; tunnel leads to valve ") with 24 in Hsize.
      rewrite SIZE_MODULUS_eq. lia.
    - rewrite plural_find.
      unfold T in Hsize. change (string_size "; tunnels lead to valves ") with 25 in *.
      destruct (N.eqb_spec (string_size A + N.of_nat 15) npos) as [E|_].
      { rewrite npos_eq in E. lia. }
      rewrite wrap_small; [lia|]. rewrite SIZE_MODULUS_eq. lia. }
  rewrite Hstart.
  rewrite <- (string_app_assoc A T J).
  rewrite (loop_join dests (A +:+ T) [] _ _ eq_refl).
  - done.
  - fold J. rewrite !size_app, npos_eq. lia.
  - done.
  - eapply Forall_impl; [exact Hplain|]. by intros d [? ?].
  - fold J. rewrite !size_app. unfold string_size. rewrite !string_app_length. lia.
Qed.

Lemma read_line_Ok line valves network :
  read_line line valves = Some (Ok network) →
  ∃ valve, network = <[label valve := valve]> valves ∧
           (string_size line < 6 → False) ∧
           label valve = name_of line ∧ distances valve = ∅.
Proof.
  unfold read_line, substr.
  destruct (N.ltb_spec (string_size line) 6) as [|H6]; [done|].
  unfold view_substr, view_of. cbn [view_size data].
  destruct (N.ltb_spec (string_size line) 23) as [|H23]; [done|].
  destruct (parseNumber _) as [flowRate|]; [|done].
  destruct (destinations_loop _ _ _ _ _) as [[ds|]|]; [|done|done].
  intros [= <-].
  exists (mkValve flowRate (String.substring (N.to_nat 6)
            (N.to_nat (2 `min` (string_size line - 6))) line) ds ∅).
  split; [done|]. split; [lia|]. split; [|done].
  cbn [label]. unfold name_of. f_equal. lia.
Qed.

Lemma read_lines_keys lines : ∀ valves network k,
  read_lines lines valves = Some (Ok network) →
  is_Some (network !! k) →
  is_Some (valves !! k) ∨ ∃ line, line ∈ lines ∧ name_of line = k.
Proof.
  induction lines as [|line lines IH]; intros valves network k; simpl.
  - intros [= <-]. by left.
  - destruct (read_line line valves) as [[valves'|]|] eqn:Hline; [|done|done].
    intros Hlines Hk. destruct (IH _ _ _ Hlines Hk) as [Hk'|(l & Hl & Hname)].
    + apply read_line_Ok in Hline as (valve & -> & _ & Hname & _).
      destruct (decide (label valve = k)) as [<-|Hne].
      * right. exists line. split; [left|done].
      * rewrite lookup_insert_ne in Hk' by done. by left.
    + right. exists l. split; [by right|done].
Qed.

Lemma read_line_total line valves :
  string_size line < npos → is_Some (read_line line valves).
Proof.
  intros Hsize. unfold read_line, view_substr, view_of, parseNumber, substr.
  cbn [data view_size].
  destruct (N.ltb_spec (string_size line) 6); [by eexists|].
  destruct (N.ltb_spec (string_size line) 23); [by eexists|].
  cbn [data view_size]. change (N.to_nat 23) with 23%nat.
  destruct (strtoull (string_drop 23 line)) as [n|]; [|by eexists].
  edestruct (destinations_loop_total line (S (String.length line))) as (ds & _ & ->);
    [done|by apply (initial_start_le line (find line ";" 0))|reflexivity| |].
  { unfold string_size. lia. }
  by eexists.
Qed.

Lemma read_lines_total lines : ∀ valves,
  Forall (λ line, string_size line < npos) lines →
  is_Some (read_lines lines valves).
Proof.
  induction lines as [|line lines IH]; intros valves Hsizes; simpl; [by eexists|].
  apply Forall_cons in Hsizes as [Hsize Hsizes].
  destruct (read_line_total line valves Hsize) as [[valves'|ex] ->].
  - by apply IH.
  - by eexists.
Qed.

Lemma getlines_length input :
  Forall (λ line, (String.length line <= String.length input)%nat) (getlines input).
Proof.
  induction input as [|c input IH]; simpl; [constructor|].
  destruct (Ascii.eqb c "010").
  - constructor; [simpl; lia|]. eapply Forall_impl; [exact IH|]. simpl. lia.
  - destruct (getlines input) as [|line lines].
    + constructor; [simpl; lia|constructor].
    + apply Forall_cons in IH as [Hline Hlines].
      constructor; [simpl; lia|]. eapply Forall_impl; [exact Hlines|]. simpl. lia.
Qed.

Lemma read_valves_total input :
  string_size input < npos → is_Some (read_valves input).
Proof.
  intros Hsize. apply read_lines_total.
  eapply Forall_impl; [apply getlines_length|].
  intros line Hline. simpl in Hline. unfold string_size in *. lia.
Qed.

(** * The program on texts *)

Section Program.
Variable ptr_lt : string → string → bool.
Variable hash_order : ∀ A : Type, list (string * A) → list (string * A).
Hypothesis hash_order_perm : ∀ A (l : list (string * A)), hash_order A l ≡ₚ l.

Lemma parse_keeps_keys valves network k :
  parse ptr_lt hash_order valves = Ok network →
  is_Some (network !! k) ↔ is_Some (valves !! k).
Proof.
  intros Hparse. pose proof (parse_spec ptr_lt hash_order hash_order_perm valves) as Hspec.
  rewrite Hparse in Hspec. specialize (Hspec k). unfold parsed in Hspec.
  destruct (valves !! k) as [v|].
  - destruct Hspec as (d & -> & _). split; eauto.
  - rewrite Hspec. done.
Qed.

Lemma main_loop_total inputs : ∀ cout,
  is_Some (main_loop ptr_lt hash_order inputs cout).
Proof.
  induction inputs as [|input inputs IH]; intros cout; simpl; [by eexists|].
  destruct input as [valves|e]; [|by eexists].
  destruct (parse ptr_lt hash_order valves) as [network|e] eqn:Hparse; [|by eexists].
  destruct (network !! "AA") as [v|] eqn:HAA.
  - destruct (part1_spec hash_order hash_order_perm network 30) as (s & -> & _); [by eexists|].
    apply IH.
  - unfold part1, map_at. rewrite HAA. by eexists.
Qed.

Lemma main_loop_fails inputs : ∀ cout,
  Exists (λ input, match input with
                   | Ok valves => valves !! "AA" = None
                   | Throw _ => True
                   end) inputs →
  ∃ cout' e, main_loop ptr_lt hash_order inputs cout = Some (cout', Some e).
Proof.
  induction inputs as [|input inputs IH]; intros cout Hex.
  { by apply Exists_nil in Hex. }
  simpl. destruct input as [valves|e]; [|by eexists _, _].
  destruct (parse ptr_lt hash_order valves) as [network|e] eqn:Hparse; [|by eexists _, _].
  destruct (network !! "AA") as [v|] eqn:HAA.
  - destruct (part1_spec hash_order hash_order_perm network 30) as (s & -> & _); [by eexists|].
    apply IH. apply Exists_cons in Hex as [Hhere|Hlater]; [|done].
    assert (is_Some (valves !! "AA")) as [? ?]; [|congruence].
    apply (parse_keeps_keys valves network "AA" Hparse). eauto.
  - unfold part1, map_at. rewrite HAA. by eexists _, _.
Qed.

(** X7.  A text in which no line has "AA" at columns 6 and 7 ends the
    program with exit status 1, wherever it stands among the files: the
    reading throws, or the tables cannot be filled, or [part1] finds no
    start valve.  The program itself always ends. *)
Theorem program_fails_without_start_valve argv :
  Forall (λ input, string_size input < npos) argv →
  Exists (λ input, Forall (λ line, name_of line ≠ "AA") (getlines input)) argv →
  ∃ out, program ptr_lt hash_order argv = Some out ∧ exit_status out = 1.
Proof.
  intros Hsizes HnoAA. unfold program.
  destruct (mapM read_valves argv) as [inputs|] eqn:Hmap.
  2:{ apply mapM_None_1 in Hmap. apply Exists_exists in Hmap as (input & Hin & Hnone).
      rewrite Forall_forall in Hsizes.
      destruct (read_valves_total input (Hsizes input Hin)) as [? ?]. congruence. }
  simpl. unfold main.
  destruct (main_loop_fails inputs []) as (cout & e & ->); [|by eexists].
  apply mapM_Some_1 in Hmap. clear Hsizes.
  induction Hmap as [|input r argv inputs Hr Hmap IH]; [by apply Exists_nil in HnoAA|].
  apply Exists_cons in HnoAA as [Hhere|Hlater]; [|right; by apply IH].
  left. destruct r as [valves|e]; [|done].
  destruct (valves !! "AA") eqn:HAA; [|done]. exfalso.
  destruct (read_lines_keys _ _ _ "AA" Hr) as [[? Hempty]|(line & Hl & Hname)]; [by eexists| |].
  - by rewrite lookup_empty in Hempty.
  - rewrite Forall_forall in Hhere. by apply (Hhere line).
Qed.

(** X3.  [parse] returns a network exactly when every tunnel leads to a
    valve of the network and every valve is fewer than [UINT32_MAX] tunnels
    away from every valve; otherwise it throws. *)
Theorem parse_succeeds_iff_strongly_connected (valves : ValveNetwork) :
  (∃ network, parse ptr_lt hash_order valves = Ok network) ↔
  closed_network valves ∧
  ∀ a b, a ∈ dom valves → b ∈ dom valves →
         ∃ n, n < UINT32_MAX ∧ hops valves a b n.
Proof.
  pose proof (parse_spec ptr_lt hash_order hash_order_perm valves) as Hspec.
  split.
  - intros [network Hparse]. rewrite Hparse in Hspec.
    assert (Hcalc : ∀ a, a ∈ dom valves →
              ∃ v d, valves !! a = Some v ∧
                     calculateDistanceToOtherValves ptr_lt hash_order valves a
                       (distances v) = (d, None)).
    { intros a [v Hv]%elem_of_dom. specialize (Hspec a). unfold parsed in Hspec.
      rewrite Hv in Hspec. destruct Hspec as (d & _ & Hd). eauto. }
    split.
    + intros u v Huv. assert (Hu : u ∈ dom valves).
      { destruct Huv as (valve & Hvalve & _). apply elem_of_dom. eauto. }
      destruct (Hcalc u Hu) as (vu & d & _ & Hd).
      apply (calculateDistance_spec ptr_lt hash_order hash_order_perm) in Hd; [|done].
      simpl in Hd. destruct (inv_present _ _ _ _ Hd u Hu) as [du Hdu].
      by destruct (inv_relaxed _ _ _ _ Hd u v du Hu (not_elem_of_empty u) Huv Hdu).
    + intros a b Ha Hb. destruct (Hcalc a Ha) as (va & d & _ & Hd).
      destruct (calculateDistance_min_hops ptr_lt hash_order hash_order_perm
                  _ _ _ _ b Ha Hd Hb) as (n & _ & Hlt & Hn & _).
      eauto.
  - intros [Hclosed Hreach].
    destruct (parse ptr_lt hash_order valves) as [network|e]; [by eexists|exfalso].
    destruct Hspec as (l & v & Hv & He).
    assert (Hl : l ∈ dom valves) by (apply elem_of_dom; eauto).
    destruct (calculateDistanceToOtherValves ptr_lt hash_order valves l (distances v))
      as [d r] eqn:Hcalc.
    simpl in He. subst r.
    apply (calculateDistance_spec ptr_lt hash_order hash_order_perm) in Hcalc; [|done].
    destruct Hcalc as [(b & Hb & _ & _ & Hfar & _)|(_ & u & w & _ & Huw & Hw)].
    + destruct (Hreach l b Hl Hb) as (n & Hlt & Hn). specialize (Hfar n Hn). lia.
    + apply Hw. by apply (Hclosed u w).
Qed.

(** X8.  With a valve "AA" in the network, [part1] ends and returns the
    best score of the search: the score of a state for which nothing more
    can be pushed, and no such state that the search comes to scores more.
    When the budget times the sum of all flow rates fits [size_t], the
    answer is at most that product. *)
Theorem part1_returns_the_best_terminal_score (network : ValveNetwork) timeLimit :
  is_Some (network !! "AA") →
  ∃ report answer,
    part1 hash_order network timeLimit = Some (Ok (report, answer)) ∧
    (∀ t, descends hash_order network timeLimit initial_state t →
          terminal hash_order network timeLimit t →
          totalPressureRelieved hash_order network t timeLimit ≤ answer) ∧
    (∃ t, descends hash_order network timeLimit initial_state t ∧
          terminal hash_order network timeLimit t ∧
          answer = totalPressureRelieved hash_order network t timeLimit) ∧
    (timeLimit * total_rate network < SIZE_MODULUS →
     answer ≤ timeLimit * total_rate network).
Proof.
  intros HAA.
  destruct (part1_spec hash_order hash_order_perm network timeLimit HAA)
    as (s & Hs & Hall & Hsome).
  exists (part1_report hash_order network s), (max s). split; [done|]. split; [done|].
  assert (Hbest : ∃ t, descends hash_order network timeLimit initial_state t ∧
            terminal hash_order network timeLimit t ∧
            max s = totalPressureRelieved hash_order network t timeLimit).
  { destruct Hsome as [Hzero|Hsome]; [|done].
    destruct (terminal_descendant hash_order hash_order_perm network timeLimit initial_state)
      as (t & Hdesc & Ht).
    exists t. split; [done|]. split; [done|].
    specialize (Hall t Hdesc Ht). lia. }
  split; [done|]. intros Hfit. destruct Hbest as (t & _ & _ & ->).
  rewrite (totalPressureRelieved_wrap hash_order hash_order_perm).
  pose proof (total_reward_bound network timeLimit (openedValves t)) as Hbound.
  rewrite wrap_small; [done|lia].
Qed.

End Program.

(** * Day 15: the rows of the sensors *)

Section Day15Properties.

Import Day15.
Local Open Scope Z_scope.

(** ** Outcomes and [int]s *)

Lemma int_Value z : is_int z → int z = Value z.
Proof.
  intros [H1 H2]. unfold int.
  destruct (Z.leb_spec INT_MIN z); [|lia]. destruct (Z.leb_spec z INT_MAX); [done|lia].
Qed.

Lemma int_inv z v : int z = Value v → v = z ∧ is_int z.
Proof.
  unfold int, is_int.
  destruct (Z.leb_spec INT_MIN z); [|done]. destruct (Z.leb_spec z INT_MAX); [|done].
  intros [= <-]. lia.
Qed.

Lemma int_cases z : int z = Value z ∨ int z = Undefined.
Proof. unfold int. destruct (_ && _); [by left|by right]. Qed.

Lemma bind_Value {A B} (a : A) (f : A → Run B) : Value a ≫= f = f a.
Proof. reflexivity. Qed.

Lemma bind_inv {A B} (m : Run A) (f : A → Run B) b :
  m ≫= f = Value b → ∃ a, m = Value a ∧ f a = Value b.
Proof. destruct m as [a| | |]; try done. intros H. by exists a. Qed.

(** ** [std::sort] with the comparison of [reduce] *)

Lemma insert_perm {A} (comp : A → A → bool) x l : sort_insert comp x l ≡ₚ x :: l.
Proof.
  induction l as [|y l IH]; simpl; [done|].
  destruct (comp x y); [done|]. rewrite IH. apply Permutation_swap.
Qed.

Lemma sort_perm {A} (comp : A → A → bool) l : sort comp l ≡ₚ l.
Proof.
  induction l as [|x l IH]; simpl; [done|].
  unfold sort in *. simpl. by rewrite insert_perm, IH.
Qed.

Lemma less_false a b :
  less a b = false → SensorRange.start b ≤ SensorRange.start a.
Proof.
  unfold less. destruct (Z.eqb_spec (SensorRange.start a) (SensorRange.start b)); [lia|].
  destruct (Z.ltb_spec (SensorRange.start a) (SensorRange.start b)); [done|lia].
Qed.

Lemma less_true a b :
  less a b = true → SensorRange.start a ≤ SensorRange.start b.
Proof.
  unfold less. destruct (Z.eqb_spec (SensorRange.start a) (SensorRange.start b)); [lia|].
  destruct (Z.ltb_spec (SensorRange.start a) (SensorRange.start b)); [lia|done].
Qed.

Lemma insert_sorted x l : starts_sorted l → starts_sorted (sort_insert less x l).
Proof.
  unfold starts_sorted. induction l as [|y l IH]; simpl; intros Hs.
  - repeat constructor.
  - apply StronglySorted_inv in Hs as [Hl Hy].
    destruct (less x y) eqn:Hxy.
    + constructor; [by constructor|]. apply less_true in Hxy.
      constructor; [done|]. eapply Forall_impl; [exact Hy|]. simpl. lia.
    + constructor; [by apply IH|]. apply less_false in Hxy.
      rewrite insert_perm. by constructor.
Qed.

Lemma sort_sorted l : starts_sorted (sort less l).
Proof.
  induction l as [|x l IH]; [constructor|]. by apply insert_sorted.
Qed.

Lemma not_after_spec a b :
  not_after a b ↔
  SensorRange.start a < SensorRange.start b ∨
  (SensorRange.start a = SensorRange.start b ∧ SensorRange.end_ a ≤ SensorRange.end_ b).
Proof.
  unfold not_after, less.
  destruct (Z.eqb_spec (SensorRange.start b) (SensorRange.start a)).
  - rewrite Z.ltb_ge. lia.
  - rewrite Z.ltb_ge. lia.
Qed.

Lemma insert_ordered x l :
  StronglySorted not_after l → StronglySorted not_after (sort_insert less x l).
Proof.
  induction l as [|y l IH]; simpl; intros Hs.
  - repeat constructor.
  - apply StronglySorted_inv in Hs as [Hl Hy].
    destruct (less x y) eqn:Hxy.
    + constructor; [by constructor|].
      assert (Hxy' : not_after x y).
      { apply not_after_spec. unfold less in Hxy.
        destruct (Z.eqb_spec (SensorRange.start x) (SensorRange.start y));
          [apply Z.ltb_lt in Hxy|apply Z.ltb_lt in Hxy]; lia. }
      constructor; [done|]. eapply Forall_impl; [exact Hy|]. intros z Hz.
      apply not_after_spec in Hxy', Hz. apply not_after_spec. lia.
    + constructor; [by apply IH|]. rewrite insert_perm. by constructor.
Qed.

Lemma sort_ordered l : StronglySorted not_after (sort less l).
Proof. induction l as [|x l IH]; [constructor|]. by apply insert_ordered. Qed.

(** The order that [sort] gives is the only one that [std::sort] can give. *)
Lemma sort_unique l l' :
  l' ≡ₚ l → StronglySorted not_after l' → l' = sort less l.
Proof.
  intros Hperm Hsorted.
  assert (Hanti : AntiSymm (=) not_after).
  { intros [s1 e1] [s2 e2] H1%not_after_spec H2%not_after_spec. simpl in *.
    f_equal; lia. }
  apply (StronglySorted_unique not_after); [done|apply sort_ordered|].
  by rewrite Hperm, sort_perm.
Qed.

(** ** The loops that merge the ranges *)

Lemma overlaps_touches a b :
  ints a → ints b → SensorRange.start a ≤ SensorRange.start b →
  SensorRange.overlaps a b = Value (touches a b).
Proof.
  intros (Ha1 & Ha2 & Ha) (Hb1 & Hb2 & Hb) Hab. unfold SensorRange.overlaps, touches.
  destruct ((SensorRange.start a <=? SensorRange.end_ b)
            && (SensorRange.start b <=? SensorRange.end_ a)) eqn:E; [done|].
  apply andb_false_iff in E.
  assert (SensorRange.end_ a < SensorRange.start b).
  { destruct E as [E|E]; [apply Z.leb_gt in E; lia|by apply Z.leb_gt in E]. }
  rewrite int_Value; [done|]. unfold is_int in *. lia.
Qed.

Lemma touches_spec a b :
  SensorRange.start a ≤ SensorRange.end_ a →
  SensorRange.start b ≤ SensorRange.end_ b →
  SensorRange.start a ≤ SensorRange.start b →
  touches a b = true ↔ SensorRange.start b ≤ SensorRange.end_ a + 1.
Proof.
  intros Ha Hb Hab. unfold touches.
  rewrite orb_true_iff, andb_true_iff, !Z.leb_le, Z.eqb_eq. lia.
Qed.

Lemma merge_ints a b : ints a → ints b → ints (SensorRange.merge a b).
Proof. unfold ints, is_int, SensorRange.merge. simpl. lia. Qed.

Lemma merge_start a b :
  SensorRange.start a ≤ SensorRange.start b →
  SensorRange.start (SensorRange.merge a b) = SensorRange.start a.
Proof. simpl. lia. Qed.

Lemma wrap_sub_1 n : (1 <= n)%N → (n < SIZE_MODULUS)%N → wrap_sub n 1 = (n - 1)%N.
Proof. intros. apply wrap_sub_small; lia. Qed.

Lemma merge_loop_coalesce rest : ∀ pre cur fuel,
  (N.of_nat (length (pre ++ cur :: rest)) < SIZE_MODULUS)%N →
  Forall ints (cur :: rest) →
  starts_sorted (cur :: rest) →
  (2 * length rest < fuel)%nat →
  merge_loop fuel (pre ++ cur :: rest) (N.of_nat (length pre))
  = Value (pre ++ coalesce cur rest).
Proof.
  induction rest as [|nxt rest IH]; intros pre cur fuel Hlen Hints Hsorted Hfuel.
  - destruct fuel as [|fuel]; [simpl in Hfuel; lia|]. simpl merge_loop.
    rewrite wrap_sub_1; [|rewrite length_app; simpl length; lia|done].
    rewrite length_app. simpl length.
    destruct (N.ltb_spec (N.of_nat (length pre)) (N.of_nat (length pre + 1) - 1)); [lia|done].
  - destruct fuel as [|fuel]; [simpl in Hfuel; lia|]. simpl merge_loop.
    rewrite wrap_sub_1; [|rewrite length_app; simpl length; lia|done].
    pose proof Hlen as Hlen'. rewrite length_app in Hlen'. simpl length in Hlen'.
    rewrite length_app. simpl length.
    destruct (N.ltb_spec (N.of_nat (length pre))
                (N.of_nat (length pre + S (S (length rest))) - 1)); [|lia].
    apply Forall_cons in Hints as [Hcur Hints].
    pose proof Hints as Hints'. apply Forall_cons in Hints' as [Hnxt Hrest].
    apply StronglySorted_inv in Hsorted as [Hsorted Hfirst].
    pose proof Hfirst as Hfirst'. apply Forall_cons in Hfirst' as [Hcn Hcr].
    unfold subscript. rewrite Nat2N.id.
    rewrite (lookup_app_r pre _ (length pre)), Nat.sub_diag by lia. simpl.
    rewrite wrap_small by (rewrite SIZE_MODULUS_eq in *; lia).
    replace (N.to_nat (N.of_nat (length pre) + 1)) with (S (length pre)) by lia.
    rewrite lookup_app_r by lia.
    replace (S (length pre) - length pre)%nat with 1%nat by lia. simpl.
    rewrite overlaps_touches by done. simpl.
    destruct (touches cur nxt) eqn:Ht.
    + rewrite insert_app_r_alt, Nat.sub_diag by lia. simpl.
      replace (S (length pre)) with (length (pre ++ [SensorRange.merge cur nxt]))
        by (rewrite length_app; simpl; lia).
      replace (pre ++ SensorRange.merge cur nxt :: nxt :: rest)
        with ((pre ++ [SensorRange.merge cur nxt]) ++ nxt :: rest)
        by (by rewrite <- app_assoc).
      rewrite delete_middle, <- app_assoc. simpl app.
      rewrite IH; [done| | | |].
      * rewrite length_app in *. simpl in *. lia.
      * constructor; [by apply merge_ints|done].
      * apply StronglySorted_inv in Hsorted as [Hsorted Hnr].
        constructor; [done|]. rewrite merge_start by done. done.
      * simpl in Hfuel. lia.
    + replace (N.of_nat (length pre) + 1)%N with (N.of_nat (length (pre ++ [cur]))).
      2:{ rewrite length_app. simpl. lia. }
      replace (pre ++ cur :: nxt :: rest) with ((pre ++ [cur]) ++ nxt :: rest)
        by (by rewrite <- app_assoc).
      rewrite IH; [by rewrite <- app_assoc| | | |].
      * by rewrite <- app_assoc.
      * done.
      * done.
      * simpl in Hfuel. lia.
Qed.

Lemma coalesce_head cur rest :
  starts_sorted (cur :: rest) →
  ∃ r out, coalesce cur rest = r :: out ∧ SensorRange.start r = SensorRange.start cur.
Proof.
  revert cur. induction rest as [|nxt rest IH]; intros cur Hsorted; simpl.
  - by eexists _, _.
  - apply StronglySorted_inv in Hsorted as [Hsorted Hfirst].
    apply Forall_cons in Hfirst as [Hcn Hcr].
    destruct (touches cur nxt).
    + destruct (IH (SensorRange.merge cur nxt)) as (r & out & -> & Hr).
      * apply StronglySorted_inv in Hsorted as [Hsorted Hnr].
        constructor; [done|]. by rewrite merge_start.
      * exists r, out. split; [done|]. by rewrite Hr, merge_start.
    + by eexists _, _.
Qed.

Lemma coalesce_spec rest : ∀ cur,
  Forall ints (cur :: rest) →
  starts_sorted (cur :: rest) →
  separated (coalesce cur rest) ∧
  ∀ x, Exists (λ r, covers r x) (coalesce cur rest) ↔ Exists (λ r, covers r x) (cur :: rest).
Proof.
  induction rest as [|nxt rest IH]; intros cur Hints Hsorted.
  - apply Forall_cons in Hints as [(_ & _ & Hcur) _]. simpl. done.
  - apply Forall_cons in Hints as [Hcur Hints].
    pose proof Hints as Hints'. apply Forall_cons in Hints' as [Hnxt Hrest].
    apply StronglySorted_inv in Hsorted as [Hsorted Hfirst].
    pose proof Hfirst as Hfirst'. apply Forall_cons in Hfirst' as [Hcn Hcr].
    pose proof Hsorted as Hsorted'.
    apply StronglySorted_inv in Hsorted' as [Hsorted' Hnr].
    destruct Hcur as (Hc1 & Hc2 & Hc). destruct Hnxt as (Hn1 & Hn2 & Hn).
    simpl coalesce. destruct (touches cur nxt) eqn:Ht.
    + apply touches_spec in Ht; [|done..].
      destruct (IH (SensorRange.merge cur nxt)) as [Hsep Hcov].
      * constructor; [by apply merge_ints|done].
      * constructor; [done|]. by rewrite merge_start.
      * split; [done|]. intros x. rewrite Hcov, !Exists_cons.
        assert (covers (SensorRange.merge cur nxt) x ↔ covers cur x ∨ covers nxt x)
          as ->; [|tauto].
        unfold covers. simpl. lia.
    + assert (SensorRange.end_ cur + 1 < SensorRange.start nxt).
      { destruct (Z.le_gt_cases (SensorRange.start nxt) (SensorRange.end_ cur + 1))
          as [Hle|Hgt]; [|lia].
        apply touches_spec in Hle; try done. congruence. }
      destruct (IH nxt Hints Hsorted) as [Hsep Hcov].
      destruct (coalesce_head nxt rest Hsorted) as (r & out & Hout & Hr).
      split.
      * rewrite Hout in *.
        change (SensorRange.start cur ≤ SensorRange.end_ cur ∧
                SensorRange.end_ cur + 1 < SensorRange.start r ∧ separated (r :: out)).
        rewrite Hr. done.
      * intros x. rewrite Exists_cons, Hcov, !Exists_cons. done.
Qed.

Lemma mapM_Value {A B} (f : A → Run B) (g : A → B) l :
  (∀ a, a ∈ l → f a = Value (g a)) → mapM f l = Value (g <$> l).
Proof.
  induction l as [|x l IH]; intros Hf; [done|]. simpl.
  rewrite (Hf x) by left. simpl. rewrite IH; [done|]. intros a Ha. apply Hf. by right.
Qed.

Lemma clamp_Value v lo hi : lo ≤ hi → clamp v lo hi = Value (clamped v lo hi).
Proof.
  intros Hle. unfold clamp, clamped. destruct (Z.ltb_spec hi lo); [lia|]. f_equal.
  destruct (Z.ltb_spec v lo); [lia|]. destruct (Z.ltb_spec hi v); lia.
Qed.

Lemma reduce_spec ranges minX maxX :
  ranges ≠ [] →
  (N.of_nat (length ranges) < SIZE_MODULUS)%N →
  INT_MIN ≤ minX → minX ≤ maxX → maxX ≤ INT_MAX →
  Forall (λ r, SensorRange.start r ≤ SensorRange.end_ r) ranges →
  ∃ out, reduce ranges minX maxX = Value out ∧ out ≠ [] ∧ separated out ∧
         ∀ x, Exists (λ r, covers r x) out ↔
              Exists (λ r, covers (clamp_range minX maxX r) x) ranges.
Proof.
  intros Hne Hlen Hmin Hle Hmax Hranges. unfold reduce.
  unfold INT_MIN, INT_MAX in *.
  rewrite (mapM_Value _ (clamp_range minX maxX)).
  2:{ intros r _. by rewrite !clamp_Value. }
  unfold mbind at 1, Run_bind at 1. cbv beta iota zeta.
  set (cl := clamp_range minX maxX <$> ranges).
  pose proof (sort_perm less cl) as Hperm.
  pose proof (sort_sorted cl) as Hsorted.
  assert (Hints : Forall ints (sort less cl)).
  { rewrite Hperm. unfold cl. apply Forall_fmap.
    eapply Forall_impl; [exact Hranges|]. intros r Hr. simpl in Hr.
    unfold ints, is_int, clamp_range, clamped, INT_MIN, INT_MAX. simpl. lia. }
  assert (Hlen' : length (sort less cl) = length ranges).
  { rewrite Hperm. unfold cl. by rewrite length_fmap. }
  destruct (sort less cl) as [|cur rest] eqn:Hs.
  { destruct ranges; [done|]. simpl in Hlen'. lia. }
  pose proof (merge_loop_coalesce rest [] cur (S (2 * length (cur :: rest)))) as Hloop.
  change ([] ++ cur :: rest) with (cur :: rest) in Hloop.
  change (N.of_nat (length [])) with 0%N in Hloop.
  rewrite Hloop; try done.
  - simpl app.
    destruct (coalesce_spec rest cur Hints Hsorted) as [Hsep Hcov].
    destruct (coalesce_head cur rest Hsorted) as (r & out & Hout & _).
    eexists. split; [done|]. split; [by rewrite Hout|]. split; [done|].
    intros x. rewrite Hcov, Hperm. unfold cl. by rewrite Exists_fmap.
  - simpl app. by rewrite Hlen'.
  - simpl. lia.
Qed.

Lemma reduce_nil minX maxX : reduce [] minX maxX = Undefined.
Proof. reflexivity. Qed.

Lemma reduce_undefined ranges minX maxX :
  ranges = [] ∨ maxX < minX → reduce ranges minX maxX = Undefined.
Proof.
  intros [->|Hlt]; [done|]. destruct ranges as [|r ranges]; [done|].
  unfold reduce. simpl. unfold clamp. destruct (Z.ltb_spec maxX minX); [done|lia].
Qed.

(** ** No exception, and no loop out of steps *)

Lemma settled_bind {A B} (m : Run A) (f : A → Run B) :
  settled m → (∀ a, m = Value a → settled (f a)) → settled (m ≫= f).
Proof. intros [[a ->]| ->] Hf; [by apply Hf|by right]. Qed.

Lemma settled_Value {A} (a : A) : settled (Value a).
Proof. left. by exists a. Qed.

Lemma settled_int z : settled (int z).
Proof. destruct (int_cases z) as [-> | ->]; [apply settled_Value|by right]. Qed.

Lemma settled_abs z : settled (abs z).
Proof. apply settled_int. Qed.

Lemma settled_subscript {A} (v : list A) i : settled (subscript v i).
Proof. unfold subscript. destruct (v !! _); [apply settled_Value|by right]. Qed.

Lemma settled_overlaps a b : settled (SensorRange.overlaps a b).
Proof.
  unfold SensorRange.overlaps. destruct (_ && _); [apply settled_Value|].
  apply settled_bind; [apply settled_int|]. intros; apply settled_Value.
Qed.

Lemma settled_merge_loop fuel : ∀ ranges i,
  (N.of_nat (length ranges) < SIZE_MODULUS)%N →
  (2 * length ranges - N.to_nat i < fuel)%nat →
  settled (merge_loop fuel ranges i).
Proof.
  induction fuel as [|fuel IH]; intros ranges i Hlen Hfuel; [exfalso; lia|].
  simpl. destruct (N.ltb_spec i (wrap_sub (N.of_nat (length ranges)) 1)) as [Hlt|];
    [|apply settled_Value].
  destruct (decide (length ranges = 0%nat)) as [Hz|Hnz].
  { destruct ranges; [|done]. unfold subscript. rewrite lookup_nil. by right. }
  rewrite wrap_sub_1 in Hlt by lia.
  assert (Hw : wrap (i + 1) = (i + 1)%N) by (apply wrap_small; lia).
  rewrite Hw.
  apply settled_bind; [apply settled_subscript|]. intros a _.
  apply settled_bind; [apply settled_subscript|]. intros b _.
  apply settled_bind; [apply settled_overlaps|]. intros o _.
  destruct o.
  - apply IH.
    + rewrite length_delete, length_insert; [lia|].
      apply lookup_lt_is_Some. rewrite length_insert. lia.
    + rewrite length_delete, length_insert; [lia|].
      apply lookup_lt_is_Some. rewrite length_insert. lia.
  - apply IH; lia.
Qed.

Lemma settled_mapM {A B} (f : A → Run B) l :
  (∀ a, settled (f a)) → settled (mapM f l).
Proof.
  intros Hf. induction l as [|x l IH]; [apply settled_Value|]. simpl.
  apply settled_bind; [apply Hf|]. intros b _.
  apply settled_bind; [apply IH|]. intros k _. apply settled_Value.
Qed.

Lemma mapM_length {A B} (f : A → Run B) l k :
  mapM f l = Value k → length k = length l.
Proof.
  revert k. induction l as [|x l IH]; intros k; simpl; [by intros [= <-]|].
  intros (b & _ & (k' & Hk' & H)%bind_inv)%bind_inv. injection H as <-.
  simpl. by rewrite (IH k').
Qed.

Lemma settled_clamp v lo hi : settled (clamp v lo hi).
Proof. unfold clamp. destruct (hi <? lo); [by right|apply settled_Value]. Qed.

Lemma settled_reduce ranges minX maxX :
  (N.of_nat (length ranges) < SIZE_MODULUS)%N → settled (reduce ranges minX maxX).
Proof.
  intros Hlen. unfold reduce. apply settled_bind.
  - apply settled_mapM. intros r.
    apply settled_bind; [apply settled_clamp|]. intros s _.
    apply settled_bind; [apply settled_clamp|]. intros e _. apply settled_Value.
  - intros k Hk%mapM_length. cbv zeta.
    assert (Hs : length (sort less k) = length ranges) by (by rewrite sort_perm).
    apply settled_merge_loop; rewrite Hs; [done|lia].
Qed.

Lemma settled_fromSensor s y : settled (SensorRange.fromSensor s y).
Proof.
  unfold SensorRange.fromSensor.
  apply settled_bind; [apply settled_int|]. intros d _.
  apply settled_bind; [apply settled_abs|]. intros dy _.
  destruct (_ <? _); [apply settled_Value|].
  apply settled_bind; [apply settled_int|]. intros r _.
  apply settled_bind; [apply settled_int|]. intros a _.
  apply settled_bind; [apply settled_int|]. intros b _. apply settled_Value.
Qed.

(** ** The ranges of a row *)

Lemma fromSensor_inv sensor y r :
  SensorRange.fromSensor sensor y = Value r →
  r = (if decide (reaches sensor y) then Some (row_range sensor y) else None).
Proof.
  unfold SensorRange.fromSensor, abs.
  intros (d & [-> Hd]%int_inv & (dy & [-> Hdy]%int_inv & H)%bind_inv)%bind_inv.
  unfold reaches, row_range.
  replace (Z.abs (y - (location sensor).2)) with (Z.abs ((location sensor).2 - y)) by lia.
  destruct (Z.ltb_spec (strength sensor) (Z.abs ((location sensor).2 - y))).
  - injection H as <-. by rewrite decide_False by lia.
  - apply bind_inv in H as (reduced & [-> _]%int_inv & H).
    apply bind_inv in H as (s & [-> _]%int_inv & H).
    apply bind_inv in H as (e & [-> _]%int_inv & H).
    injection H as <-. by rewrite decide_True by lia.
Qed.

Lemma row_range_covers sensor y x :
  reaches sensor y → covers (row_range sensor y) x ↔ in_reach sensor y x.
Proof. unfold reaches, covers, row_range, in_reach. simpl. lia. Qed.

Lemma row_range_ordered sensor y :
  reaches sensor y →
  SensorRange.start (row_range sensor y) ≤ SensorRange.end_ (row_range sensor y).
Proof. unfold reaches, row_range. simpl. lia. Qed.

Lemma row_ranges_cons s sensors y :
  row_ranges (s :: sensors) y =
  if decide (reaches s y) then row_range s y :: row_ranges sensors y
  else row_ranges sensors y.
Proof. unfold row_ranges. simpl. by destruct (decide (reaches s y)). Qed.

Lemma push_ranges_inv sensors y : ∀ acc rs,
  push_ranges sensors y acc = Value rs → rs = acc ++ row_ranges sensors y.
Proof.
  induction sensors as [|s sensors IH]; intros acc rs; simpl.
  - intros [= <-]. by rewrite app_nil_r.
  - intros (r & Hr%fromSensor_inv & H)%bind_inv. subst r.
    apply IH in H as ->. unfold row_ranges. simpl.
    destruct (decide (reaches s y)); [by rewrite <- app_assoc|done].
Qed.

Lemma push_ranges_Value sensors y : ∀ acc,
  Forall (λ s, ∃ r, SensorRange.fromSensor s y = Value r) sensors →
  push_ranges sensors y acc = Value (acc ++ row_ranges sensors y).
Proof.
  induction sensors as [|s sensors IH]; intros acc Hdef; simpl.
  - by rewrite app_nil_r.
  - apply Forall_cons in Hdef as [[r Hr] Hdef]. rewrite Hr. simpl.
    apply fromSensor_inv in Hr as ->. rewrite IH by done. unfold row_ranges. simpl.
    destruct (decide (reaches s y)); [by rewrite <- app_assoc|done].
Qed.

Lemma row_ranges_Exists sensors y (P : SensorRange.t → Prop) :
  Exists P (row_ranges sensors y) ↔
  Exists (λ s, reaches s y ∧ P (row_range s y)) sensors.
Proof.
  induction sensors as [|s sensors IH].
  - by rewrite !Exists_nil.
  - rewrite row_ranges_cons. destruct (decide (reaches s y)).
    + rewrite !Exists_cons, IH. tauto.
    + rewrite Exists_cons, IH. tauto.
Qed.

Lemma row_ranges_ordered sensors y :
  Forall (λ r, SensorRange.start r ≤ SensorRange.end_ r) (row_ranges sensors y).
Proof.
  induction sensors as [|s sensors IH]; [constructor|]. rewrite row_ranges_cons.
  destruct (decide (reaches s y)); [|done].
  constructor; [by apply row_range_ordered|done].
Qed.

Lemma row_ranges_length sensors y :
  (length (row_ranges sensors y) <= length sensors)%nat.
Proof.
  induction sensors as [|s sensors IH]; [done|]. rewrite row_ranges_cons.
  destruct (decide (reaches s y)); simpl; lia.
Qed.

Lemma row_ranges_nil sensors y :
  row_ranges sensors y = [] ↔ Forall (λ s, ¬ reaches s y) sensors.
Proof.
  induction sensors as [|s sensors IH]; [by split|]. rewrite row_ranges_cons.
  destruct (decide (reaches s y)).
  - split; [done|]. intros [? _]%Forall_cons. done.
  - rewrite Forall_cons, IH. tauto.
Qed.

Lemma clamp_range_covers minX maxX r x :
  minX ≤ maxX → SensorRange.start r ≤ SensorRange.end_ r →
  covers (clamp_range minX maxX r) x ↔
  minX ≤ x ≤ maxX ∧
  (covers r x ∨ (x = minX ∧ SensorRange.end_ r < minX)
   ∨ (x = maxX ∧ maxX < SensorRange.start r)).
Proof. unfold covers, clamp_range, clamped. simpl. lia. Qed.

Lemma getRanges_spec sensors minX maxX y :
  is_int minX → is_int maxX →
  (N.of_nat (length sensors) < SIZE_MODULUS)%N →
  (Forall (λ s, ∃ r, SensorRange.fromSensor s y = Value r) sensors →
   Exists (λ s, reaches s y) sensors → minX ≤ maxX →
   ∃ out, getRanges sensors minX maxX y = Value out) ∧
  (Forall (λ s, ∃ r, SensorRange.fromSensor s y = Value r) sensors →
   Forall (λ s, ¬ reaches s y) sensors ∨ maxX < minX →
   getRanges sensors minX maxX y = Undefined) ∧
  (∀ out, getRanges sensors minX maxX y = Value out →
     minX ≤ maxX ∧ out ≠ [] ∧ separated out ∧
     ∀ x, Exists (λ r, covers r x) out ↔
          minX ≤ x ≤ maxX ∧
          Exists (λ s, reaches s y ∧ (in_reach s y x ∨ stray s minX maxX y x)) sensors).
Proof.
  intros Hmin Hmax Hlen.
  assert (Hspec : ∀ out, reduce (row_ranges sensors y) minX maxX = Value out →
     minX ≤ maxX ∧ out ≠ [] ∧ separated out ∧
     ∀ x, Exists (λ r, covers r x) out ↔
          minX ≤ x ≤ maxX ∧
          Exists (λ s, reaches s y ∧ (in_reach s y x ∨ stray s minX maxX y x)) sensors).
  { intros out Hout.
    destruct (decide (row_ranges sensors y = [])) as [Hnil|Hne].
    { by rewrite reduce_undefined in Hout by (by left). }
    destruct (Z.lt_ge_cases maxX minX) as [Hlt|Hle].
    { by rewrite reduce_undefined in Hout by (by right). }
    split; [done|].
    destruct (reduce_spec (row_ranges sensors y) minX maxX) as (out' & Hout' & Hne' & Hsep & Hcov);
      try done.
    - pose proof (row_ranges_length sensors y). lia.
    - apply Hmin.
    - apply Hmax.
    - apply row_ranges_ordered.
    - rewrite Hout in Hout'. injection Hout' as <-. split; [done|]. split; [done|].
      intros x. rewrite Hcov, row_ranges_Exists. split.
      + intros Hex. apply Exists_exists in Hex as (s & Hs & Hreach & Hc).
        apply clamp_range_covers in Hc as [Hwin Hc]; [|done|by apply row_range_ordered].
        split; [done|]. apply Exists_exists. exists s. split; [done|]. split; [done|].
        rewrite (row_range_covers s y x Hreach) in Hc. unfold stray. tauto.
      + intros [Hwin Hex]. apply Exists_exists in Hex as (s & Hs & Hreach & Hc).
        apply Exists_exists. exists s. split; [done|]. split; [done|].
        apply clamp_range_covers; [done|by apply row_range_ordered|]. split; [done|].
        rewrite (row_range_covers s y x Hreach). unfold stray in Hc. tauto. }
  split; [|split].
  - intros Hdef Hreach Hle. unfold getRanges. rewrite push_ranges_Value by done. simpl.
    destruct (reduce_spec (row_ranges sensors y) minX maxX) as (out & Hout & _); try done.
    + intros Hnil%row_ranges_nil. apply Exists_exists in Hreach as (s & Hs & Hr).
      rewrite Forall_forall in Hnil. by apply (Hnil s).
    + pose proof (row_ranges_length sensors y). lia.
    + apply Hmin.
    + apply Hmax.
    + apply row_ranges_ordered.
    + by exists out.
  - intros Hdef Hcase. unfold getRanges. rewrite push_ranges_Value by done. simpl.
    apply reduce_undefined. rewrite row_ranges_nil. done.
  - intros out. unfold getRanges.
    intros (rs & Hrs%push_ranges_inv & Hout)%bind_inv. simpl in Hrs. subst rs.
    by apply Hspec.
Qed.

Lemma settled_getRanges sensors minX maxX y :
  (N.of_nat (length sensors) < SIZE_MODULUS)%N → settled (getRanges sensors minX maxX y).
Proof.
  intros Hlen. unfold getRanges. apply settled_bind.
  - generalize (@nil SensorRange.t).
    induction sensors as [|s sensors IH]; intros acc; [apply settled_Value|]. simpl.
    apply settled_bind; [apply settled_fromSensor|]. intros r _. apply IH.
    simpl in Hlen. lia.
  - intros rs Hrs%push_ranges_inv. simpl in Hrs. subst rs. apply settled_reduce.
    pose proof (row_ranges_length sensors y). lia.
Qed.



Lemma settled_part2_loop sensors row fuel : ∀ y,
  (N.of_nat (length sensors) < SIZE_MODULUS)%N →
  (Z.to_nat (2 * row + 1 - y) <= fuel)%nat →
  settled (part2_loop fuel sensors row y).
Proof.
  induction fuel as [|fuel IH]; intros y Hlen Hfuel.
  - simpl. apply settled_bind; [apply settled_int|]. intros limit [-> _]%int_inv.
    destruct (Z.leb_spec y (2 * row)); [exfalso; lia|apply settled_Value].
  - simpl. apply settled_bind; [apply settled_int|]. intros limit [-> _]%int_inv.
    destruct (Z.leb_spec y (2 * row)); [|apply settled_Value].
    apply settled_bind; [by apply settled_getRanges|]. intros runs _.
    destruct (_ =? _)%nat.
    + apply settled_bind; [apply settled_subscript|]. intros r _.
      apply settled_bind; [apply settled_int|]. intros x _.
      apply settled_bind; [apply settled_int|]. intros x4 _. apply settled_Value.
    + apply settled_bind; [apply settled_int|]. intros y' [-> _]%int_inv.
      apply IH; [done|lia].
Qed.

Lemma settled_part2 sensors row :
  (N.of_nat (length sensors) < SIZE_MODULUS)%N → settled (part2 sensors row).
Proof. intros Hlen. apply settled_part2_loop; [done|lia]. Qed.

(** X9.  [getRanges] gives the runs of a row.  It throws nothing and its
    loops end.  When it returns, the window is not empty and the ranges
    returned are in ascending order with a gap between any two, and they
    cover these positions of the window: those within reach of a sensor and,
    when a sensor reaches the row with positions wholly beyond an end of the
    window, that end, onto which [std::clamp] moves its range.  It does
    return when no range of a sensor overflows, a sensor reaches the row and
    the window is not empty. *)
Theorem getRanges_gives_the_runs_of_a_row sensors minX maxX y :
  is_int minX → is_int maxX →
  (N.of_nat (length sensors) < SIZE_MODULUS)%N →
  settled (getRanges sensors minX maxX y) ∧
  (Forall (λ s, ∃ r, SensorRange.fromSensor s y = Value r) sensors →
   Exists (λ s, reaches s y) sensors → minX ≤ maxX →
   ∃ out, getRanges sensors minX maxX y = Value out) ∧
  (∀ out, getRanges sensors minX maxX y = Value out →
     minX ≤ maxX ∧ out ≠ [] ∧ separated out ∧
     ∀ x, Exists (λ r, covers r x) out ↔
          minX ≤ x ≤ maxX ∧
          Exists (λ s, reaches s y ∧ (in_reach s y x ∨ stray s minX maxX y x)) sensors).
Proof.
  intros Hmin Hmax Hlen. split; [by apply settled_getRanges|].
  destruct (getRanges_spec sensors minX maxX y Hmin Hmax Hlen) as (Hdef & _ & Hval).
  split; [exact Hdef|exact Hval].
Qed.

(** ** Rows that no sensor reaches *)

Lemma push_ranges_none sensors y : ∀ acc,
  Forall (λ s, SensorRange.fromSensor s y = Value None) sensors →
  push_ranges sensors y acc = Value acc.
Proof.
  induction sensors as [|s sensors IH]; intros acc Hnone; [done|].
  apply Forall_cons in Hnone as [Hs Hnone]. simpl. rewrite Hs. simpl. by apply IH.
Qed.

Lemma getRanges_out_of_reach sensors minX maxX y :
  Forall (λ s, SensorRange.fromSensor s y = Value None) sensors →
  getRanges sensors minX maxX y = Undefined.
Proof. intros Hnone. unfold getRanges. by rewrite push_ranges_none. Qed.

Lemma part1_out_of_reach sensors row :
  Forall (λ s, SensorRange.fromSensor s row = Value None) sensors →
  part1 sensors row = Undefined.
Proof.
  intros Hnone. unfold part1. destruct (extent sensors) as [[xMin xMax] strengthMax].
  destruct (int_cases (xMin - strengthMax)) as [-> | ->]; [|done].
  destruct (int_cases (xMax + strengthMax)) as [-> | ->]; [|done].
  simpl. by rewrite getRanges_out_of_reach.
Qed.

Lemma main_empty_file arg row argv :
  parseNumber arg = Value row → main ("" :: arg :: argv) = Undefined.
Proof.
  intros Hrow. unfold main. simpl. by rewrite Hrow.
Qed.

(** X10.  A row that no sensor reaches is undefined behaviour: no range is
    pushed, and [reduce] reads [ranges[0]] of the empty vector, since
    [ranges.size() - 1] wraps round.  So [getRanges] and [part1] are
    undefined for such a row, whatever the window, and so is the program
    for a file that holds no line, as one that cannot be opened does. *)
Theorem rows_out_of_reach_are_undefined :
  (∀ sensors minX maxX y,
     Forall (λ s, SensorRange.fromSensor s y = Value None) sensors →
     getRanges sensors minX maxX y = Undefined) ∧
  (∀ sensors row,
     Forall (λ s, SensorRange.fromSensor s row = Value None) sensors →
     part1 sensors row = Undefined) ∧
  (∀ arg row argv,
     parseNumber arg = Value row → main ("" :: arg :: argv) = Undefined).
Proof.
  split; [|split].
  - intros sensors minX maxX y Hnone. unfold getRanges.
    by rewrite push_ranges_none.
  - intros sensors row Hnone. by apply part1_out_of_reach.
  - intros arg row argv Hrow. by apply (main_empty_file arg row).
Qed.

(** ** [part1] *)





Lemma separated_within runs lo hi :
  separated runs →
  (∀ x, Exists (λ r, covers r x) runs → lo ≤ x ≤ hi) →
  Forall (λ r, lo ≤ SensorRange.start r ∧ SensorRange.start r ≤ SensorRange.end_ r
               ∧ SensorRange.end_ r ≤ hi) runs.
Proof.
  intros Hsep Hwin. apply Forall_forall. intros r Hr.
  assert (Hord : SensorRange.start r ≤ SensorRange.end_ r).
  { clear Hwin. induction runs as [|a runs IH]; [by apply elem_of_nil in Hr|].
    destruct Hsep as (Ha & _ & Hsep).
    apply elem_of_cons in Hr as [->|Hr]; [done|by apply IH]. }
  assert (H1 : Exists (λ r0, covers r0 (SensorRange.start r)) runs).
  { apply Exists_exists. exists r. split; [done|]. unfold covers. lia. }
  assert (H2 : Exists (λ r0, covers r0 (SensorRange.end_ r)) runs).
  { apply Exists_exists. exists r. split; [done|]. unfold covers. lia. }
  apply Hwin in H1, H2. lia.
Qed.





(** ** Numerals *)

Local Open Scope N_scope.

Lemma digit_char c k :
  digit_value c = Some k →
  (k = 0 ∧ c = "0"%char) ∨ (k = 1 ∧ c = "1"%char) ∨ (k = 2 ∧ c = "2"%char) ∨
  (k = 3 ∧ c = "3"%char) ∨ (k = 4 ∧ c = "4"%char) ∨ (k = 5 ∧ c = "5"%char) ∨
  (k = 6 ∧ c = "6"%char) ∨ (k = 7 ∧ c = "7"%char) ∨ (k = 8 ∧ c = "8"%char) ∨
  (k = 9 ∧ c = "9"%char).
Proof.
  unfold digit_value. intros H.
  destruct (N.leb_spec 48 (N_of_ascii c)); [|done].
  destruct (N.leb_spec (N_of_ascii c) 57); [|done].
  injection H as <-.
  rewrite <- (ascii_N_embedding c).
  assert (Hc : N_of_ascii c = 48 ∨ N_of_ascii c = 49 ∨ N_of_ascii c = 50 ∨
               N_of_ascii c = 51 ∨ N_of_ascii c = 52 ∨ N_of_ascii c = 53 ∨
               N_of_ascii c = 54 ∨ N_of_ascii c = 55 ∨ N_of_ascii c = 56 ∨
               N_of_ascii c = 57) by lia.
  destruct Hc as [-> |[-> |[-> |[-> |[-> |[-> |[-> |[-> |[-> | ->]]]]]]]]];
    vm_compute; tauto.
Qed.

Ltac digit_cases H :=
  apply digit_char in H as
    [[-> ->]|[[-> ->]|[[-> ->]|[[-> ->]|[[-> ->]|[[-> ->]|[[-> ->]|[[-> ->]|[[-> ->]|[-> ->]]]]]]]]]].

Lemma uint_of_string s :
  all_digits s = true → NilEmpty.string_of_uint (uint_of s) = s.
Proof.
  induction s as [|c s IH]; [done|]. simpl.
  destruct (digit_value c) as [k|] eqn:Hk; [|done]. intros Hs.
  digit_cases Hk; simpl; by rewrite IH.
Qed.

Lemma uint_of_horner s : ∀ acc,
  all_digits s = true → horner (uint_of s) acc = digits acc s.
Proof.
  induction s as [|c s IH]; intros acc; [done|]. simpl.
  destruct (digit_value c) as [k|] eqn:Hk; [|done]. intros Hs.
  digit_cases Hk; simpl; rewrite IH by done; f_equal; lia.
Qed.

Lemma uint_of_head c s :
  all_digits (String c s) = true → c ≠ "0"%char →
  Decimal.nzhead (uint_of (String c s)) = uint_of (String c s) ∧
  uint_of (String c s) ≠ Decimal.Nil.
Proof.
  simpl. destruct (digit_value c) as [k|] eqn:Hk; [|done]. intros Hs Hc.
  digit_cases Hk; done.
Qed.

Lemma decimal_canonical c s :
  all_digits (String c s) = true → c ≠ "0"%char →
  decimal (digits 0 (String c s)) = String c s.
Proof.
  intros Hs Hc. rewrite <- uint_of_horner, horner_0 by done.
  unfold decimal. rewrite DecimalN.Unsigned.to_of.
  destruct (uint_of_head c s Hs Hc) as [Hnz Hnil].
  rewrite DecimalFacts.unorm_nzhead by (by rewrite Hnz). rewrite Hnz.
  unfold NilZero.string_of_uint.
  destruct (uint_of (String c s)) eqn:E; [done|..]; rewrite <- E; by apply uint_of_string.
Qed.

Lemma all_digits_app a b : all_digits (a +:+ b) = all_digits a && all_digits b.
Proof.
  induction a as [|c a IH]; [done|]. rewrite string_app_cons. simpl.
  by destruct (digit_value c).
Qed.

Lemma all_digits_uint d : all_digits (NilEmpty.string_of_uint d) = true.
Proof. induction d; simpl; done. Qed.

Lemma all_digits_decimal n : all_digits (decimal n) = true.
Proof.
  unfold decimal, NilZero.string_of_uint.
  destruct (N.to_uint n) eqn:E; [done|..]; rewrite <- E; apply all_digits_uint.
Qed.

Lemma all_digits_zeros k : all_digits (zeros k) = true.
Proof. induction k; simpl; done. Qed.

Lemma digits_app a : ∀ acc b,
  all_digits a = true → digits acc (a +:+ b) = digits (digits acc a) b.
Proof.
  induction a as [|c a IH]; intros acc b; [done|]. rewrite string_app_cons. simpl.
  destruct (digit_value c); [|done]. apply IH.
Qed.

Lemma digits_scale s : ∀ acc,
  all_digits s = true →
  digits acc s = acc * 10 ^ N.of_nat (String.length s) + digits 0 s.
Proof.
  induction s as [|c s IH]; intros acc; [simpl; lia|]. simpl String.length.
  simpl digits. simpl all_digits. destruct (digit_value c) as [k|]; [|done]. intros Hs.
  rewrite (IH (10 * acc + k)), (IH (10 * 0 + k)) by done.
  rewrite Nat2N.inj_succ, N.pow_succ_r'. lia.
Qed.

Lemma digits_zeros k : ∀ acc, digits acc (zeros k) = acc * 10 ^ N.of_nat k.
Proof.
  induction k as [|k IH]; intros acc; [simpl; lia|].
  change (zeros (S k)) with (String "0" (zeros k)). simpl digits.
  rewrite IH, Nat2N.inj_succ, N.pow_succ_r'. lia.
Qed.

Lemma length_zeros k : String.length (zeros k) = k.
Proof. induction k; simpl; congruence. Qed.

Lemma digits_decimal n : digits 0 (decimal n) = n.
Proof.
  rewrite <- (string_app_nil_r (decimal n)). by apply decimal_digits.
Qed.

Lemma digits_upper s : all_digits s = true → digits 0 s < 10 ^ N.of_nat (String.length s).
Proof.
  induction s as [|c s IH]; [simpl; lia|]. simpl all_digits. simpl digits.
  destruct (digit_value c) as [k|] eqn:Hk; [|done]. intros Hs.
  rewrite digits_scale by done. simpl String.length.
  rewrite Nat2N.inj_succ, N.pow_succ_r'. specialize (IH Hs).
  assert (k <= 9).
  { unfold digit_value in Hk. destruct (_ && _) eqn:E; [|done]. injection Hk as <-.
    apply andb_true_iff in E as [_ E%N.leb_le]. lia. }
  nia.
Qed.

Lemma digits_zero_head s : digits 0 (String "0" s) = digits 0 s.
Proof. reflexivity. Qed.

Lemma decimal_head_nonzero n :
  0 < n → ∃ c s, decimal n = String c s ∧ c ≠ "0"%char.
Proof.
  intros Hn. destruct (decimal n) as [|c s] eqn:E.
  { destruct (decimal_head n) as (c & s & d & Hdec & _). congruence. }
  exists c, s. split; [done|]. intros ->.
  pose proof (all_digits_decimal n) as Hall. rewrite E in Hall.
  pose proof (digits_decimal n) as Hval. rewrite E, digits_zero_head in Hval.
  assert (Hs : all_digits s = true) by done.
  destruct s as [|c s].
  { simpl in Hval. lia. }
  (* the numeral without its leading zero has the same value *)
  assert (Hshort : ∀ t, all_digits t = true →
            (String.length (decimal (digits 0 t)) <= String.length t)%nat
            ∨ digits 0 t = 0).
  { clear. induction t as [|c t IH]; [by right|]. intros Ht.
    destruct (ascii_dec c "0") as [->|Hc].
    - rewrite digits_zero_head. assert (Ht' : all_digits t = true) by done.
      destruct (IH Ht') as [Hle|Hz]; [left; simpl; lia|by right].
    - left. by rewrite (decimal_canonical c t). }
  destruct (Hshort _ Hs) as [Hle|Hz]; [|lia].
  rewrite Hval, E in Hle. simpl in Hle. lia.
Qed.

Lemma decimal_length_le k b :
  (1 <= k)%nat → b < 10 ^ N.of_nat k → (String.length (decimal b) <= k)%nat.
Proof.
  intros Hk Hb. destruct (N.eq_dec b 0) as [->|Hne]; [vm_compute String.length; lia|].
  destruct (decimal_head_nonzero b) as (c & s & E & Hc); [lia|].
  pose proof (all_digits_decimal b) as Hall. pose proof (digits_decimal b) as Hval.
  rewrite E in Hall, Hval |- *. simpl in Hall. simpl digits in Hval.
  destruct (digit_value c) as [d|] eqn:Hd; [|done].
  rewrite digits_scale in Hval by done.
  assert (1 <= d) by (digit_cases Hd; first [done|lia]).
  destruct (le_gt_dec (S (String.length s)) k) as [Hle|Hgt]; [done|exfalso].
  assert (10 ^ N.of_nat k <= 10 ^ N.of_nat (String.length s))
    by (apply N.pow_le_mono_r; lia).
  nia.
Qed.

Lemma decimal_length_small b : b < 1000000 → (String.length (decimal b) <= 6)%nat.
Proof. intros Hb. by apply (decimal_length_le 6); [lia|]. Qed.

Lemma decimal_length_large b : 1000000 <= b → (7 <= String.length (decimal b))%nat.
Proof.
  intros Hb. pose proof (digits_upper (decimal b) (all_digits_decimal b)) as Hup.
  rewrite digits_decimal in Hup.
  destruct (le_gt_dec 7 (String.length (decimal b))) as [Hle|Hgt]; [done|exfalso].
  assert (10 ^ N.of_nat (String.length (decimal b)) <= 10 ^ 6)
    by (apply N.pow_le_mono_r; lia).
  change (10 ^ 6) with 1000000 in *. lia.
Qed.

Lemma padded_value a b :
  let s := decimal a +:+ zeros (6 - String.length (decimal b)) +:+ decimal b in
  0 < a →
  decimal (digits 0 s) = s ∧
  digits 0 s = a * 10 ^ N.of_nat (Nat.max 6 (String.length (decimal b))) + b.
Proof.
  intros s Ha. subst s.
  destruct (decimal_head_nonzero a Ha) as (c & t & E & Hc).
  split.
  - rewrite E, string_app_cons. apply decimal_canonical; [|done].
    rewrite <- string_app_cons, <- E.
    by rewrite !all_digits_app, !all_digits_decimal, all_digits_zeros.
  - rewrite digits_app, digits_decimal by apply all_digits_decimal.
    rewrite digits_app, digits_zeros by apply all_digits_zeros.
    rewrite digits_scale, digits_decimal by apply all_digits_decimal.
    rewrite <- N.mul_assoc, <- N.pow_add_r. do 3 f_equal. lia.
Qed.

Lemma tuning_frequency_N a b :
  0 < a →
  decimal a +:+ zeros (6 - String.length (decimal b)) +:+ decimal b
  = decimal (a * 1000000 + b) ↔ b < 1000000.
Proof.
  intros Ha. destruct (padded_value a b Ha) as [Hcanon Hval]. split.
  - intros Heq. destruct (N.lt_ge_cases b 1000000) as [|Hge]; [done|exfalso].
    apply decimal_length_large in Hge.
    rewrite Heq, digits_decimal in Hval.
    rewrite Nat.max_r in Hval by lia.
    assert (10 ^ 7 <= 10 ^ N.of_nat (String.length (decimal b)))
      by (apply N.pow_le_mono_r; lia).
    change (10 ^ 7) with 10000000 in *. nia.
  - intros Hb. apply decimal_length_small in Hb.
    rewrite Nat.max_l in Hval by lia. change (10 ^ N.of_nat 6) with 1000000 in Hval.
    by rewrite <- Hval, Hcanon.
Qed.

Local Open Scope Z_scope.

Lemma tuning_frequency x y :
  1 ≤ x → 0 ≤ y →
  to_string (4 * x) +:+ format_06 y = to_string (4000000 * x + y) ↔ y < 1000000.
Proof.
  intros Hx Hy. unfold to_string, format_06.
  destruct (Z.ltb_spec (4 * x) 0); [lia|]. destruct (Z.ltb_spec y 0); [lia|].
  destruct (Z.ltb_spec (4000000 * x + y) 0); [lia|].
  replace (Z.abs_N (4000000 * x + y)) with (Z.abs_N (4 * x) * 1000000 + Z.abs_N y)%N by lia.
  rewrite tuning_frequency_N by lia. lia.
Qed.

(** ** [part2] *)

Lemma part2_loop_spec sensors row fuel : ∀ y out,
  part2_loop fuel sensors row y = Value out →
  is_int (2 * row) ∧
  ((out = [] ∧ ∀ y', y ≤ y' ≤ 2 * row → not_two sensors row y') ∨
   (∃ y' r1 r2,
      y ≤ y' ≤ 2 * row ∧
      getRanges sensors 0 (2 * row) y' = Value [r1; r2] ∧
      (∀ y'', y ≤ y'' < y' → not_two sensors row y'') ∧
      out = [text (to_string (4 * (SensorRange.end_ r1 + 1)) +:+ format_06 y'); endl])).
Proof.
  induction fuel as [|fuel IH]; intros y out.
  - simpl. intros (limit & [-> Hlimit]%int_inv & H)%bind_inv. split; [done|].
    destruct (Z.leb_spec y (2 * row)); [done|]. injection H as <-.
    left. split; [done|]. intros y' Hy'. lia.
  - simpl. intros (limit & [-> Hlimit]%int_inv & H)%bind_inv. split; [done|].
    destruct (Z.leb_spec y (2 * row)) as [Hle|Hgt].
    2:{ injection H as <-. left. split; [done|]. intros y' Hy'. lia. }
    apply bind_inv in H as (runs & Hruns & H).
    destruct (Nat.eqb_spec (length runs) 2) as [Hlen|Hlen].
    + destruct runs as [|r1 [|r2 [|]]]; try done. clear Hlen.
      apply bind_inv in H as (r & Hr & H). injection Hr as <-.
      apply bind_inv in H as (x & [-> _]%int_inv & H).
      apply bind_inv in H as (x4 & [-> _]%int_inv & H).
      injection H as <-. right. exists y, r1, r2.
      split; [lia|]. split; [done|]. split; [intros; lia|done].
    + apply bind_inv in H as (y1 & [-> _]%int_inv & H).
      destruct (IH _ _ H) as [_ [[-> Hall]|(y' & r1 & r2 & Hy' & Hfound & Hbefore & ->)]].
      * left. split; [done|]. intros y' Hy'.
        destruct (decide (y' = y)) as [->|Hne]; [by exists runs|]. apply Hall. lia.
      * right. exists y', r1, r2. split; [lia|]. split; [done|]. split; [|done].
        intros y'' Hy''.
        destruct (decide (y'' = y)) as [->|Hne]; [by exists runs|]. apply Hbefore. lia.
Qed.

(** X12.  [part2] throws nothing and ends.  When it prints, it prints for the
    first row [y] of [0 .. 2 * row] that is merged into exactly two ranges,
    and for the position [x] after the first of them: [x] is inside the
    window and within reach of no sensor.  What is printed is [4 * x]
    followed by [y] in six digits or more, which is the number
    [4000000 * x + y] exactly when [y] is below [10^6].  When it prints
    nothing, every row of the window was merged into a number of ranges
    other than two. *)
Theorem part2_prints_the_first_gap sensors row :
  (N.of_nat (length sensors) < SIZE_MODULUS)%N →
  settled (part2 sensors row) ∧
  ∀ out, part2 sensors row = Value out →
    (out = [] ∧ ∀ y, 0 ≤ y ≤ 2 * row → not_two sensors row y) ∨
    ∃ y r1 r2,
      let x := SensorRange.end_ r1 + 1 in
      0 ≤ y ≤ 2 * row ∧
      getRanges sensors 0 (2 * row) y = Value [r1; r2] ∧
      (∀ y', 0 ≤ y' < y → not_two sensors row y') ∧
      0 < x < 2 * row ∧
      Forall (λ s, ¬ in_reach s y x) sensors ∧
      out = [text (to_string (4 * x) +:+ format_06 y); endl] ∧
      (to_string (4 * x) +:+ format_06 y = to_string (4000000 * x + y) ↔ y < 1000000).
Proof.
  intros Hlen. split; [by apply settled_part2|].
  intros out Hout. unfold part2 in Hout.
  apply part2_loop_spec in Hout as [Hlimit [Hnone|Hsome]]; [by left|right].
  destruct Hsome as (y & r1 & r2 & Hy & Hfound & Hbefore & ->).
  exists y, r1, r2. cbv zeta. split; [done|]. split; [done|]. split; [done|].
  assert (H0 : is_int 0) by (unfold is_int, INT_MIN, INT_MAX; lia).
  destruct (getRanges_spec sensors 0 (2 * row) y H0 Hlimit Hlen) as (_ & _ & Hspec).
  destruct (Hspec _ Hfound) as (_ & _ & Hsep & Hcov).
  pose proof (separated_within [r1; r2] 0 (2 * row) Hsep) as Hwin.
  assert (Hin : Forall (λ r, 0 ≤ SensorRange.start r ∧
                  SensorRange.start r ≤ SensorRange.end_ r ∧
                  SensorRange.end_ r ≤ 2 * row) [r1; r2]).
  { apply Hwin. intros x Hx. by apply Hcov in Hx as [? _]. }
  apply Forall_cons in Hin as [Hr1 Hin]. apply Forall_cons in Hin as [Hr2 _].
  destruct Hsep as (_ & Hgap & _).
  split; [lia|]. split.
  - apply Forall_forall. intros s Hs Hreach.
    assert (Hx : Exists (λ r, covers r (SensorRange.end_ r1 + 1)) [r1; r2]).
    { apply Hcov. split; [lia|]. apply Exists_exists. exists s. split; [done|].
      split; [|by left]. unfold in_reach, reaches in *. lia. }
    apply Exists_cons in Hx as [Hx|Hx]; [unfold covers in Hx; lia|].
    apply Exists_cons in Hx as [Hx|Hx]; [unfold covers in Hx; lia|].
    by apply Exists_nil in Hx.
  - split; [done|]. apply tuning_frequency; lia.
Qed.

(** ** [main] *)

Lemma pairs_ind (P : list string → Prop) :
  P [] → (∀ a b l, P l → P (a :: b :: l)) →
  ∀ l, Nat.Even (length l) → P l.
Proof.
  intros Hnil Hstep l. remember (length l) as n eqn:Hn. revert l Hn.
  induction n as [n IH] using lt_wf_ind. intros l Hn Heven.
  destruct l as [|a [|b l]].
  - done.
  - simpl in Hn. subst n. destruct Heven as [k Hk]. lia.
  - apply Hstep. apply (IH (length l)); [simpl in Hn; lia|done|].
    simpl in Hn. subst n. destruct Heven as [k Hk]. exists (k - 1)%nat. lia.
Qed.

Lemma main_loop_unpaired argv x :
  Nat.Even (length argv) →
  ∀ cout, main_loop (argv ++ [x]) cout = main_loop argv cout.
Proof.
  revert argv.
  apply (pairs_ind (λ argv, ∀ cout, main_loop (argv ++ [x]) cout = main_loop argv cout)).
  - done.
  - intros file arg argv IH cout.
    change ((file :: arg :: argv) ++ [x]) with (file :: arg :: (argv ++ [x])).
    simpl. destruct (parseNumber arg); try done. destruct (parse file); try done.
    destruct (part1 _ _); try done. destruct (part2 _ _); try done.
Qed.

Lemma main_loop_pairs_app before after :
  Nat.Even (length before) →
  ∀ c0 c1, main_loop before c0 = (c1, Value ()) →
           main_loop (before ++ after) c0 = main_loop after c1.
Proof.
  revert before.
  apply (pairs_ind (λ before, ∀ c0 c1, main_loop before c0 = (c1, Value ()) →
           main_loop (before ++ after) c0 = main_loop after c1)).
  - intros c0 c1. simpl. by intros [= ->].
  - intros file arg before IH c0 c1.
    change ((file :: arg :: before) ++ after) with (file :: arg :: (before ++ after)).
    simpl. destruct (parseNumber arg); try done. destruct (parse file); try done.
    destruct (part1 _ _); try done. destruct (part2 _ _); try done. apply IH.
Qed.

Lemma main_loop_pair_throws file arg after cout cout' ex :
  main_loop [file; arg] cout = (cout', Throws ex) →
  main_loop (file :: arg :: after) cout = (cout', Throws ex).
Proof.
  simpl. destruct (parseNumber arg); try done. destruct (parse file); try done.
  destruct (part1 _ _); try done. destruct (part2 _ _); try done.
Qed.

(** X13.  [main] takes its arguments two at a time, a file and a row.  A
    last argument without a partner is ignored.  The first pair whose
    processing throws ends the program: what was written for the pairs
    before it stays, the error goes to the standard error, the exit status
    is 1, and the pairs after it are not looked at.  A row that is no
    number is such an error, whatever the file holds. *)
Theorem main_takes_its_arguments_in_pairs :
  (∀ argv x, Nat.Even (length argv) → main (argv ++ [x]) = main argv) ∧
  (∀ before file arg after cout cout' ex,
     Nat.Even (length before) →
     main_loop before [] = (cout, Value ()) →
     main_loop [file; arg] cout = (cout', Throws ex) →
     main (before ++ file :: arg :: after)
     = Value (mkOutcome cout' [text "ERROR: "; text (what ex); endl] 1)) ∧
  (∀ file arg after ex,
     parseNumber arg = Throws ex →
     main (file :: arg :: after)
     = Value (mkOutcome [] [text "ERROR: "; text (what ex); endl] 1)).
Proof.
  split; [|split].
  - intros argv x Heven. unfold main. by rewrite (main_loop_unpaired argv x Heven).
  - intros before file arg after cout cout' ex Heven Hbefore Hpair. unfold main.
    rewrite (main_loop_pairs_app before _ Heven [] cout Hbefore).
    by rewrite (main_loop_pair_throws file arg after cout cout' ex Hpair).
  - intros file arg after ex Harg. unfold main. simpl. by rewrite Harg.
Qed.

(** ** Reading a sensor *)

Lemma subject_decimal n :
  subject (decimal n) = Some (false, n).
Proof.
  unfold subject.
  pose proof (digits_decimal n) as Hdigits.
  destruct (decimal_head n) as (c & s & d & Hdec & Hc).
  destruct (digit_plain c d Hc) as (Hsp & Hm & Hp).
  rewrite Hdec in *. simpl skip_spaces. rewrite Hsp.
  assert (Hsign : (match String c s with
                   | String "-" s' => (true, s')
                   | String "+" s' => (false, s')
                   | _ => (false, String c s)
                   end) = (false, String c s)).
  { destruct c as [[] [] [] [] [] [] [] []]; done. }
  by rewrite Hsign, Hc, Hdigits.
Qed.

Lemma subject_minus_decimal n :
  subject ("-" +:+ decimal n) = Some (true, n).
Proof.
  unfold subject. rewrite string_app_cons, string_app_nil_l.
  pose proof (digits_decimal n) as Hdigits.
  destruct (decimal_head n) as (c & s & d & Hdec & Hc).
  rewrite Hdec in *. change (skip_spaces (String "-" (String c s))) with (String "-" (String c s)).
  cbv iota beta. by rewrite Hc, Hdigits.
Qed.

Lemma parseNumber_to_string z : is_int z → parseNumber (to_string z) = Value z.
Proof.
  intros [Hlo Hhi]. unfold INT_MIN, INT_MAX in *. unfold parseNumber, strtol, to_string.
  destruct (Z.ltb_spec z 0).
  - rewrite subject_minus_decimal. f_equal. unfold to_int, LONG_MIN, LONG_MAX.
    rewrite N2Z.inj_abs_N. rewrite Z.max_r, Z.min_r by lia.
    replace (- Z.abs z) with z by lia. rewrite Z.mod_small by lia. lia.
  - rewrite subject_decimal. f_equal. unfold to_int, LONG_MIN, LONG_MAX.
    rewrite N2Z.inj_abs_N. rewrite Z.max_r, Z.min_r by lia.
    replace (Z.abs z) with z by lia. rewrite Z.mod_small by lia. lia.
Qed.

Lemma to_string_plain c z :
  digit_value c = None → c ≠ "-"%char → mentions c (to_string z) = false.
Proof.
  intros Hc Hm. unfold to_string. destruct (z <? 0).
  - rewrite mentions_app, decimal_digits_only by done. simpl.
    rewrite !orb_false_r. by apply Ascii.eqb_neq.
  - by apply decimal_digits_only.
Qed.

Local Open Scope N_scope.

Lemma field pre num c sep rest :
  mentions c num = false →
  string_size (pre +:+ num +:+ String c sep +:+ rest) < npos →
  let line := pre +:+ num +:+ String c sep +:+ rest in
  find line (String c "") (string_size pre) = string_size (pre +:+ num) ∧
  substr line (string_size pre) (wrap_sub (string_size (pre +:+ num)) (string_size pre))
  = Ok num.
Proof.
  intros Hc Hsize line. subst line. rewrite npos_eq in Hsize. rewrite !size_app in Hsize.
  split.
  - rewrite find_at.
    change (String c sep +:+ rest) with (String c "" +:+ sep +:+ rest).
    rewrite (find_in_skip c "" num (sep +:+ rest) Hc). rewrite size_app. done.
  - apply substr_mid. rewrite size_app, wrap_sub_small; rewrite ?SIZE_MODULUS_eq; lia.
Qed.

Lemma to_string_short z : is_int z → string_size (to_string z) <= 11.
Proof.
  intros [Hlo Hhi]. unfold INT_MIN, INT_MAX in *. unfold to_string.
  assert (Hd : (String.length (decimal (Z.abs_N z)) <= 10)%nat).
  { apply decimal_length_le; [lia|]. change (10 ^ N.of_nat 10) with 10000000000. lia. }
  destruct (z <? 0)%Z.
  - rewrite size_app. unfold string_size. simpl String.length. lia.
  - unfold string_size. lia.
Qed.

Lemma sensor_line_short sx sy bx by_ :
  is_int sx → is_int sy → is_int bx → is_int by_ →
  string_size (sensor_line sx sy bx by_) < npos.
Proof.
  intros Hsx%to_string_short Hsy%to_string_short Hbx%to_string_short
    Hby%to_string_short.
  unfold sensor_line. rewrite !size_app, npos_eq.
  change (string_size "Sensor at x=") with 12.
  change (string_size ", y=") with 4.
  change (string_size ": closest beacon is at x=") with 25. lia.
Qed.

(** X14.  A line in the format of the puzzle is read back as the sensor it
    describes: for coordinates that are [int]s, written in decimal, with a
    distance between sensor and beacon that is an [int], the sensor has the
    location, the beacon and that distance as its strength. *)
Theorem parse_line_reads_back_a_sensor_line sx sy bx by_ :
  is_int sx → is_int sy → is_int bx → is_int by_ →
  (Z.abs (sx - bx) + Z.abs (sy - by_) ≤ INT_MAX)%Z →
  parse_line (sensor_line sx sy bx by_)
  = Value (mkSensor (sx, sy) (bx, by_) (Z.abs (sx - bx) + Z.abs (sy - by_))).
Proof.
  intros Hsx Hsy Hbx Hby Hfit.
  pose proof (sensor_line_short sx sy bx by_ Hsx Hsy Hbx Hby) as Hsize.
  set (A := to_string sx) in *. set (B := to_string sy) in *.
  set (C := to_string bx) in *. set (D := to_string by_) in *.
  assert (HA : mentions "," A = false) by (by apply to_string_plain).
  assert (HB : mentions ":" B = false) by (by apply to_string_plain).
  assert (HC : mentions "," C = false) by (by apply to_string_plain).
  set (P1 := "Sensor at x="%string).
  set (P2 := (P1 +:+ A +:+ ", y=")%string).
  set (P3 := (P2 +:+ B +:+ ": closest beacon is at x=")%string).
  set (P4 := (P3 +:+ C +:+ ", y=")%string).
  assert (E1 : sensor_line sx sy bx by_
               = P1 +:+ A +:+ String "," " y=" +:+ (B +:+ ": closest beacon is at x="
                   +:+ C +:+ ", y=" +:+ D)) by done.
  assert (E2 : sensor_line sx sy bx by_
               = P2 +:+ B +:+ String ":" " closest beacon is at x=" +:+ (C +:+ ", y=" +:+ D)).
  { unfold P2, sensor_line. fold A B C D P1. by rewrite !string_app_assoc. }
  assert (E3 : sensor_line sx sy bx by_ = P3 +:+ C +:+ String "," " y=" +:+ D).
  { rewrite E2. unfold P3. by rewrite !string_app_assoc. }
  assert (E4 : sensor_line sx sy bx by_ = P4 +:+ D).
  { rewrite E3. unfold P4. by rewrite !string_app_assoc. }
  assert (S1 : string_size (P1 +:+ A) + 4 = string_size P2).
  { unfold P2. rewrite <- string_app_assoc, (size_app (P1 +:+ A)). done. }
  assert (S2 : string_size (P2 +:+ B) + 25 = string_size P3).
  { unfold P3. rewrite <- string_app_assoc, (size_app (P2 +:+ B)). done. }
  assert (S3 : string_size (P3 +:+ C) + 4 = string_size P4).
  { unfold P4. rewrite <- string_app_assoc, (size_app (P3 +:+ C)). done. }
  pose proof Hsize as Hs4. rewrite E4, size_app, npos_eq in Hs4.
  clearbody P2 P3 P4.
  pose proof S1 as S1'. pose proof S2 as S2'. pose proof S3 as S3'.
  rewrite size_app in S1', S2', S3'.
  unfold parse_line.
  change 12 with (string_size P1).
  destruct (field P1 A "," " y=" (B +:+ ": closest beacon is at x=" +:+ C +:+ ", y=" +:+ D) HA) as [F1 G1]; [by rewrite <- E1|].
  rewrite <- E1 in F1, G1. rewrite F1, G1. simpl lift. rewrite bind_Value.
  rewrite (parseNumber_to_string sx Hsx : parseNumber A = Value sx), bind_Value.
  rewrite (wrap_small (string_size (P1 +:+ A) + 4)) by (rewrite SIZE_MODULUS_eq, size_app; lia). rewrite S1.
  destruct (field P2 B ":" " closest beacon is at x=" (C +:+ ", y=" +:+ D) HB) as [F2 G2]; [by rewrite <- E2|].
  rewrite <- E2 in F2, G2. rewrite F2, G2. simpl lift. rewrite bind_Value.
  rewrite (parseNumber_to_string sy Hsy : parseNumber B = Value sy), bind_Value.
  rewrite (wrap_small (string_size (P2 +:+ B) + 25)) by (rewrite SIZE_MODULUS_eq, size_app; lia). rewrite S2.
  destruct (field P3 C "," " y=" D HC) as [F3 G3]; [by rewrite <- E3|].
  rewrite <- E3 in F3, G3. rewrite F3, G3. simpl lift. rewrite bind_Value.
  rewrite (parseNumber_to_string bx Hbx : parseNumber C = Value bx), bind_Value.
  rewrite (wrap_small (string_size (P3 +:+ C) + 4)) by (rewrite SIZE_MODULUS_eq, size_app; lia). rewrite S3.
  rewrite E4 at 1. rewrite substr_end by (rewrite npos_eq; lia).
  simpl lift. rewrite bind_Value.
  rewrite (parseNumber_to_string by_ Hby : parseNumber D = Value by_), bind_Value.
  unfold metric, abs. cbn [fst snd].
  unfold is_int, INT_MIN, INT_MAX in *.
  repeat (rewrite int_Value by (unfold is_int, INT_MIN, INT_MAX; lia);
          rewrite ?bind_Value; cbv beta).
  done.
Qed.

End Day15Properties.

(** * The code at work on the networks above *)

Lemma listed_order_perm A (l : list (string * A)) : listed_order A l ≡ₚ l.
Proof. reflexivity. Qed.

Lemma parse_triangle : parse String.ltb listed_order triangle = Ok triangle_parsed.
Proof. vm_compute. reflexivity. Qed.

Lemma parse_ring : parse String.ltb listed_order ring = Ok ring_parsed.
Proof. vm_compute. reflexivity. Qed.

Lemma parse_torrent : parse String.ltb listed_order torrent = Ok torrent_parsed.
Proof. vm_compute. reflexivity. Qed.

Lemma is_Some_true {A} (o : option A) :
  match o with Some _ => true | None => false end = true → is_Some o.
Proof. destruct o; [eauto|done]. Qed.

Ltac in_dom := apply elem_of_dom, is_Some_true; vm_compute; reflexivity.

(** Case analysis on a lookup in one of the networks above. *)
Ltac lookup_cases H :=
  first [ rewrite lookup_empty in H; discriminate H
        | rewrite lookup_insert in H;
          destruct (decide _) as [<-|?]; [injection H as <-|lookup_cases H] ].

Lemma stranded_edges u v :
  edge stranded u v →
  (u = "AA" ∧ v = "BB") ∨ (u = "BB" ∧ v = "AA") ∨
  (u = "CC" ∧ v = "DD") ∨ (u = "DD" ∧ v = "CC").
Proof.
  intros (x & Hx & Hv). unfold stranded in Hx. simpl in Hx.
  lookup_cases Hx.
  all: simpl in Hv; apply list_elem_of_singleton in Hv as ->; auto.
Qed.

Lemma stranded_walks w n : hops stranded "AA" w n → w = "AA" ∨ w = "BB".
Proof.
  induction 1 as [|b c n Hb IH Hbc]; [by left|].
  apply stranded_edges in Hbc as [[_ ->]|[[_ ->]|[[-> _]|[-> _]]]]; auto.
  - by destruct IH.
  - by destruct IH.
Qed.

Lemma stranded_unreachable : ¬ reachable stranded "AA" "CC".
Proof. intros [n Hn]. by apply stranded_walks in Hn as [?|?]. Qed.

Lemma stranded_closed : closed_network stranded.
Proof.
  intros u v Huv.
  apply stranded_edges in Huv as [[_ ->]|[[_ ->]|[[_ ->]|[_ ->]]]]; in_dom.
Qed.

Lemma triangle_undirected : undirected triangle.
Proof.
  intros u v (x & Hx & Hv). unfold triangle in Hx. simpl in Hx.
  lookup_cases Hx.
  all: simpl in Hv; apply elem_of_cons in Hv as [->|Hv];
    try apply list_elem_of_singleton in Hv as ->;
    eexists; (split; [reflexivity|]); simpl; rewrite !elem_of_cons; auto.
Qed.

Lemma reversed_order_perm A (l : list (string * A)) : reversed_order A l ≡ₚ l.
Proof. apply reverse_Permutation. Qed.

(** ** The scenario of the specification *)

(** From "AA", with four minutes, opening "CC" and then "BB" relieves 40,
    and no order of visits relieves more, however the maps are iterated. *)
Theorem part1_scores_the_triangle ho :
  (∀ A l, ho A l ≡ₚ l) →
  ∃ report, part1 ho triangle_parsed 4 = Some (Ok (report, 40)).
Proof.
  intros Hperm.
  destruct (part1_spec ho Hperm triangle_parsed 4) as (s & Hs & _).
  { apply is_Some_true. vm_compute. reflexivity. }
  exists (part1_report ho triangle_parsed s). rewrite Hs. do 3 f_equal.
  assert (Hlisted : ∃ report,
            part1 listed_order triangle_parsed 4 = Some (Ok (report, 40))).
  { eexists. vm_compute. reflexivity. }
  destruct Hlisted as [report Hlisted].
  exact (part1_answer_unique ho listed_order triangle_parsed 4
           (part1_report ho triangle_parsed s) (max s) report 40
           Hperm listed_order_perm Hs Hlisted).
Qed.

Lemma part1_scores_the_triangle_witness :
  ∃ report, part1 reversed_order triangle_parsed 4 = Some (Ok (report, 40)).
Proof. exact (part1_scores_the_triangle reversed_order reversed_order_perm). Defined.

Lemma part1_answer_independent_of_order_witness :
  ∃ answer, ∀ ho, (∀ A l, ho A l ≡ₚ l) →
    ∃ report, part1 ho triangle_parsed 4 = Some (Ok (report, answer)).
Proof.
  apply (part1_answer_independent_of_order triangle_parsed 4).
  apply is_Some_true. vm_compute. reflexivity.
Defined.

Lemma distance_triangle_inequality_witness : 1 ≤ 1 + 1.
Proof.
  apply (distance_triangle_inequality String.ltb listed_order listed_order_perm
           triangle triangle_parsed "AA" "BB" "CC"
           (mkValve 0 "AA" ["BB"; "CC"] (list_to_map [("AA", 0); ("BB", 1); ("CC", 1)]))
           (mkValve 10 "BB" ["AA"; "CC"] (list_to_map [("AA", 1); ("BB", 0); ("CC", 1)]))
           1 1 1 parse_triangle).
  - vm_compute. reflexivity.
  - vm_compute. reflexivity.
  - in_dom.
  - vm_compute. reflexivity.
  - vm_compute. reflexivity.
  - vm_compute. reflexivity.
Defined.

Lemma part1_zero_when_nothing_is_in_reach_witness :
  ∃ report, part1 listed_order triangle_parsed 1 = Some (Ok (report, 0)).
Proof.
  apply (part1_zero_when_nothing_is_in_reach listed_order listed_order_perm
           triangle_parsed 1).
  - apply is_Some_true. vm_compute. reflexivity.
  - intros target distance Hd Hrate.
    change (triangle_parsed !!! "AA") with
      (mkValve 0 "AA" ["BB"; "CC"] (list_to_map [("AA", 0); ("BB", 1); ("CC", 1)])) in Hd.
    simpl in Hd. lookup_cases Hd.
    + vm_compute in Hrate. discriminate Hrate.
    + split; reflexivity.
    + split; reflexivity.
Defined.

(** ** C1 *)

Lemma pushed_states_leave_before_the_limit_witness :
  first_move ∈ states (part1_trace listed_order 1 triangle_parsed 4 (initial_search "AA")) ∧
  (first_move = initial_state ∨
   ∃ m parent distance,
     (m < 1)%nat ∧
     parent ∈ states (part1_trace listed_order m triangle_parsed 4 (initial_search "AA")) ∧
     elapsedTime parent < 4 ∧
     distances (triangle_parsed !!! current parent) !! current first_move = Some distance ∧
     openedValves parent !! current first_move = None ∧
     0 < flowRate (triangle_parsed !!! current first_move) ∧
     elapsedTime first_move = wrap (elapsedTime parent + distance + 1) ∧
     openedValves first_move
       = <[current first_move := elapsedTime first_move]> (openedValves parent) ∧
     (elapsedTime parent + distance + 1 < SIZE_MODULUS →
      elapsedTime first_move ≤ 4 + distance)).
Proof.
  assert (Hin : first_move
            ∈ states (part1_trace listed_order 1 triangle_parsed 4 (initial_search "AA"))).
  { vm_compute. right. left. }
  split; [exact Hin|].
  exact (pushed_states_leave_before_the_limit listed_order listed_order_perm
           triangle_parsed 4 1 first_move Hin).
Defined.

(** With a budget of one minute the search pushes a state whose elapsed time
    is 2. *)
Lemma pushed_state_beyond_the_limit :
  parse String.ltb listed_order triangle = Ok triangle_parsed ∧
  first_move ∈ states (part1_trace listed_order 1 triangle_parsed 1 (initial_search "AA")) ∧
  1 < elapsedTime first_move.
Proof.
  split; [exact parse_triangle|]. split; [|reflexivity].
  vm_compute. right. left.
Qed.

(** ** C2 *)

Lemma totalPressureRelieved_is_sum_of_rewards_witness :
  totalPressureRelieved listed_order triangle_parsed best_of_four 4
    = wrap (total_reward triangle_parsed 4 (openedValves best_of_four)) ∧
  (total_reward triangle_parsed 4 (openedValves best_of_four) < SIZE_MODULUS →
   totalPressureRelieved listed_order triangle_parsed best_of_four 4
     = total_reward triangle_parsed 4 (openedValves best_of_four)) ∧
  (∀ target openedAt, 4 ≤ openedAt →
     reward triangle_parsed 4 (target, openedAt) = 0) ∧
  (∀ target openedAt, openedAt < 4 →
     reward triangle_parsed 4 (target, openedAt)
       = flowRate (triangle_parsed !!! target) * (4 - openedAt)).
Proof.
  exact (totalPressureRelieved_is_sum_of_rewards listed_order listed_order_perm
           triangle_parsed best_of_four 4).
Defined.

(** The valve of [torrent], opened at 2 of 4 minutes, is worth 2^63 * 2 =
    2^64; the state that opened it, which the search pushes and scores, has a
    score of 0. *)
Lemma totalPressureRelieved_wraps_round :
  torrent_open ∈ states (part1_trace listed_order 1 torrent_parsed 4 (initial_search "AA")) ∧
  terminal listed_order torrent_parsed 4 torrent_open ∧
  total_reward torrent_parsed 4 (openedValves torrent_open) = 18446744073709551616 ∧
  totalPressureRelieved listed_order torrent_parsed torrent_open 4 = 0.
Proof.
  split; [vm_compute; left|].
  split; [vm_compute; reflexivity|].
  split; vm_compute; reflexivity.
Qed.

(** ** C3 *)

Lemma part1_monotone_when_rewards_fit_witness :
  ∃ report1 answer1 report2 answer2,
    part1 listed_order triangle_parsed 4 = Some (Ok (report1, answer1)) ∧
    part1 listed_order triangle_parsed 5 = Some (Ok (report2, answer2)) ∧
    answer1 ≤ answer2.
Proof.
  apply (part1_monotone_when_rewards_fit listed_order listed_order_perm
           triangle_parsed 4 5).
  - apply is_Some_true. vm_compute. reflexivity.
  - lia.
  - vm_compute. reflexivity.
Defined.

(** A flow rate of 2^63, opened at minute 2, scores 2^63 in three minutes
    and, the product wrapping round, 0 in four. *)
Lemma part1_decreases_on_overflow :
  parse String.ltb listed_order torrent = Ok torrent_parsed ∧
  ∃ report3 report4,
    part1 listed_order torrent_parsed 3 = Some (Ok (report3, 9223372036854775808)) ∧
    part1 listed_order torrent_parsed 4 = Some (Ok (report4, 0)) ∧
    ¬ (9223372036854775808 ≤ 0).
Proof.
  split; [exact parse_torrent|].
  eexists _, _. split; [vm_compute; reflexivity|].
  split; [vm_compute; reflexivity|]. lia.
Qed.

(** ** C4 *)

Lemma distance_table_complete_or_throws_witness :
  (∃ e, parse String.ltb listed_order stranded = Throw e) ∧
  (∃ n, distances (mkValve 0 "AA" ["BB"; "CC"]
                     (list_to_map [("AA", 0); ("BB", 1); ("CC", 1)])) !! "CC" = Some n ∧
        min_hops triangle "AA" "CC" n).
Proof.
  destruct (distance_table_complete_or_throws String.ltb listed_order listed_order_perm)
    as (_ & Hthrow & Hok).
  split.
  - apply (Hthrow stranded "AA" "CC"); [in_dom|in_dom|exact stranded_unreachable].
  - apply (Hok triangle triangle_parsed "AA" _ "CC" parse_triangle);
      [vm_compute; reflexivity|in_dom].
Defined.

(** "CC" is out of reach of "AA": the computation of "AA" throws, and the
    table it leaves has "CC" in it, with the sentinel; [parse] throws at the
    first valve it asks for its table (here one of the other pair, which
    cannot reach "AA"). *)
Lemma unreachable_valve_is_not_left_out :
  "CC" ∈ dom stranded ∧
  ¬ reachable stranded "AA" "CC" ∧
  calculateDistanceToOtherValves String.ltb listed_order stranded "AA" ∅
    = (list_to_map [("AA", 0); ("BB", 1); ("CC", 4294967295); ("DD", 4294967295)],
       Some (runtime_error "Processing node CC which has infinite distance")) ∧
  parse String.ltb listed_order stranded
    = Throw (runtime_error "Processing node AA which has infinite distance").
Proof.
  split; [in_dom|]. split; [exact stranded_unreachable|].
  split; vm_compute; reflexivity.
Qed.

(** ** C5 *)

Lemma unset_distance_is_fatal_witness :
  ∃ valve, valve ∈ dom stranded ∧
    (∀ m, hops stranded "AA" valve m → UINT32_MAX ≤ m) ∧
    (calculateDistanceToOtherValves String.ltb listed_order stranded "AA" ∅).2 =
      Some (runtime_error ("Processing node " +:+ label (stranded !!! valve)
                             +:+ " which has infinite distance")).
Proof.
  destruct (unset_distance_is_fatal String.ltb listed_order listed_order_perm)
    as [_ Hthrow].
  apply (Hthrow stranded "AA" ∅ "CC");
    [exact stranded_closed|in_dom|in_dom|exact stranded_unreachable].
Defined.

(** ** C6 *)

Lemma distance_to_self_is_zero_witness :
  (calculateDistanceToOtherValves String.ltb listed_order stranded "AA" ∅).1 !! "AA"
    = Some 0 ∧
  distances (mkValve 20 "CC" ["AA"; "BB"]
               (list_to_map [("AA", 1); ("BB", 1); ("CC", 0)])) !! "CC" = Some 0.
Proof.
  destruct (distance_to_self_is_zero String.ltb listed_order listed_order_perm)
    as [Hcalc Hparse].
  split.
  - apply Hcalc.
  - apply (Hparse triangle triangle_parsed "CC" _ parse_triangle).
    vm_compute. reflexivity.
Defined.

(** ** C7 *)

Lemma distance_symmetric_when_undirected_witness :
  is_Some (distances (mkValve 0 "AA" ["BB"; "CC"]
                        (list_to_map [("AA", 0); ("BB", 1); ("CC", 1)])) !! "CC") ∧
  distances (mkValve 0 "AA" ["BB"; "CC"]
               (list_to_map [("AA", 0); ("BB", 1); ("CC", 1)])) !! "CC"
  = distances (mkValve 20 "CC" ["AA"; "BB"]
                 (list_to_map [("AA", 1); ("BB", 1); ("CC", 0)])) !! "AA".
Proof.
  destruct (distance_symmetric_when_undirected String.ltb listed_order listed_order_perm)
    as [_ Hparse].
  apply (Hparse triangle triangle_parsed "AA" "CC" _ _ triangle_undirected parse_triangle);
    vm_compute; reflexivity.
Defined.

(** Round the ring it is one hop from "AA" to "BB" and two hops back. *)
Lemma distance_not_symmetric_round_the_ring :
  parse String.ltb listed_order ring = Ok ring_parsed ∧
  distances (ring_parsed !!! "AA") !! "BB" = Some 1 ∧
  distances (ring_parsed !!! "BB") !! "AA" = Some 2.
Proof. split; [exact parse_ring|]. split; vm_compute; reflexivity. Qed.

(** ** C8 *)

Lemma part1_zero_without_rewards_witness :
  ∃ report, part1 listed_order dry_parsed 30 = Some (Ok (report, 0)).
Proof.
  apply (part1_zero_without_rewards listed_order listed_order_perm dry_parsed 30).
  - apply is_Some_true. vm_compute. reflexivity.
  - intros l x Hx. unfold dry_parsed in Hx. simpl in Hx.
    lookup_cases Hx.
    all: reflexivity.
Defined.

(** No valve of the network has a flow rate above 0, and [part1] returns
    nothing: it throws, for want of the valve "AA". *)
Lemma part1_throws_without_rewards_and_start :
  parse String.ltb listed_order dry_no_start = Ok dry_no_start_parsed ∧
  (∀ l x, dry_no_start_parsed !! l = Some x → flowRate x = 0) ∧
  part1 listed_order dry_no_start_parsed 30
    = Some (Throw (out_of_range "unordered_map::at")).
Proof.
  split; [vm_compute; reflexivity|]. split; [|vm_compute; reflexivity].
  intros l x Hx. unfold dry_no_start_parsed in Hx. simpl in Hx.
  lookup_cases Hx.
  all: reflexivity.
Qed.

(** ** C9 *)

Lemma main_stops_at_the_first_error_witness :
  main String.ltb listed_order ([Ok triangle] ++ Ok no_start :: [Ok triangle])
  = Some (mkOutcome (triangle_output ++ [text "Part 1: "])
            [text "ERROR: "; text "unordered_map::at"; endl] 1).
Proof.
  apply (main_stops_at_the_first_error String.ltb listed_order
           [Ok triangle] (Ok no_start) [Ok triangle]
           triangle_output (triangle_output ++ [text "Part 1: "])
           (out_of_range "unordered_map::at")).
  - vm_compute. reflexivity.
  - vm_compute. reflexivity.
Defined.

(** The first of two files has no valve "AA": the program ends with the
    error, and the triangle in the second file, which alone scores 820, is
    not processed. *)
Lemma main_does_not_continue_after_an_error :
  main String.ltb listed_order [Ok no_start; Ok triangle]
    = Some (mkOutcome [text "Part 1: "]
              [text "ERROR: "; text "unordered_map::at"; endl] 1) ∧
  main String.ltb listed_order [Ok triangle] = Some (mkOutcome triangle_output [] 0).
Proof. split; vm_compute; reflexivity. Qed.

(** ** C10 *)

Lemma part1_without_start_valve_throws_witness :
  part1 listed_order no_start_parsed 30
    = Some (Throw (out_of_range "unordered_map::at")) ∧
  no_start_parsed !! "AA" = None ∧
  main String.ltb listed_order [Ok no_start; Ok triangle]
    = Some (mkOutcome [text "Part 1: "]
              [text "ERROR: "; text "unordered_map::at"; endl] 1).
Proof.
  destruct (part1_without_start_valve_throws String.ltb listed_order listed_order_perm)
    as [Hpart1 Hmain].
  split.
  - apply Hpart1. vm_compute. reflexivity.
  - apply (Hmain no_start no_start_parsed [Ok triangle]); vm_compute; reflexivity.
Defined.

(** ** The tables, the text and the program *)

Lemma parse_succeeds_iff_strongly_connected_witness :
  (∃ network, parse String.ltb listed_order triangle = Ok network) ↔
  closed_network triangle ∧
  ∀ a b, a ∈ dom triangle → b ∈ dom triangle →
         ∃ n, n < UINT32_MAX ∧ hops triangle a b n.
Proof.
  exact (parse_succeeds_iff_strongly_connected String.ltb listed_order
           listed_order_perm triangle).
Defined.

Lemma read_line_fails_only_on_short_or_numberless_lines_witness :
  (∃ w, read_line "" ∅ = Some (Throw (out_of_range w))) ∧
  (∃ ds, ds ≠ [] ∧
         read_line "Valve AA has flow rate=12" ∅
         = Some (Ok (<["AA" := mkValve 12 "AA" ds ∅]> ∅))).
Proof.
  split.
  - destruct (read_line_fails_only_on_short_or_numberless_lines "" ∅) as (Hshort & _).
    + reflexivity.
    + apply Hshort. reflexivity.
  - destruct (read_line_fails_only_on_short_or_numberless_lines
                "Valve AA has flow rate=12" ∅) as (_ & _ & Hok).
    + reflexivity.
    + apply (Hok 12).
      * vm_compute. discriminate.
      * vm_compute. reflexivity.
Defined.

Lemma read_line_reads_back_a_valve_line_witness :
  read_line "Valve AA has flow rate=0; tunnels lead to valves BB, CC" ∅
  = Some (Ok (<["AA" := mkValve 0 "AA" ["BB"; "CC"] ∅]> ∅)).
Proof.
  apply (read_line_reads_back_a_valve_line "AA" 0 ["BB"; "CC"] ∅).
  - reflexivity.
  - reflexivity.
  - discriminate.
  - repeat constructor.
  - reflexivity.
Defined.

Lemma program_fails_without_start_valve_witness :
  ∃ out, program String.ltb listed_order [triangle_text; no_start_text] = Some out ∧
         exit_status out = 1.
Proof.
  apply (program_fails_without_start_valve String.ltb listed_order listed_order_perm).
  - repeat constructor.
  - right. left. vm_compute. repeat constructor; discriminate.
Defined.

Lemma part1_returns_the_best_terminal_score_witness :
  ∃ report answer,
    part1 listed_order triangle_parsed 4 = Some (Ok (report, answer)) ∧
    (∀ t, descends listed_order triangle_parsed 4 initial_state t →
          terminal listed_order triangle_parsed 4 t →
          totalPressureRelieved listed_order triangle_parsed t 4 ≤ answer) ∧
    (∃ t, descends listed_order triangle_parsed 4 initial_state t ∧
          terminal listed_order triangle_parsed 4 t ∧
          answer = totalPressureRelieved listed_order triangle_parsed t 4) ∧
    (4 * total_rate triangle_parsed < SIZE_MODULUS →
     answer ≤ 4 * total_rate triangle_parsed).
Proof.
  apply (part1_returns_the_best_terminal_score listed_order listed_order_perm
           triangle_parsed 4).
  apply is_Some_true. vm_compute. reflexivity.
Defined.

(** ** The rows of the pair of sensors *)

Lemma getRanges_gives_the_runs_of_a_row_witness :
  ∃ out, Day15.getRanges Day15.pair_of_sensors 0%Z 4%Z 0%Z = Day15.Value out.
Proof.
  destruct (getRanges_gives_the_runs_of_a_row Day15.pair_of_sensors 0%Z 4%Z 0%Z)
    as (_ & Hreturns & _).
  - unfold Day15.is_int, Day15.INT_MIN, Day15.INT_MAX. lia.
  - unfold Day15.is_int, Day15.INT_MIN, Day15.INT_MAX. lia.
  - vm_compute. reflexivity.
  - apply Hreturns.
    + repeat constructor; eexists; vm_compute; reflexivity.
    + left. unfold Day15.reaches. simpl. lia.
    + lia.
Defined.

Lemma rows_out_of_reach_are_undefined_witness :
  Day15.part1 Day15.pair_of_sensors 5%Z = Day15.Undefined ∧
  Day15.main [""; "10"] = Day15.Undefined.
Proof.
  destruct rows_out_of_reach_are_undefined as (_ & Hpart1 & Hmain).
  split.
  - apply Hpart1. repeat constructor; vm_compute; reflexivity.
  - apply (Hmain "10" 10%Z). vm_compute. reflexivity.
Defined.


Lemma part2_prints_the_first_gap_witness :
  ∃ y r1 r2,
    (0 ≤ y ≤ 4)%Z ∧
    Day15.getRanges Day15.pair_of_sensors 0%Z 4%Z y = Day15.Value [r1; r2] ∧
    Forall (λ s, ¬ Day15.in_reach s y (Day15.SensorRange.end_ r1 + 1)%Z)
           Day15.pair_of_sensors ∧
    [text "4000000"; endl]
    = [text (Day15.to_string (4 * (Day15.SensorRange.end_ r1 + 1))%Z
             +:+ Day15.format_06 y); endl].
Proof.
  destruct (part2_prints_the_first_gap Day15.pair_of_sensors 2%Z) as (_ & Hout).
  - vm_compute. reflexivity.
  - destruct (Hout [text "4000000"; endl]) as [(Hnil & _) | (y & r1 & r2 & H)].
    + vm_compute. reflexivity.
    + discriminate Hnil.
    + exists y, r1, r2. cbv zeta in H. tauto.
Defined.

Lemma main_takes_its_arguments_in_pairs_witness :
  Day15.main [Day15.pair_text; "2"; Day15.pair_text]
  = Day15.main [Day15.pair_text; "2"] ∧
  ∃ message,
    Day15.main [Day15.pair_text; "row"; Day15.pair_text; "2"]
    = Day15.Value (mkOutcome [] [text "ERROR: "; text message; endl] 1).
Proof.
  destruct main_takes_its_arguments_in_pairs as (Hlast & _ & Hrow).
  split.
  - apply (Hlast [Day15.pair_text; "2"] Day15.pair_text). exists 1%nat. reflexivity.
  - eexists. apply Hrow. vm_compute. reflexivity.
Defined.

Lemma parse_line_reads_back_a_sensor_line_witness :
  Day15.parse_line "Sensor at x=-3, y=2: closest beacon is at x=2, y=-10"
  = Day15.Value (Day15.mkSensor (-3, 2)%Z (2, -10)%Z 17%Z).
Proof.
  apply (parse_line_reads_back_a_sensor_line (-3)%Z 2%Z 2%Z (-10)%Z);
    unfold Day15.is_int, Day15.INT_MIN, Day15.INT_MAX; lia.
Defined.
